(** * agvCollider: path-conflict detection and scheduling for AGVs

    A shallow embedding of the Go package [agvCollider] (segment.go,
    kdNode.go, collision.go, agvPose.go, path.go) and the properties of its
    geometry kernel, sub-path tracker, exact collision detector, KD-tree
    and conflict resolver.

    The package is embedded twice.

    The exact reading (the top level of this file).  Go's [float64] is read
    as a real number with exact arithmetic: [+ - * /] are the field
    operations of [R], comparisons are the order of [R], [math.Hypot x y]
    is [sqrt (x*x + y*y)], [math.Abs], [math.Min] and [math.Max] are [Rabs],
    [Rmin] and [Rmax], and [math.MaxFloat64] is the real number
    2^1024 - 2^971.  Rounding, infinities and NaN are outside this reading;
    it carries the geometric and combinatorial properties, which are stated
    as properties in exact arithmetic.  A [*AGV] is read as the vehicle
    value it points to: the exact detector never writes through such a
    pointer.  The two methods that do write to their receiver
    ([GenerateSubPath], [PredictPosition]) thread the vehicle explicitly.  A
    slice that is sorted in place is threaded the same way.

    The binary64 reading (module [Binary64]).  [float64] is the primitive
    type [float] of IEEE 754 binary64 numbers, with its rounding, signed
    zeros, infinities and NaN; [math.Hypot], [math.Min], [math.Max] and
    [math.Abs] follow the Go library; [math.Atan2] and [sort.Slice] are
    parameters.  A [*AGV] is a reference into a store of vehicles, and the
    functions that write through it thread the store.  This reading carries
    the properties in which a rounded value, a NaN or the aliasing of the
    vehicles shows, and the runs of the program on given numbers.

    Go's [int] is [Z] (identifiers, depth) or [nat] (lengths and slice
    indices) in both. *)

From Stdlib Require Import Floats.
From Stdlib Require Import Reals Lra Lia ZArith List Permutation Sorted String.
From stdpp Require Import base decidable option list gmap.
Import ListNotations.

Open Scope R_scope.

(* ================================================================= *)
(** ** float64 as real numbers *)

Module Float.

#[global] Instance Rlt_decision (a b : R) : Decision (a < b) := Rlt_dec a b.
#[global] Instance Rle_decision (a b : R) : Decision (a <= b) := Rle_dec a b.
#[global] Instance Rgt_decision (a b : R) : Decision (a > b) := Rgt_dec a b.
#[global] Instance Rge_decision (a b : R) : Decision (a >= b) := Rge_dec a b.
#[global] Instance Req_decision : EqDecision R := Req_dec_T.

(** math.MaxFloat64 = (2 - 2^-52) * 2^1023. *)
Definition MaxFloat64 : R := IZR (2 ^ 1024 - 2 ^ 971).

(** math.Hypot *)
Definition Hypot (p q : R) : R := sqrt (p * p + q * q).

(** math.Atan2 y x, for arguments that are real numbers. *)
Definition Atan2 (y x : R) : R :=
  if decide (x > 0) then atan (y / x)
  else if decide (x < 0) then
         (if decide (y >= 0) then atan (y / x) + PI else atan (y / x) - PI)
  else if decide (y > 0) then PI / 2
  else if decide (y < 0) then - (PI / 2)
  else 0.

End Float.
Import Float.

(* ================================================================= *)
(** ** Data model (agvPose.go, collision.go) *)

Record Pose := mkPose { PoseX : R; PoseY : R; PoseT : R }.

Record Point := mkPoint { X : R; Y : R }.

Record Segment := mkSegment { SegStart : Point; SegEnd : Point }.

Record AGV := mkAGV {
  Id : Z;
  Width : R;
  APose : Pose;
  Speed : R;
  Path : list Point;
  SubPath : list Point;
  InitDone : bool
}.

(** The zero value [Point{}]. *)
Definition zeroPoint : Point := mkPoint 0 0.

(** [s[i]] for an index the code keeps in range. *)
Definition at_ (s : list Point) (i : nat) : Point := nth i s zeroPoint.

(* ================================================================= *)
(** ** Geometry kernel (agvPose.go, segment.go) *)

Definition getDistance (p1 p2 : Point) : R :=
  Hypot (X p2 - X p1) (Y p2 - Y p1).

Definition dot (ax ay bx by_ : R) : R := ax * bx + ay * by_.

Definition cross (ax ay bx by_ : R) : R := ax * by_ - ay * bx.

Definition interpolate (p1 p2 : Point) (ratio : R) : Point :=
  mkPoint (X p1 + (X p2 - X p1) * ratio) (Y p1 + (Y p2 - Y p1) * ratio).

Definition projectPointOnSegment (pose : Pose) (seg : Segment) : Point * R :=
  let vx := X (SegEnd seg) - X (SegStart seg) in
  let vy := Y (SegEnd seg) - Y (SegStart seg) in
  let wx := PoseX pose - X (SegStart seg) in
  let wy := PoseY pose - Y (SegStart seg) in
  let segLen2 := vx * vx + vy * vy in
  if decide (segLen2 = 0) then (SegStart seg, 0)
  else
    let t := dot wx wy vx vy / segLen2 in
    let t := if decide (t < 0) then 0 else t in
    let t := if decide (t > 1) then 1 else t in
    (mkPoint (X (SegStart seg) + t * vx) (Y (SegStart seg) + t * vy), t).

Definition segmentIntersect (s1 s2 : Segment) (width : R) : bool * Point :=
  let dx1 := X (SegEnd s1) - X (SegStart s1) in
  let dy1 := Y (SegEnd s1) - Y (SegStart s1) in
  let dx2 := X (SegEnd s2) - X (SegStart s2) in
  let dy2 := Y (SegEnd s2) - Y (SegStart s2) in
  let denom := cross dx1 dy1 dx2 dy2 in
  if decide (denom = 0) then
    if decide (cross (X (SegStart s2) - X (SegStart s1))
                     (Y (SegStart s2) - Y (SegStart s1)) dx1 dy1 = 0)
    then
      if decide (dx1 <> 0) then
        let minA := Rmin (X (SegStart s1)) (X (SegEnd s1)) in
        let maxA := Rmax (X (SegStart s1)) (X (SegEnd s1)) in
        let minB := Rmin (X (SegStart s2)) (X (SegEnd s2)) in
        let maxB := Rmax (X (SegStart s2)) (X (SegEnd s2)) in
        if decide (Rmax minA minB <= Rmin maxA maxB + width / 2) then
          let overlapStart := Rmax minA minB in
          let overlapEnd := Rmin maxA maxB in
          let ix := (overlapStart + overlapEnd) / 2 in
          let iy := Y (SegStart s1) in
          (true, mkPoint ix iy)
        else (false, zeroPoint)
      else
        let minA := Rmin (Y (SegStart s1)) (Y (SegEnd s1)) in
        let maxA := Rmax (Y (SegStart s1)) (Y (SegEnd s1)) in
        let minB := Rmin (Y (SegStart s2)) (Y (SegEnd s2)) in
        let maxB := Rmax (Y (SegStart s2)) (Y (SegEnd s2)) in
        if decide (Rmax minA minB <= Rmin maxA maxB + width / 2) then
          let overlapStart := Rmax minA minB in
          let overlapEnd := Rmin maxA maxB in
          let iy := (overlapStart + overlapEnd) / 2 in
          let ix := X (SegStart s1) in
          (true, mkPoint ix iy)
        else (false, zeroPoint)
    else (false, zeroPoint)
  else
    let t := cross (X (SegStart s2) - X (SegStart s1))
                   (Y (SegStart s2) - Y (SegStart s1)) dx2 dy2 / denom in
    let u := cross (X (SegStart s2) - X (SegStart s1))
                   (Y (SegStart s2) - Y (SegStart s1)) dx1 dy1 / denom in
    if decide (t >= 0 /\ t <= 1 /\ u >= 0 /\ u <= 1) then
      let ix := X (SegStart s1) + t * dx1 in
      let iy := Y (SegStart s1) + t * dy1 in
      (true, mkPoint ix iy)
    else (false, zeroPoint).

Definition closestPointOnSegment (p : Point) (seg : Segment) : Point :=
  let apx := X p - X (SegStart seg) in
  let apy := Y p - Y (SegStart seg) in
  let abx := X (SegEnd seg) - X (SegStart seg) in
  let aby := Y (SegEnd seg) - Y (SegStart seg) in
  let ab2 := abx * abx + aby * aby in
  if decide (ab2 = 0) then SegStart seg
  else
    let t := (apx * abx + apy * aby) / ab2 in
    let t := if decide (t < 0) then 0 else t in
    let t := if decide (t > 1) then 1 else t in
    mkPoint (X (SegStart seg) + abx * t) (Y (SegStart seg) + aby * t).

(** One turn of the loop of [segmentDistance] over a candidate [c]. *)
Definition segmentDistance_step (s1 s2 : Segment) (st : R * Point) (c : Point)
  : R * Point :=
  let '(minD, best) := st in
  let d := Rmin (Rmin (getDistance (SegStart s1) c) (getDistance (SegEnd s1) c))
                (Rmin (getDistance (SegStart s2) c) (getDistance (SegEnd s2) c)) in
  if decide (d < minD) then (d, c) else (minD, best).

Definition segmentDistance (s1 s2 : Segment) : R * Point :=
  let candidates :=
    [ closestPointOnSegment (SegStart s1) s2;
      closestPointOnSegment (SegEnd s1) s2;
      closestPointOnSegment (SegStart s2) s1;
      closestPointOnSegment (SegEnd s2) s1 ] in
  fold_left (segmentDistance_step s1 s2) candidates (MaxFloat64, zeroPoint).

(** The distance of two segments as the specification words it: the least,
    over the four end points, of the distance from the end point to its
    clamped projection on the opposite segment, with that projection. *)
Definition segmentDistance_spec (s1 s2 : Segment) : R * Point :=
  let pick (st : R * Point) (ec : Point * Point) : R * Point :=
    let d := getDistance (fst ec) (snd ec) in
    if decide (d < fst st) then (d, snd ec) else st in
  let c0 := closestPointOnSegment (SegStart s1) s2 in
  fold_left pick
    [ (SegEnd s1, closestPointOnSegment (SegEnd s1) s2);
      (SegStart s2, closestPointOnSegment (SegStart s2) s1);
      (SegEnd s2, closestPointOnSegment (SegEnd s2) s1) ]
    (getDistance (SegStart s1) c0, c0).

(* ================================================================= *)
(** ** Path intersection (path.go) *)

(** The loop state of [checkPathIntersection]: [minDist], [nearest], [found]. *)
Definition checkPathIntersection_body (pathA : list Point) (width : R)
    (s1 s2 : Segment) (st : R * Point * bool) : R * Point * bool :=
  let '(minDist, nearest, found) := st in
  let '(ok, inter) := segmentIntersect s1 s2 width in
  if ok then
    let d := getDistance (at_ pathA 0) inter in
    if decide (d < minDist) then (d, inter, true) else (minDist, nearest, true)
  else
    let '(d, pt) := segmentDistance s1 s2 in
    if decide (d <= width / 2) then
      if decide (d < minDist) then (d, pt, true) else (minDist, nearest, true)
    else (minDist, nearest, found).

Definition checkPathIntersection (pathA pathB : list Point) (width : R)
  : bool * Point :=
  let '(_, nearest, found) :=
    fold_left
      (fun st i =>
         let s1 := mkSegment (at_ pathA i) (at_ pathA (i + 1)) in
         fold_left
           (fun st j =>
              let s2 := mkSegment (at_ pathB j) (at_ pathB (j + 1)) in
              checkPathIntersection_body pathA width s1 s2 st)
           (seq 0 (length pathB - 1)) st)
      (seq 0 (length pathA - 1)) (MaxFloat64, zeroPoint, false) in
  (found, nearest).

(** Whether [p] lies on [seg], as [pathDistanceToPoint] tests it. *)
Definition onSegment (p : Point) (seg : Segment) : Prop :=
  cross (X p - X (SegStart seg)) (Y p - Y (SegStart seg))
        (X (SegEnd seg) - X (SegStart seg)) (Y (SegEnd seg) - Y (SegStart seg)) = 0 /\
  X p >= Rmin (X (SegStart seg)) (X (SegEnd seg)) - 1 / 1000000 /\
  X p <= Rmax (X (SegStart seg)) (X (SegEnd seg)) + 1 / 1000000 /\
  Y p >= Rmin (Y (SegStart seg)) (Y (SegEnd seg)) - 1 / 1000000 /\
  Y p <= Rmax (Y (SegStart seg)) (Y (SegEnd seg)) + 1 / 1000000.

#[global] Instance onSegment_decision p seg : Decision (onSegment p seg).
Proof. unfold onSegment. apply _. Defined.

(** The loop of [pathDistanceToPoint] over the remaining indices [idx]. *)
Fixpoint pathDistanceToPoint_loop (path : list Point) (p : Point)
    (idx : list nat) (total : R) : R :=
  match idx with
  | [] => total
  | i :: idx' =>
      let seg := mkSegment (at_ path i) (at_ path (i + 1)) in
      if decide (onSegment p seg) then total + getDistance (SegStart seg) p
      else pathDistanceToPoint_loop path p idx'
             (total + getDistance (SegStart seg) (SegEnd seg))
  end.

Definition pathDistanceToPoint (path : list Point) (p : Point) : R :=
  pathDistanceToPoint_loop path p (seq 0 (length path - 1)) 0.

(* ================================================================= *)
(** ** Exact collision detector (collision.go) *)

Record Collision := mkCollision {
  CPoint : Point;
  PathADist : R;
  PathBDist : R;
  TimeA : R;
  TimeB : R;
  TimeDiff : R
}.

(** The zero value [Collision{}]. *)
Definition zeroCollision : Collision := mkCollision zeroPoint 0 0 0 0 0.

Record CollisionEvent := mkCollisionEvent {
  AGV1 : AGV;
  AGV2 : AGV;
  EPoint : Point;
  Time1 : R;
  Time2 : R;
  DeltaT : R
}.

Definition findAllCollisions (pathA pathB : list Point) (vA vB width : R)
  : list Collision :=
  flat_map
    (fun i =>
       let s1 := mkSegment (at_ pathA i) (at_ pathA (i + 1)) in
       flat_map
         (fun j =>
            let s2 := mkSegment (at_ pathB j) (at_ pathB (j + 1)) in
            let '(ok, inter) := segmentIntersect s1 s2 width in
            if ok then
              let sA := pathDistanceToPoint pathA inter in
              let sB := pathDistanceToPoint pathB inter in
              let tA := sA / vA in
              let tB := sB / vB in
              [mkCollision inter sA sB tA tB (Rabs (tA - tB))]
            else [])
         (seq 0 (length pathB - 1)))
    (seq 0 (length pathA - 1)).

(** One turn of the loop of [earliestCollision]; the state is
    [minTime], [best], [found]. *)
Definition earliestCollision_step (tol : R) (st : R * Collision * bool)
    (c : Collision) : R * Collision * bool :=
  let '(minTime, best, found) := st in
  if decide (TimeDiff c <= tol) then
    let earliest := Rmin (TimeA c) (TimeB c) in
    if decide (earliest < minTime) then (earliest, c, true)
    else (minTime, best, found)
  else (minTime, best, found).

Definition earliestCollision (pathA pathB : list Point)
    (vA vB width tol : R) : bool * Collision :=
  let all := findAllCollisions pathA pathB vA vB width in
  if (length all =? 0)%nat then (false, zeroCollision)
  else
    let '(_, best, found) :=
      fold_left (earliestCollision_step tol) all
                (MaxFloat64, zeroCollision, false) in
    (found, best).

(* ================================================================= *)
(** ** Vehicle state and path tracker (agvPose.go) *)

Definition set_InitDone (b : bool) (a : AGV) : AGV :=
  mkAGV (Id a) (Width a) (APose a) (Speed a) (Path a) (SubPath a) b.

Definition set_SubPath (s : list Point) (a : AGV) : AGV :=
  mkAGV (Id a) (Width a) (APose a) (Speed a) (Path a) s (InitDone a).

Definition set_Pose (p : Pose) (a : AGV) : AGV :=
  mkAGV (Id a) (Width a) p (Speed a) (Path a) (SubPath a) (InitDone a).

(** One turn of the projection loop of [GenerateSubPath]; the state is
    [minDist], [segIdx], [proj]. *)
Definition GenerateSubPath_step (pose : Pose) (basePath : list Point)
    (st : R * nat * Point) (i : nat) : R * nat * Point :=
  let '(minDist, segIdx, proj) := st in
  let seg := mkSegment (at_ basePath i) (at_ basePath (i + 1)) in
  let p := fst (projectPointOnSegment pose seg) in
  let d := getDistance (mkPoint (PoseX pose) (PoseY pose)) p in
  if decide (d < minDist) then (d, i, p) else (minDist, segIdx, proj).

(** [GenerateSubPath] returns the vehicle as the call leaves it and the
    sub-path. *)
Definition GenerateSubPath (agv : AGV) : AGV * list Point :=
  let rebuild := negb (InitDone agv) || (length (SubPath agv) <? 2)%nat in
  let basePath := if rebuild then Path agv else SubPath agv in
  let agv := if rebuild then set_InitDone true agv else agv in
  let n := length basePath in
  if (n <? 2)%nat then (agv, basePath)
  else
    let '(_, segIdx, proj) :=
      fold_left (GenerateSubPath_step (APose agv) basePath)
                (seq 0 (n - 1)) (MaxFloat64, 0%nat, zeroPoint) in
    let newPath :=
      proj :: map (at_ basePath) (seq (segIdx + 1) (n - (segIdx + 1))) in
    (set_SubPath newPath agv, newPath).

(** The basis path [GenerateSubPath] works from: the full path on the
    first call or when fewer than 2 points are cached, the cache otherwise. *)
Definition basePathOf (agv : AGV) : list Point :=
  if negb (InitDone agv) || (length (SubPath agv) <? 2)%nat
  then Path agv else SubPath agv.

(** The total length of a path: the sum of the lengths of its segments. *)
Fixpoint pathLength (path : list Point) : R :=
  match path with
  | [] => 0
  | p :: rest =>
      match rest with
      | [] => 0
      | q :: _ => getDistance p q + pathLength rest
      end
  end.

(** [cumulativeLengths[1..]] given [cumulativeLengths[i-1] = acc]. *)
Fixpoint cumulative (acc : R) (segmentLengths : list R) : list R :=
  match segmentLengths with
  | [] => []
  | l :: ls => (acc + l) :: cumulative (acc + l) ls
  end.

(** The search loop of step 4 of [PredictPosition]: the first [i] of [idx]
    with [targetS <= cumulativeLengths[i]] gives [segIdx = i - 1]; [segIdx]
    stays 0 when there is none. *)
Fixpoint PredictPosition_find (targetS : R) (cumulativeLengths : list R)
    (idx : list nat) : nat :=
  match idx with
  | [] => 0%nat
  | i :: idx' =>
      if decide (targetS <= nth i cumulativeLengths 0) then (i - 1)%nat
      else PredictPosition_find targetS cumulativeLengths idx'
  end.

(** [PredictPosition] returns the vehicle as the call leaves it and the
    predicted pose. *)
Definition PredictPosition (agv : AGV) (dt : R) : AGV * Pose :=
  let '(agv, newPath) := GenerateSubPath agv in
  let n := length newPath in
  if (n <? 2)%nat then (agv, APose agv)
  else
    let segmentLengths :=
      map (fun i => getDistance (at_ newPath (i - 1)) (at_ newPath i))
          (seq 1 (n - 1)) in
    let cumulativeLengths := 0 :: cumulative 0 segmentLengths in
    let targetS := Speed agv * dt in
    let totalLen := nth (n - 1) cumulativeLengths 0 in
    if decide (targetS >= totalLen) then
      let last := at_ newPath (n - 1) in
      let dx := X (at_ newPath (n - 1)) - X (at_ newPath (n - 2)) in
      let dy := Y (at_ newPath (n - 1)) - Y (at_ newPath (n - 2)) in
      let theta := Atan2 dy dx in
      let pose := mkPose (X last) (Y last) theta in
      (set_Pose pose agv, pose)
    else
      let segIdx := PredictPosition_find targetS cumulativeLengths (seq 1 (n - 1)) in
      let segStart := at_ newPath segIdx in
      let segEnd := at_ newPath (segIdx + 1) in
      let segLen := nth segIdx segmentLengths 0 in
      let distOnSeg := targetS - nth segIdx cumulativeLengths 0 in
      let ratio := distOnSeg / segLen in
      let pt := interpolate segStart segEnd ratio in
      let theta := Atan2 (Y segEnd - Y segStart) (X segEnd - X segStart) in
      let pose := mkPose (X pt) (Y pt) theta in
      (set_Pose pose agv, pose).

(** [DetectCollisionWith]: the pair [(ok, event)] is [Some event] when [ok]
    and [None] otherwise. *)
Definition DetectCollisionWith (agv other : AGV) (tol : R)
  : option CollisionEvent :=
  let '(ok, col) :=
    earliestCollision (Path agv) (Path other) (Speed agv) (Speed other)
                      ((Width agv + Width other) / 2) tol in
  if ok then
    Some (mkCollisionEvent agv other (CPoint col) (TimeA col) (TimeB col)
                           (TimeDiff col))
  else None.

(* ================================================================= *)
(** ** Conflict resolver (agvPose.go) *)

Record ScheduleAction := mkScheduleAction {
  SAGV : AGV;
  Action : string;
  WaitTime : R;
  SCollision : CollisionEvent
}.

Definition ResolveCollision (e : CollisionEvent) (safeGap : R)
  : ScheduleAction * ScheduleAction :=
  if decide (Time1 e <= Time2 e) then
    (mkScheduleAction (AGV1 e) "GO" 0 e,
     mkScheduleAction (AGV2 e) "WAIT" ((Time1 e + safeGap) - Time2 e) e)
  else
    (mkScheduleAction (AGV2 e) "GO" 0 e,
     mkScheduleAction (AGV1 e) "WAIT" ((Time2 e + safeGap) - Time1 e) e).

(* ================================================================= *)
(** ** Spatial index (kdNode.go) *)

(** A [*KDNode]: [KDNil] is the nil pointer. *)
Inductive KDNode : Type :=
| KDNil : KDNode
| KDCons (agv : AGV) (Left Right : KDNode) (Depth : Z) : KDNode.

(** The zero value of [AGV], read at an index out of range only. *)
Definition zeroAGV : AGV := mkAGV 0 0 (mkPose 0 0 0) 0 [] [] false.

(** The [less] closure [buildKDTree] hands to [sort.Slice]. *)
Definition kdLess (axis : Z) (a b : AGV) : bool :=
  if decide (axis = 0%Z) then bool_decide (PoseX (APose a) < PoseX (APose b))
  else bool_decide (PoseY (APose a) < PoseY (APose b)).

Definition distance (a b : AGV) : R :=
  let dx := PoseX (APose a) - PoseX (APose b) in
  let dy := PoseY (APose a) - PoseY (APose b) in
  Hypot dx dy.

Fixpoint rangeSearch (node : KDNode) (target : AGV) (r : R)
    (results : list AGV) : list AGV :=
  match node with
  | KDNil => results
  | KDCons agv lhs rhs depth =>
      let results :=
        if decide (Id agv <> Id target /\ distance agv target <= r)
        then results ++ [agv] else results in
      let axis := Z.rem depth 2 in
      let diff :=
        if decide (axis = 0%Z)
        then PoseX (APose target) - PoseX (APose agv)
        else PoseY (APose target) - PoseY (APose agv) in
      if decide (diff <= 0) then
        let results := rangeSearch lhs target r results in
        if decide (Rabs diff <= r) then rangeSearch rhs target r results
        else results
      else
        let results := rangeSearch rhs target r results in
        if decide (Rabs diff <= r) then rangeSearch lhs target r results
        else results
  end.

(** The [seen] bookkeeping of the fleet detectors: [map[int]map[int]bool]. *)
Definition seenGet (seen : gmap Z (gmap Z bool)) (a b : Z) : bool :=
  match seen !! a with
  | Some inner => default false (inner !! b)
  | None => false
  end.

(** [if seen[a] == nil { seen[a] = make(map[int]bool) }] *)
Definition seenMake (seen : gmap Z (gmap Z bool)) (a : Z) : gmap Z (gmap Z bool) :=
  match seen !! a with
  | Some _ => seen
  | None => <[a := ∅]> seen
  end.

(** [seen[a][b] = true] *)
Definition seenSet (seen : gmap Z (gmap Z bool)) (a b : Z) : gmap Z (gmap Z bool) :=
  <[a := <[b := true]> (default ∅ (seen !! a))]> seen.

(** The body of the loop of [DetectCollisionsWithKDTree] over the
    neighbours of [agv]; the state is [results], [seen]. *)
Definition DetectCollisions_body (tol : R) (agv : AGV)
    (st : list CollisionEvent * gmap Z (gmap Z bool)) (other : AGV)
  : list CollisionEvent * gmap Z (gmap Z bool) :=
  let '(results, seen) := st in
  let seen := seenMake seen (Id agv) in
  let seen := seenMake seen (Id other) in
  if seenGet seen (Id agv) (Id other) || seenGet seen (Id other) (Id agv)
  then (results, seen)
  else
    let results :=
      match DetectCollisionWith agv other tol with
      | Some event => results ++ [event]
      | None => results
      end in
    (results, seenSet seen (Id agv) (Id other)).

Section Index.

(** [sort.Slice] of the Go library, applied to a slice of vehicles: it
    takes the [less] closure and the slice and gives the slice as the
    in-place sort leaves it. *)
Variable sortSlice : (AGV -> AGV -> bool) -> list AGV -> list AGV.

(** [buildKDTree] returns the root and the caller's slice as the in-place
    sorts of all levels leave it.  [fuel] bounds the recursion depth. *)
Fixpoint buildKDTree_fuel (fuel : nat) (agvs : list AGV) (depth : Z)
  : KDNode * list AGV :=
  match fuel with
  | O => (KDNil, agvs)
  | S fuel' =>
      if (length agvs =? 0)%nat then (KDNil, agvs)
      else
        let axis := Z.rem depth 2 in
        let agvs := sortSlice (kdLess axis) agvs in
        let median := (length agvs / 2)%nat in
        let agv := nth median agvs zeroAGV in
        let '(lhs, lo) :=
          buildKDTree_fuel fuel' (firstn median agvs) (depth + 1) in
        let '(rhs, hi) :=
          buildKDTree_fuel fuel' (skipn (median + 1) agvs) (depth + 1) in
        (KDCons agv lhs rhs depth, lo ++ agv :: hi)
  end.

Definition buildKDTree (agvs : list AGV) (depth : Z) : KDNode * list AGV :=
  buildKDTree_fuel (length agvs) agvs depth.

(** [DetectCollisionsWithKDTree] returns the events and the caller's
    slice as the call leaves it. *)
Definition DetectCollisionsWithKDTree (agvs : list AGV) (tol radius : R)
  : list CollisionEvent * list AGV :=
  let '(root, agvs) := buildKDTree agvs 0 in
  let '(results, _) :=
    fold_left
      (fun st agv =>
         let neighbors := rangeSearch root agv radius [] in
         fold_left (DetectCollisions_body tol agv) neighbors st)
      agvs ([], ∅) in
  (results, agvs).

(** [DetectAndSchedule] returns the actions and the caller's slice as the
    call leaves it. *)
Definition DetectAndSchedule (agvs : list AGV) (tol radius safeGap : R)
  : list ScheduleAction * list AGV :=
  let '(events, agvs) := DetectCollisionsWithKDTree agvs tol radius in
  let actions :=
    fold_left
      (fun actions e =>
         let '(a1, a2) := ResolveCollision e safeGap in
         actions ++ [a1; a2])
      events [] in
  (actions, agvs).

End Index.

(** [sort.Slice] on a slice shorter than 12 is an insertion sort
    ([insertionSortLessFunc]): each element in turn is swapped leftwards
    while it is [less] than its left neighbour.  [sinkLeft] takes the part
    already sorted in reverse (nearest neighbour first). *)
Fixpoint sinkLeft (less : AGV -> AGV -> bool) (before : list AGV) (x : AGV)
  : list AGV :=
  match before with
  | [] => [x]
  | y :: before' =>
      if less x y then y :: sinkLeft less before' x else x :: y :: before'
  end.

Definition insertionSort (less : AGV -> AGV -> bool) (s : list AGV) : list AGV :=
  rev (fold_left (sinkLeft less) s []).

(** What [sort.Slice] asks of [less]: a strict weak ordering. *)
Definition strictWeakOrder (less : AGV -> AGV -> bool) : Prop :=
  (forall a b, less a b = true -> less b a = false) /\
  (forall a b c, less a b = false -> less b c = false -> less a c = false).

(* ================================================================= *)
(** ** Vocabulary of the properties of the index *)

(** The vehicles a tree holds. *)
Fixpoint elements (node : KDNode) : list AGV :=
  match node with
  | KDNil => []
  | KDCons agv lhs rhs _ => agv :: elements lhs ++ elements rhs
  end.

(** The coordinate a node of depth [depth] splits on. *)
Definition splitCoord (depth : Z) (a : AGV) : R :=
  if decide (Z.rem depth 2 = 0%Z) then PoseX (APose a) else PoseY (APose a).

(** The order a tree keeps: on the split coordinate of a node, its left
    subtree is not above the node and its right subtree is not below. *)
Fixpoint kdOrdered (node : KDNode) : Prop :=
  match node with
  | KDNil => True
  | KDCons agv lhs rhs depth =>
      (forall a, In a (elements lhs) -> splitCoord depth a <= splitCoord depth agv) /\
      (forall a, In a (elements rhs) -> splitCoord depth agv <= splitCoord depth a) /\
      kdOrdered lhs /\ kdOrdered rhs
  end.

(* ================================================================= *)
(** ** path.go: the search radius of the predictive fleet check *)

(** One round of the loop of [calculateOptimalSearchRadius] over the fleet:
    the state is [(maxWidth, maxSpeed)]. *)
Definition calculateOptimalSearchRadius_step (st : R * R) (agv : AGV) : R * R :=
  let '(maxWidth, maxSpeed) := st in
  let maxWidth := if decide (Width agv > maxWidth) then Width agv else maxWidth in
  let maxSpeed := if decide (Speed agv > maxSpeed) then Speed agv else maxSpeed in
  (maxWidth, maxSpeed).

Definition calculateOptimalSearchRadius (agvs : list AGV)
    (timeRange collisionThreshold : R) : R :=
  let '(maxWidth, maxSpeed) :=
    fold_left calculateOptimalSearchRadius_step agvs (0, 0) in
  let safetyMargin := maxWidth * 0.5 in
  maxWidth + maxSpeed * timeRange + collisionThreshold + safetyMargin.

(* ================================================================= *)
(** ** The fleet of the scheduling example *)

(** Vehicle A: at (0,0) heading east, 2 m/s, width 1, path (0,0)-(10,0). *)
Definition exampleA (id : Z) : AGV :=
  mkAGV id 1 (mkPose 0 0 0) 2 [mkPoint 0 0; mkPoint 10 0] [] false.

(** Vehicle B: at (10,0) heading west, 2 m/s, width 1, path (10,0)-(0,0). *)
Definition exampleB (id : Z) : AGV :=
  mkAGV id 1 (mkPose 10 0 PI) 2 [mkPoint 10 0; mkPoint 0 0] [] false.

(** The conflict of A and B: both reach (5,0) after 2.5 s. *)
Definition exampleEvent (idA idB : Z) : CollisionEvent :=
  mkCollisionEvent (exampleA idA) (exampleB idB) (mkPoint 5 0) (5 / 2) (5 / 2) 0.

(** The tree [buildKDTree] makes of the two vehicles, whatever their order
    in the slice: B, the median on x, at the root and A to its left. *)
Definition exampleTree (idA idB : Z) : KDNode :=
  KDCons (exampleB idB) (KDCons (exampleA idA) KDNil KDNil 1) KDNil 0.

(* ================================================================= *)
(** ** Vocabulary of the properties of the geometry kernel *)

(** [p] is a point of [seg]: [seg.Start + t * (seg.End - seg.Start)] for
    some [t] in [0,1]. *)
Definition liesOn (p : Point) (seg : Segment) : Prop :=
  exists t : R,
    0 <= t <= 1 /\
    X p = X (SegStart seg) + t * (X (SegEnd seg) - X (SegStart seg)) /\
    Y p = Y (SegStart seg) + t * (Y (SegEnd seg) - Y (SegStart seg)).

(** What one segment pair adds to the [found] flag of
    [checkPathIntersection]. *)
Definition pairTouches (width : R) (s1 s2 : Segment) : bool :=
  fst (segmentIntersect s1 s2 width) ||
  bool_decide (fst (segmentDistance s1 s2) <= width / 2).

(** Two events are about the same unordered pair of vehicle ids. *)
Definition samePair (e1 e2 : CollisionEvent) : Prop :=
  (Id (AGV1 e1) = Id (AGV1 e2) /\ Id (AGV2 e1) = Id (AGV2 e2)) \/
  (Id (AGV1 e1) = Id (AGV2 e2) /\ Id (AGV2 e1) = Id (AGV1 e2)).

(** The number of levels of a tree. *)
Fixpoint height (node : KDNode) : nat :=
  match node with
  | KDNil => 0
  | KDCons _ lhs rhs _ => S (Nat.max (height lhs) (height rhs))
  end.

(* ================================================================= *)
(** ** Vocabulary of the properties of the path tracker *)

(** The vehicles a program using the package has in hand.  A vehicle is
    declared with its id, width, pose, speed and path, the cache [SubPath]
    empty and [InitDone] false (the zero values of the struct literal); the
    package writes the cache only in [GenerateSubPath], which
    [PredictPosition] and the detectors call; the caller, or the telemetry,
    may give the vehicle a new id, width, pose, speed or path at any time. *)
Inductive Reachable : AGV -> Prop :=
  | Reachable_new (id : Z) (width : R) (pose : Pose) (speed : R)
      (path : list Point) :
      Reachable (mkAGV id width pose speed path [] false)
  | Reachable_GenerateSubPath (agv : AGV) :
      Reachable agv -> Reachable (fst (GenerateSubPath agv))
  | Reachable_PredictPosition (agv : AGV) (dt : R) :
      Reachable agv -> Reachable (fst (PredictPosition agv dt))
  | Reachable_update (agv : AGV) (id : Z) (width : R) (pose : Pose)
      (speed : R) (path : list Point) :
      Reachable agv ->
      Reachable (mkAGV id width pose speed path (SubPath agv) (InitDone agv)).

(* ================================================================= *)
(** * The package over binary64

    The second embedding follows the Go code with [float64] as the IEEE 754
    binary64 numbers of Rocq's primitive [float]: every operation rounds to
    nearest-even, [+Inf], [-Inf], [-0] and NaN are values, and a comparison
    with NaN is false.  A [*AGV] is an index into the [Store] of vehicles,
    so that the methods that write to their receiver are seen through every
    reference to it; a [[]*AGV] is a list of such indices. *)

Module Binary64.

#[local] Set Warnings "-inexact-float".
Local Open Scope float_scope.

(** ** Go's [math] library *)

(** math.MaxFloat64 = 0x1p1023 * (1 + (1 - 0x1p-52)) *)
Definition MaxFloat64 : float := 0x1.fffffffffffffp1023.

(** math.Abs clears the sign bit. *)
Definition Abs (x : float) : float := abs x.

(** math.Max, with its special cases: Max(x, +Inf) = +Inf, Max(x, NaN) = NaN,
    Max(+0, ±0) = +0, Max(-0, -0) = -0. *)
Definition Max (x y : float) : float :=
  if (x =? infinity) || (y =? infinity) then infinity
  else if is_nan x || is_nan y then nan
  else if (x =? 0) && (x =? y) then (if get_sign x then y else x)
  else if y <? x then x else y.

(** math.Min, with its special cases: Min(x, -Inf) = -Inf, Min(x, NaN) = NaN,
    Min(-0, ±0) = -0. *)
Definition Min (x y : float) : float :=
  if (x =? neg_infinity) || (y =? neg_infinity) then neg_infinity
  else if is_nan x || is_nan y then nan
  else if (x =? 0) && (x =? y) then (if get_sign x then x else y)
  else if x <? y then x else y.

(** math.Hypot: Hypot(±Inf, q) = +Inf, Hypot(NaN, q) = NaN, and otherwise
    [max * sqrt(1 + (min/max)^2)] over the absolute values. *)
Definition Hypot (p q : float) : float :=
  let p := abs p in
  let q := abs q in
  if (p =? infinity) || (q =? infinity) then infinity
  else if is_nan p || is_nan q then nan
  else
    let '(p, q) := if p <? q then (q, p) else (p, q) in
    if p =? 0 then 0
    else
      let q := q / p in
      p * PrimFloat.sqrt (1 + q * q).

(** ** Data model (agvPose.go, collision.go) *)

Record Pose := mkPose { PoseX : float; PoseY : float; PoseT : float }.

Record Point := mkPoint { X : float; Y : float }.

Record Segment := mkSegment { SegStart : Point; SegEnd : Point }.

Record AGV := mkAGV {
  Id : Z;
  Width : float;
  APose : Pose;
  Speed : float;
  Path : list Point;
  SubPath : list Point;
  InitDone : bool
}.

Definition zeroPoint : Point := mkPoint 0 0.

Definition zeroAGV : AGV := mkAGV 0 0 (mkPose 0 0 0) 0 [] [] false.

Definition at_ (s : list Point) (i : nat) : Point := nth i s zeroPoint.

(** A [*AGV] is the index of the vehicle in the store. *)
Definition ptr : Type := nat.

Definition Store : Type := list AGV.

Definition deref (st : Store) (p : ptr) : AGV := nth p st zeroAGV.

(** ** Geometry kernel (agvPose.go, segment.go) *)

Definition getDistance (p1 p2 : Point) : float :=
  Hypot (X p2 - X p1) (Y p2 - Y p1).

Definition dot (ax ay bx by_ : float) : float := ax * bx + ay * by_.

Definition cross (ax ay bx by_ : float) : float := ax * by_ - ay * bx.

Definition interpolate (p1 p2 : Point) (ratio : float) : Point :=
  mkPoint (X p1 + (X p2 - X p1) * ratio) (Y p1 + (Y p2 - Y p1) * ratio).

Definition projectPointOnSegment (pose : Pose) (seg : Segment) : Point * float :=
  let vx := X (SegEnd seg) - X (SegStart seg) in
  let vy := Y (SegEnd seg) - Y (SegStart seg) in
  let wx := PoseX pose - X (SegStart seg) in
  let wy := PoseY pose - Y (SegStart seg) in
  let segLen2 := vx * vx + vy * vy in
  if segLen2 =? 0 then (SegStart seg, 0)
  else
    let t := dot wx wy vx vy / segLen2 in
    let t := if t <? 0 then 0 else t in
    let t := if 1 <? t then 1 else t in
    (mkPoint (X (SegStart seg) + t * vx) (Y (SegStart seg) + t * vy), t).

Definition segmentIntersect (s1 s2 : Segment) (width : float) : bool * Point :=
  let dx1 := X (SegEnd s1) - X (SegStart s1) in
  let dy1 := Y (SegEnd s1) - Y (SegStart s1) in
  let dx2 := X (SegEnd s2) - X (SegStart s2) in
  let dy2 := Y (SegEnd s2) - Y (SegStart s2) in
  let denom := cross dx1 dy1 dx2 dy2 in
  if denom =? 0 then
    if cross (X (SegStart s2) - X (SegStart s1))
             (Y (SegStart s2) - Y (SegStart s1)) dx1 dy1 =? 0
    then
      if negb (dx1 =? 0) then
        let minA := Min (X (SegStart s1)) (X (SegEnd s1)) in
        let maxA := Max (X (SegStart s1)) (X (SegEnd s1)) in
        let minB := Min (X (SegStart s2)) (X (SegEnd s2)) in
        let maxB := Max (X (SegStart s2)) (X (SegEnd s2)) in
        if Max minA minB <=? Min maxA maxB + width / 2 then
          let overlapStart := Max minA minB in
          let overlapEnd := Min maxA maxB in
          let ix := (overlapStart + overlapEnd) / 2 in
          let iy := Y (SegStart s1) in
          (true, mkPoint ix iy)
        else (false, zeroPoint)
      else
        let minA := Min (Y (SegStart s1)) (Y (SegEnd s1)) in
        let maxA := Max (Y (SegStart s1)) (Y (SegEnd s1)) in
        let minB := Min (Y (SegStart s2)) (Y (SegEnd s2)) in
        let maxB := Max (Y (SegStart s2)) (Y (SegEnd s2)) in
        if Max minA minB <=? Min maxA maxB + width / 2 then
          let overlapStart := Max minA minB in
          let overlapEnd := Min maxA maxB in
          let iy := (overlapStart + overlapEnd) / 2 in
          let ix := X (SegStart s1) in
          (true, mkPoint ix iy)
        else (false, zeroPoint)
    else (false, zeroPoint)
  else
    let t := cross (X (SegStart s2) - X (SegStart s1))
                   (Y (SegStart s2) - Y (SegStart s1)) dx2 dy2 / denom in
    let u := cross (X (SegStart s2) - X (SegStart s1))
                   (Y (SegStart s2) - Y (SegStart s1)) dx1 dy1 / denom in
    if (0 <=? t) && (t <=? 1) && (0 <=? u) && (u <=? 1) then
      let ix := X (SegStart s1) + t * dx1 in
      let iy := Y (SegStart s1) + t * dy1 in
      (true, mkPoint ix iy)
    else (false, zeroPoint).

Definition closestPointOnSegment (p : Point) (seg : Segment) : Point :=
  let apx := X p - X (SegStart seg) in
  let apy := Y p - Y (SegStart seg) in
  let abx := X (SegEnd seg) - X (SegStart seg) in
  let aby := Y (SegEnd seg) - Y (SegStart seg) in
  let ab2 := abx * abx + aby * aby in
  if ab2 =? 0 then SegStart seg
  else
    let t := (apx * abx + apy * aby) / ab2 in
    let t := if t <? 0 then 0 else t in
    let t := if 1 <? t then 1 else t in
    mkPoint (X (SegStart seg) + abx * t) (Y (SegStart seg) + aby * t).

Definition segmentDistance_step (s1 s2 : Segment) (st : float * Point)
    (c : Point) : float * Point :=
  let '(minD, best) := st in
  let d := Min (Min (getDistance (SegStart s1) c) (getDistance (SegEnd s1) c))
               (Min (getDistance (SegStart s2) c) (getDistance (SegEnd s2) c)) in
  if d <? minD then (d, c) else (minD, best).

Definition segmentDistance (s1 s2 : Segment) : float * Point :=
  let candidates :=
    [ closestPointOnSegment (SegStart s1) s2;
      closestPointOnSegment (SegEnd s1) s2;
      closestPointOnSegment (SegStart s2) s1;
      closestPointOnSegment (SegEnd s2) s1 ] in
  fold_left (segmentDistance_step s1 s2) candidates (MaxFloat64, zeroPoint).

(** ** Path intersection (path.go) *)

Definition checkPathIntersection_body (pathA : list Point) (width : float)
    (s1 s2 : Segment) (st : float * Point * bool) : float * Point * bool :=
  let '(minDist, nearest, found) := st in
  let '(ok, inter) := segmentIntersect s1 s2 width in
  if ok then
    let d := getDistance (at_ pathA 0) inter in
    if d <? minDist then (d, inter, true) else (minDist, nearest, true)
  else
    let '(d, pt) := segmentDistance s1 s2 in
    if d <=? width / 2 then
      if d <? minDist then (d, pt, true) else (minDist, nearest, true)
    else (minDist, nearest, found).

Definition checkPathIntersection (pathA pathB : list Point) (width : float)
  : bool * Point :=
  let '(_, nearest, found) :=
    fold_left
      (fun st i =>
         let s1 := mkSegment (at_ pathA i) (at_ pathA (i + 1)) in
         fold_left
           (fun st j =>
              let s2 := mkSegment (at_ pathB j) (at_ pathB (j + 1)) in
              checkPathIntersection_body pathA width s1 s2 st)
           (seq 0 (length pathB - 1)) st)
      (seq 0 (length pathA - 1)) (MaxFloat64, zeroPoint, false) in
  (found, nearest).

(** Whether [p] lies on [seg], as [pathDistanceToPoint] tests it. *)
Definition onSegment (p : Point) (seg : Segment) : bool :=
  (cross (X p - X (SegStart seg)) (Y p - Y (SegStart seg))
         (X (SegEnd seg) - X (SegStart seg)) (Y (SegEnd seg) - Y (SegStart seg)) =? 0) &&
  (Min (X (SegStart seg)) (X (SegEnd seg)) - 1e-6 <=? X p) &&
  (X p <=? Max (X (SegStart seg)) (X (SegEnd seg)) + 1e-6) &&
  (Min (Y (SegStart seg)) (Y (SegEnd seg)) - 1e-6 <=? Y p) &&
  (Y p <=? Max (Y (SegStart seg)) (Y (SegEnd seg)) + 1e-6).

Fixpoint pathDistanceToPoint_loop (path : list Point) (p : Point)
    (idx : list nat) (total : float) : float :=
  match idx with
  | [] => total
  | i :: idx' =>
      let seg := mkSegment (at_ path i) (at_ path (i + 1)) in
      if onSegment p seg then total + getDistance (SegStart seg) p
      else pathDistanceToPoint_loop path p idx'
             (total + getDistance (SegStart seg) (SegEnd seg))
  end.

Definition pathDistanceToPoint (path : list Point) (p : Point) : float :=
  pathDistanceToPoint_loop path p (seq 0 (length path - 1)) 0.

(** ** Exact collision detector (collision.go) *)

Record Collision := mkCollision {
  CPoint : Point;
  PathADist : float;
  PathBDist : float;
  TimeA : float;
  TimeB : float;
  TimeDiff : float
}.

Definition zeroCollision : Collision := mkCollision zeroPoint 0 0 0 0 0.

Record CollisionEvent := mkCollisionEvent {
  AGV1 : ptr;
  AGV2 : ptr;
  EPoint : Point;
  Time1 : float;
  Time2 : float;
  DeltaT : float
}.

Definition findAllCollisions (pathA pathB : list Point) (vA vB width : float)
  : list Collision :=
  flat_map
    (fun i =>
       let s1 := mkSegment (at_ pathA i) (at_ pathA (i + 1)) in
       flat_map
         (fun j =>
            let s2 := mkSegment (at_ pathB j) (at_ pathB (j + 1)) in
            let '(ok, inter) := segmentIntersect s1 s2 width in
            if ok then
              let sA := pathDistanceToPoint pathA inter in
              let sB := pathDistanceToPoint pathB inter in
              let tA := sA / vA in
              let tB := sB / vB in
              [mkCollision inter sA sB tA tB (Abs (tA - tB))]
            else [])
         (seq 0 (length pathB - 1)))
    (seq 0 (length pathA - 1)).

Definition earliestCollision_step (tol : float)
    (st : float * Collision * bool) (c : Collision) : float * Collision * bool :=
  let '(minTime, best, found) := st in
  if TimeDiff c <=? tol then
    let earliest := Min (TimeA c) (TimeB c) in
    if earliest <? minTime then (earliest, c, true)
    else (minTime, best, found)
  else (minTime, best, found).

Definition earliestCollision (pathA pathB : list Point)
    (vA vB width tol : float) : bool * Collision :=
  let all := findAllCollisions pathA pathB vA vB width in
  if (length all =? 0)%nat then (false, zeroCollision)
  else
    let '(_, best, found) :=
      fold_left (earliestCollision_step tol) all
                (MaxFloat64, zeroCollision, false) in
    (found, best).

(** [DetectCollisionWith]: the pair [(ok, event)] is [Some event] when [ok]
    and [None] otherwise. *)
Definition DetectCollisionWith (st : Store) (agv other : ptr) (tol : float)
  : option CollisionEvent :=
  let '(ok, col) :=
    earliestCollision (Path (deref st agv)) (Path (deref st other))
                      (Speed (deref st agv)) (Speed (deref st other))
                      ((Width (deref st agv) + Width (deref st other)) / 2) tol in
  if ok then
    Some (mkCollisionEvent agv other (CPoint col) (TimeA col) (TimeB col)
                           (TimeDiff col))
  else None.

(** ** Conflict resolver (agvPose.go) *)

Record ScheduleAction := mkScheduleAction {
  SAGV : ptr;
  Action : string;
  WaitTime : float;
  SCollision : CollisionEvent
}.

Definition ResolveCollision (e : CollisionEvent) (safeGap : float)
  : ScheduleAction * ScheduleAction :=
  if Time1 e <=? Time2 e then
    (mkScheduleAction (AGV1 e) "GO" 0 e,
     mkScheduleAction (AGV2 e) "WAIT" ((Time1 e + safeGap) - Time2 e) e)
  else
    (mkScheduleAction (AGV2 e) "GO" 0 e,
     mkScheduleAction (AGV1 e) "WAIT" ((Time2 e + safeGap) - Time1 e) e).

(** ** Spatial index (kdNode.go) *)

Inductive KDNode : Type :=
| KDNil : KDNode
| KDCons (agv : ptr) (Left Right : KDNode) (Depth : Z) : KDNode.

(** The [less] closure [buildKDTree] hands to [sort.Slice]. *)
Definition kdLess (st : Store) (axis : Z) (a b : ptr) : bool :=
  if (axis =? 0)%Z then PoseX (APose (deref st a)) <? PoseX (APose (deref st b))
  else PoseY (APose (deref st a)) <? PoseY (APose (deref st b)).

Definition distance (st : Store) (a b : ptr) : float :=
  let dx := PoseX (APose (deref st a)) - PoseX (APose (deref st b)) in
  let dy := PoseY (APose (deref st a)) - PoseY (APose (deref st b)) in
  Hypot dx dy.

Fixpoint rangeSearch (st : Store) (node : KDNode) (target : ptr) (r : float)
    (results : list ptr) : list ptr :=
  match node with
  | KDNil => results
  | KDCons agv lhs rhs depth =>
      let results :=
        if negb (Id (deref st agv) =? Id (deref st target))%Z &&
           (distance st agv target <=? r)
        then results ++ [agv] else results in
      let axis := Z.rem depth 2 in
      let diff :=
        if (axis =? 0)%Z
        then PoseX (APose (deref st target)) - PoseX (APose (deref st agv))
        else PoseY (APose (deref st target)) - PoseY (APose (deref st agv)) in
      if diff <=? 0 then
        let results := rangeSearch st lhs target r results in
        if Abs diff <=? r then rangeSearch st rhs target r results
        else results
      else
        let results := rangeSearch st rhs target r results in
        if Abs diff <=? r then rangeSearch st lhs target r results
        else results
  end.

(** The [seen] bookkeeping of the fleet detectors: [map[int]map[int]bool]. *)
Definition seenGet (seen : gmap Z (gmap Z bool)) (a b : Z) : bool :=
  match seen !! a with
  | Some inner => default false (inner !! b)
  | None => false
  end.

Definition seenMake (seen : gmap Z (gmap Z bool)) (a : Z) : gmap Z (gmap Z bool) :=
  match seen !! a with
  | Some _ => seen
  | None => <[a := ∅]> seen
  end.

Definition seenSet (seen : gmap Z (gmap Z bool)) (a b : Z) : gmap Z (gmap Z bool) :=
  <[a := <[b := true]> (default ∅ (seen !! a))]> seen.

Definition DetectCollisions_body (st : Store) (tol : float) (agv : ptr)
    (acc : list CollisionEvent * gmap Z (gmap Z bool)) (other : ptr)
  : list CollisionEvent * gmap Z (gmap Z bool) :=
  let '(results, seen) := acc in
  let seen := seenMake seen (Id (deref st agv)) in
  let seen := seenMake seen (Id (deref st other)) in
  if seenGet seen (Id (deref st agv)) (Id (deref st other)) ||
     seenGet seen (Id (deref st other)) (Id (deref st agv))
  then (results, seen)
  else
    let results :=
      match DetectCollisionWith st agv other tol with
      | Some event => results ++ [event]
      | None => results
      end in
    (results, seenSet seen (Id (deref st agv)) (Id (deref st other))).

Section Index.

(** [sort.Slice] of the Go library on a slice of vehicle references. *)
Variable sortSlice : (ptr -> ptr -> bool) -> list ptr -> list ptr.

(** [buildKDTree] returns the root and the caller's slice as the in-place
    sorts of all levels leave it.  [fuel] bounds the recursion depth. *)
Fixpoint buildKDTree_fuel (fuel : nat) (st : Store) (agvs : list ptr) (depth : Z)
  : KDNode * list ptr :=
  match fuel with
  | O => (KDNil, agvs)
  | S fuel' =>
      if (length agvs =? 0)%nat then (KDNil, agvs)
      else
        let axis := Z.rem depth 2 in
        let agvs := sortSlice (kdLess st axis) agvs in
        let median := (length agvs / 2)%nat in
        let agv := nth median agvs 0%nat in
        let '(lhs, lo) :=
          buildKDTree_fuel fuel' st (firstn median agvs) (depth + 1) in
        let '(rhs, hi) :=
          buildKDTree_fuel fuel' st (skipn (median + 1) agvs) (depth + 1) in
        (KDCons agv lhs rhs depth, lo ++ agv :: hi)
  end.

Definition buildKDTree (st : Store) (agvs : list ptr) (depth : Z)
  : KDNode * list ptr :=
  buildKDTree_fuel (length agvs) st agvs depth.

Definition DetectCollisionsWithKDTree (st : Store) (agvs : list ptr)
    (tol radius : float) : list CollisionEvent * list ptr :=
  let '(root, agvs) := buildKDTree st agvs 0 in
  let '(results, _) :=
    fold_left
      (fun acc agv =>
         let neighbors := rangeSearch st root agv radius [] in
         fold_left (DetectCollisions_body st tol agv) neighbors acc)
      agvs ([], ∅) in
  (results, agvs).

Definition DetectAndSchedule (st : Store) (agvs : list ptr)
    (tol radius safeGap : float) : list ScheduleAction * list ptr :=
  let '(events, agvs) := DetectCollisionsWithKDTree st agvs tol radius in
  let actions :=
    fold_left
      (fun actions e =>
         let '(a1, a2) := ResolveCollision e safeGap in
         actions ++ [a1; a2])
      events [] in
  (actions, agvs).

End Index.

(** [sort.Slice] on a slice shorter than 12 is an insertion sort
    ([insertionSortLessFunc]): each element in turn is swapped leftwards
    while it is [less] than its left neighbour.  [sinkLeft] takes the part
    already sorted in reverse (nearest neighbour first). *)
Fixpoint sinkLeft (less : ptr -> ptr -> bool) (before : list ptr) (x : ptr)
  : list ptr :=
  match before with
  | [] => [x]
  | y :: before' =>
      if less x y then y :: sinkLeft less before' x else x :: y :: before'
  end.

Definition insertionSort (less : ptr -> ptr -> bool) (s : list ptr) : list ptr :=
  rev (fold_left (sinkLeft less) s []).

(** ** Vehicle state and path tracker (agvPose.go) *)

Definition set_InitDone (b : bool) (a : AGV) : AGV :=
  mkAGV (Id a) (Width a) (APose a) (Speed a) (Path a) (SubPath a) b.

Definition set_SubPath (s : list Point) (a : AGV) : AGV :=
  mkAGV (Id a) (Width a) (APose a) (Speed a) (Path a) s (InitDone a).

Definition set_Pose (p : Pose) (a : AGV) : AGV :=
  mkAGV (Id a) (Width a) p (Speed a) (Path a) (SubPath a) (InitDone a).

Definition GenerateSubPath_step (pose : Pose) (basePath : list Point)
    (st : float * nat * Point) (i : nat) : float * nat * Point :=
  let '(minDist, segIdx, proj) := st in
  let seg := mkSegment (at_ basePath i) (at_ basePath (i + 1)) in
  let p := fst (projectPointOnSegment pose seg) in
  let d := getDistance (mkPoint (PoseX pose) (PoseY pose)) p in
  if d <? minDist then (d, i, p) else (minDist, segIdx, proj).

(** [GenerateSubPath] on the vehicle value: the vehicle as the call leaves
    it and the sub-path. *)
Definition GenerateSubPath (agv : AGV) : AGV * list Point :=
  let rebuild := negb (InitDone agv) || (length (SubPath agv) <? 2)%nat in
  let basePath := if rebuild then Path agv else SubPath agv in
  let agv := if rebuild then set_InitDone true agv else agv in
  let n := length basePath in
  if (n <? 2)%nat then (agv, basePath)
  else
    let '(_, segIdx, proj) :=
      fold_left (GenerateSubPath_step (APose agv) basePath)
                (seq 0 (n - 1)) (MaxFloat64, 0%nat, zeroPoint) in
    let newPath :=
      proj :: map (at_ basePath) (seq (segIdx + 1) (n - (segIdx + 1))) in
    (set_SubPath newPath agv, newPath).

Fixpoint cumulative (acc : float) (segmentLengths : list float) : list float :=
  match segmentLengths with
  | [] => []
  | l :: ls => (acc + l) :: cumulative (acc + l) ls
  end.

Fixpoint PredictPosition_find (targetS : float) (cumulativeLengths : list float)
    (idx : list nat) : nat :=
  match idx with
  | [] => 0%nat
  | i :: idx' =>
      if targetS <=? nth i cumulativeLengths 0 then (i - 1)%nat
      else PredictPosition_find targetS cumulativeLengths idx'
  end.

Section Tracker.

(** math.Atan2 of the Go library. *)
Variable Atan2 : float -> float -> float.

(** [PredictPosition] on the vehicle value: the vehicle as the call leaves
    it and the predicted pose. *)
Definition PredictPosition (agv : AGV) (dt : float) : AGV * Pose :=
  let '(agv, newPath) := GenerateSubPath agv in
  let n := length newPath in
  if (n <? 2)%nat then (agv, APose agv)
  else
    let segmentLengths :=
      map (fun i => getDistance (at_ newPath (i - 1)) (at_ newPath i))
          (seq 1 (n - 1)) in
    let cumulativeLengths := 0 :: cumulative 0 segmentLengths in
    let targetS := Speed agv * dt in
    let totalLen := nth (n - 1) cumulativeLengths 0 in
    if totalLen <=? targetS then
      let last := at_ newPath (n - 1) in
      let dx := X (at_ newPath (n - 1)) - X (at_ newPath (n - 2)) in
      let dy := Y (at_ newPath (n - 1)) - Y (at_ newPath (n - 2)) in
      let theta := Atan2 dy dx in
      let pose := mkPose (X last) (Y last) theta in
      (set_Pose pose agv, pose)
    else
      let segIdx := PredictPosition_find targetS cumulativeLengths (seq 1 (n - 1)) in
      let segStart := at_ newPath segIdx in
      let segEnd := at_ newPath (segIdx + 1) in
      let segLen := nth segIdx segmentLengths 0 in
      let distOnSeg := targetS - nth segIdx cumulativeLengths 0 in
      let ratio := distOnSeg / segLen in
      let pt := interpolate segStart segEnd ratio in
      let theta := Atan2 (Y segEnd - Y segStart) (X segEnd - X segStart) in
      let pose := mkPose (X pt) (Y pt) theta in
      (set_Pose pose agv, pose).

(** [agv.PredictPosition(dt)] through the reference [agv]. *)
Definition PredictPositionAt (st : Store) (agv : ptr) (dt : float)
  : Store * Pose :=
  let '(a, pose) := PredictPosition (deref st agv) dt in
  (<[agv := a]> st, pose).

(** ** Predictive collision detector (agvPose.go, path.go) *)

Record CollisionPrediction := mkCollisionPrediction {
  PAGV1 : ptr;
  PAGV2 : ptr;
  CollisionTime : float;
  CollisionPoint : Point;
  AGV1Pose : Pose;
  AGV2Pose : Pose;
  Distance : float;
  CollisionThreshold : float
}.

(** The sampling loop of [PredictCollisionWith] from time [t] on; the state
    is the store, [earliestTime] and the prediction found so far.  The loop
    need not end in binary64 ([t + timeStep] can round back to [t]): [None]
    says that [fuel] rounds did not end it. *)
Fixpoint PredictCollisionWith_loop (fuel : nat) (agv other : ptr)
    (timeRange timeStep collisionThreshold : float)
    (st : Store) (t earliestTime : float) (best : option CollisionPrediction)
  : option (Store * option CollisionPrediction) :=
  if t <=? timeRange then
    match fuel with
    | O => None
    | S fuel' =>
        let '(st, pose1) := PredictPositionAt st agv t in
        let '(st, pose2) := PredictPositionAt st other t in
        let distance := Hypot (PoseX pose1 - PoseX pose2) (PoseY pose1 - PoseY pose2) in
        let '(earliestTime, best) :=
          if (distance <=? collisionThreshold) && (t <? earliestTime) then
            (t, Some (mkCollisionPrediction agv other t
                        (mkPoint ((PoseX pose1 + PoseX pose2) / 2)
                                 ((PoseY pose1 + PoseY pose2) / 2))
                        pose1 pose2 distance collisionThreshold))
          else (earliestTime, best) in
        PredictCollisionWith_loop fuel' agv other timeRange timeStep
          collisionThreshold st (t + timeStep) earliestTime best
    end
  else Some (st, best).

(** [PredictCollisionWith]: the store as the call leaves it and the pair
    [(found, prediction)] as [Some prediction] when [found]. *)
Definition PredictCollisionWith (fuel : nat) (st : Store) (agv other : ptr)
    (timeRange timeStep collisionThreshold : float)
  : option (Store * option CollisionPrediction) :=
  let timeStep := if timeStep <=? 0 then 0.1 else timeStep in
  let collisionThreshold :=
    if collisionThreshold <=? 0
    then (Width (deref st agv) + Width (deref st other)) / 2
    else collisionThreshold in
  PredictCollisionWith_loop fuel agv other timeRange timeStep collisionThreshold
    st 0 (timeRange + 1) None.

Definition calculateOptimalSearchRadius_step (st : Store) (acc : float * float)
    (agv : ptr) : float * float :=
  let '(maxWidth, maxSpeed) := acc in
  let maxWidth :=
    if maxWidth <? Width (deref st agv) then Width (deref st agv) else maxWidth in
  let maxSpeed :=
    if maxSpeed <? Speed (deref st agv) then Speed (deref st agv) else maxSpeed in
  (maxWidth, maxSpeed).

Definition calculateOptimalSearchRadius (st : Store) (agvs : list ptr)
    (timeRange collisionThreshold : float) : float :=
  let '(maxWidth, maxSpeed) :=
    fold_left (calculateOptimalSearchRadius_step st) agvs (0, 0) in
  let safetyMargin := maxWidth * 0.5 in
  maxWidth + maxSpeed * timeRange + collisionThreshold + safetyMargin.

(** A loop over [l] whose body may run out of fuel. *)
Fixpoint foldM {A B : Type} (f : B -> A -> option B) (l : list A) (b : B)
  : option B :=
  match l with
  | [] => Some b
  | x :: l' =>
      match f b x with
      | Some b' => foldM f l' b'
      | None => None
      end
  end.

(** The state of the loops of the predictive fleet checks: the store,
    [collisions] and [seen]. *)
Definition FleetState : Type :=
  Store * list CollisionPrediction * gmap Z (gmap Z bool).

(** The part the three predictive fleet checks share, from the [seen]
    bookkeeping on, for the pair of references [agv1], [agv2];
    [prefilter] is the test on the initial distance, where there is one. *)
Definition PredictPair (fuel : nat) (timeRange timeStep collisionThreshold : float)
    (prefilter : Store -> bool) (agv1 agv2 : ptr) (s : FleetState)
  : option FleetState :=
  let '(st, collisions, seen) := s in
  let seen := seenMake seen (Id (deref st agv1)) in
  let seen := seenMake seen (Id (deref st agv2)) in
  if seenGet seen (Id (deref st agv1)) (Id (deref st agv2)) ||
     seenGet seen (Id (deref st agv2)) (Id (deref st agv1))
  then Some (st, collisions, seen)
  else if prefilter st then Some (st, collisions, seen)
  else
    match PredictCollisionWith fuel st agv1 agv2 timeRange timeStep
            collisionThreshold with
    | None => None
    | Some (st', found) =>
        let collisions :=
          match found with
          | Some collision => collisions ++ [collision]
          | None => collisions
          end in
        Some (st', collisions,
              seenSet seen (Id (deref st' agv1)) (Id (deref st' agv2)))
    end.

Section PredictiveFleet.

Variable sortSlice : (ptr -> ptr -> bool) -> list ptr -> list ptr.

(** The predictive fleet checks return the caller's slice as the call
    leaves it and, when every sampling loop ended within [fuel] rounds, the
    store and the predictions. *)
Definition predictCollisionsForFleetWithKDTree (fuel : nat) (st : Store)
    (agvs : list ptr) (timeRange timeStep collisionThreshold : float)
  : option (Store * list CollisionPrediction) * list ptr :=
  let '(root, agvs) := buildKDTree sortSlice st agvs 0 in
  let searchRadius :=
    calculateOptimalSearchRadius st agvs timeRange collisionThreshold in
  let res :=
    foldM
      (fun (s : FleetState) agv1 =>
         let neighbors := rangeSearch (fst (fst s)) root agv1 searchRadius [] in
         foldM
           (fun (s : FleetState) agv2 =>
              let st := fst (fst s) in
              if (Id (deref st agv2) <=? Id (deref st agv1))%Z then Some s
              else
                PredictPair fuel timeRange timeStep collisionThreshold
                  (fun st =>
                     searchRadius <?
                       Hypot (PoseX (APose (deref st agv1)) - PoseX (APose (deref st agv2)))
                             (PoseY (APose (deref st agv1)) - PoseY (APose (deref st agv2))))
                  agv1 agv2 s)
           neighbors s)
      agvs (st, [], ∅) in
  (option_map (fun s : FleetState => (fst (fst s), snd (fst s))) res, agvs).

Definition PredictCollisionsForFleet (fuel : nat) (st : Store)
    (agvs : list ptr) (timeRange timeStep collisionThreshold : float)
  : option (Store * list CollisionPrediction) * list ptr :=
  let '(root, agvs) := buildKDTree sortSlice st agvs 0 in
  let '(maxWidth, maxSpeed) :=
    fold_left (calculateOptimalSearchRadius_step st) agvs (0, 0) in
  let searchRadius := maxWidth + maxSpeed * timeRange + collisionThreshold in
  let res :=
    foldM
      (fun (s : FleetState) i =>
         let neighbors :=
           rangeSearch (fst (fst s)) root (nth i agvs 0%nat) searchRadius [] in
         foldM
           (fun (s : FleetState) j =>
              if (j <=? i)%nat then Some s
              else
                PredictPair fuel timeRange timeStep collisionThreshold
                  (fun _ => false) (nth i agvs 0%nat) (nth j agvs 0%nat) s)
           (seq 0 (length neighbors)) s)
      (seq 0 (length agvs)) (st, [], ∅) in
  (option_map (fun s : FleetState => (fst (fst s), snd (fst s))) res, agvs).

Definition PredictCollisionsForFleetOptimized (fuel : nat) (st : Store)
    (agvs : list ptr) (timeRange timeStep collisionThreshold : float)
    (useSpatialIndex : bool)
  : option (Store * list CollisionPrediction) * list ptr :=
  if useSpatialIndex && (10 <? length agvs)%nat then
    predictCollisionsForFleetWithKDTree fuel st agvs timeRange timeStep
      collisionThreshold
  else
    let res :=
      foldM
        (fun (s : FleetState) i =>
           foldM
             (fun (s : FleetState) j =>
                if (j <=? i)%nat then Some s
                else
                  PredictPair fuel timeRange timeStep collisionThreshold
                    (fun _ => false) (nth i agvs 0%nat) (nth j agvs 0%nat) s)
             (seq 0 (length agvs)) s)
        (seq 0 (length agvs)) (st, [], ∅) in
    (option_map (fun s : FleetState => (fst (fst s), snd (fst s))) res, agvs).

End PredictiveFleet.

End Tracker.

(** ** Vocabulary of the properties over binary64 *)

(** What [sort.Slice] asks of [less] on the slice it sorts: a strict weak
    ordering of its elements. *)
Definition strictWeakOrderOn (less : ptr -> ptr -> bool) (s : list ptr) : Prop :=
  (forall a b, In a s -> In b s -> less a b = true -> less b a = false) /\
  (forall a b c, In a s -> In b s -> In c s ->
                 less a b = false -> less b c = false -> less a c = false).

(** A number (not NaN) of sign bit [s], in the specification of binary64. *)
Definition signed (s : bool) (x : spec_float) : Prop :=
  match x with
  | S754_zero s' | S754_infinity s' | S754_finite s' _ _ => s' = s
  | S754_nan => False
  end.

(** [+0] or [-0]. *)
Definition isZero (x : float) : Prop := exists s, Prim2SF x = S754_zero s.

(** Neither NaN nor an infinity. *)
Definition isFinite (x : float) : Prop :=
  match Prim2SF x with
  | S754_zero _ | S754_finite _ _ _ => True
  | _ => False
  end.

(** The vehicles a tree refers to. *)
Fixpoint elements (node : KDNode) : list ptr :=
  match node with
  | KDNil => []
  | KDCons agv lhs rhs _ => agv :: elements lhs ++ elements rhs
  end.

(** The fleet of the scheduling example.  Vehicle A: at (0,0) heading east,
    2 m/s, width 1, path (0,0)-(10,0).  Vehicle B: at (10,0) heading west
    (math.Pi = 0x1.921fb54442d18p+1), 2 m/s, width 1, path (10,0)-(0,0). *)
Definition exampleA (id : Z) : AGV :=
  mkAGV id 1 (mkPose 0 0 0) 2 [mkPoint 0 0; mkPoint 10 0] [] false.

Definition exampleB (id : Z) : AGV :=
  mkAGV id 1 (mkPose 10 0 0x1.921fb54442d18p+1) 2
        [mkPoint 10 0; mkPoint 0 0] [] false.

(** A is the vehicle at reference 0 and B the one at reference 1. *)
Definition exampleFleet (idA idB : Z) : Store := [exampleA idA; exampleB idB].

(** The conflict of A and B: both reach (5,0) after 2.5 s. *)
Definition exampleEvent : CollisionEvent :=
  mkCollisionEvent 0%nat 1%nat (mkPoint 5 0) 2.5 2.5 0.

(** The tree [buildKDTree] makes of the two vehicles: B, the median on x,
    at the root and A to its left. *)
Definition exampleTree : KDNode :=
  KDCons 1%nat (KDCons 0%nat KDNil KDNil 1) KDNil 0.

(** A vehicle standing on the waypoint (10,0) of its path. *)
Definition waypointAGV : AGV :=
  mkAGV 2 1 (mkPose 10 0 0) 1
        [mkPoint 0 0; mkPoint 10 0; mkPoint 10 10] [] false.

(** A fleet of four with one NaN position: vehicle 2 is [waypointAGV] as
    [PredictPosition(0)] leaves it, but for its heading. *)
Definition nanFleet : Store :=
  [ mkAGV 1 1 (mkPose 0 0 0) 1 [] [] false;
    mkAGV 2 1 (mkPose nan nan 0) 1
          [mkPoint 0 0; mkPoint 10 0; mkPoint 10 10]
          [mkPoint 10 0; mkPoint 10 0; mkPoint 10 10] true;
    mkAGV 3 1 (mkPose (-5) 0 0) 1 [] [] false;
    mkAGV 4 1 (mkPose 10 0 0) 1 [] [] false ].

(** Two paths that meet at (2^53 - 1, 0), each vehicle at 2^-971 m/s: both
    arrive at time (2^53 - 1) * 2^971 = math.MaxFloat64. *)
Definition sentinelPathA : list Point :=
  [mkPoint 0 0; mkPoint 9007199254740991 0].

Definition sentinelPathB : list Point :=
  [mkPoint 9007199254740991 (-9007199254740991); mkPoint 9007199254740991 0].

End Binary64.

(* ================================================================= *)
(** * Properties *)

(** ** Arithmetic of the number model *)

Lemma Point_eq (p q : Point) : X p = X q -> Y p = Y q -> p = q.
Proof. destruct p, q; simpl; intros; subst; reflexivity. Qed.

(** Settles every [if decide (...)] of the goal whose test linear
    arithmetic decides. *)
Ltac rdecide :=
  repeat match goal with
         | |- context [decide ?P] =>
             lazymatch P with
             | context [decide _] => fail
             | _ => destruct (decide P);
                    [ try (exfalso; cbn [fst snd] in *; lra)
                    | try (exfalso; cbn [fst snd] in *; lra) ]
             end
         end.

(** Evaluates a point-valued expression of constants. *)
Ltac point_eq := apply Point_eq; simpl; lra.

Lemma Hypot_nonneg (p q : R) : 0 <= Hypot p q.
Proof. unfold Hypot. apply sqrt_pos. Qed.

Lemma Hypot_0_0 : Hypot 0 0 = 0.
Proof. unfold Hypot. replace (0 * 0 + 0 * 0) with 0 by ring. apply sqrt_0. Qed.

Lemma Hypot_0_r (p : R) : Hypot p 0 = Rabs p.
Proof.
  unfold Hypot. replace (p * p + 0 * 0) with (Rsqr p) by (unfold Rsqr; ring).
  apply sqrt_Rsqr_abs.
Qed.

Lemma Hypot_0_l (q : R) : Hypot 0 q = Rabs q.
Proof.
  unfold Hypot. replace (0 * 0 + q * q) with (Rsqr q) by (unfold Rsqr; ring).
  apply sqrt_Rsqr_abs.
Qed.

Lemma Hypot_ge_l (p q : R) : Rabs p <= Hypot p q.
Proof.
  unfold Hypot. rewrite <- sqrt_Rsqr_abs. apply sqrt_le_1_alt.
  unfold Rsqr. nra.
Qed.

Lemma Hypot_ge_r (p q : R) : Rabs q <= Hypot p q.
Proof.
  unfold Hypot. rewrite <- sqrt_Rsqr_abs. apply sqrt_le_1_alt.
  unfold Rsqr. nra.
Qed.

Lemma MaxFloat64_pos : 0 < MaxFloat64.
Proof. unfold MaxFloat64. apply IZR_lt. reflexivity. Qed.

Lemma MaxFloat64_big : 1000000 < MaxFloat64.
Proof. unfold MaxFloat64. apply IZR_lt. reflexivity. Qed.

Lemma getDistance_nonneg (p q : Point) : 0 <= getDistance p q.
Proof. apply Hypot_nonneg. Qed.

Lemma getDistance_same (p : Point) : getDistance p p = 0.
Proof.
  unfold getDistance. replace (X p - X p) with 0 by ring.
  replace (Y p - Y p) with 0 by ring. apply Hypot_0_0.
Qed.

Lemma sum_squares_0 (a b : R) : a * a + b * b = 0 -> a = 0 /\ b = 0.
Proof. intros H. split; nra. Qed.

(* ================================================================= *)
(** ** projectPointOnSegment *)

Lemma projectPointOnSegment_degenerate (pose : Pose) (p : Point) :
  projectPointOnSegment pose (mkSegment p p) = (p, 0).
Proof.
  unfold projectPointOnSegment; simpl.
  destruct (decide _) as [_ | H]; [reflexivity | exfalso; apply H; ring].
Qed.

(** The projection parameter in exact arithmetic: it lies in [0,1] for
    every segment and pose; a pose at the segment's start gives 0; a pose at
    the segment's end gives 1 when the two end points differ, and 0 when
    the segment is degenerate (the [segLen2 == 0] guard returns the start
    with [t = 0]). *)
Lemma projectPointOnSegment_parameter :
  forall (seg : Segment) (pose : Pose),
    let t := snd (projectPointOnSegment pose seg) in
    0 <= t <= 1 /\
    (PoseX pose = X (SegStart seg) /\ PoseY pose = Y (SegStart seg) -> t = 0) /\
    (PoseX pose = X (SegEnd seg) /\ PoseY pose = Y (SegEnd seg) ->
     (SegStart seg <> SegEnd seg -> t = 1) /\
     (SegStart seg = SegEnd seg -> t = 0)).
Proof.
  intros seg pose t. subst t. unfold projectPointOnSegment, dot.
  set (vx := X (SegEnd seg) - X (SegStart seg)).
  set (vy := Y (SegEnd seg) - Y (SegStart seg)).
  cbv zeta.
  destruct (decide (vx * vx + vy * vy = 0)) as [Hz | Hnz]; simpl.
  - split; [lra |]. split; [reflexivity |].
    intros _. split; [| reflexivity].
    intros Hne. exfalso. apply Hne.
    apply sum_squares_0 in Hz. destruct Hz as [Hx Hy]. subst vx vy.
    apply Point_eq; lra.
  - assert (Hpos : 0 < vx * vx + vy * vy) by nra.
    split; [| split].
    + rdecide; lra.
    + intros [-> ->].
      replace ((X (SegStart seg) - X (SegStart seg)) * vx +
               (Y (SegStart seg) - Y (SegStart seg)) * vy) with 0 by ring.
      replace (0 / (vx * vx + vy * vy)) with 0 by (field; lra).
      rdecide; lra.
    + intros [-> ->]. fold vx vy.
      replace ((vx * vx + vy * vy) / (vx * vx + vy * vy)) with 1 by (field; lra).
      split.
      * intros _. rdecide; lra.
      * intros Heq. exfalso. apply Hnz. subst vx vy. rewrite Heq. ring.
Qed.

(** A pose at the end point of the zero-length segment (2,3)-(2,3) gets
    [t = 0], not 1. *)
Lemma projectPointOnSegment_degenerate_end :
  snd (projectPointOnSegment (mkPose 2 3 0)
         (mkSegment (mkPoint 2 3) (mkPoint 2 3))) <> 1.
Proof. rewrite projectPointOnSegment_degenerate. simpl. lra. Qed.

(* ================================================================= *)
(** ** ResolveCollision *)

(** C5: [ResolveCollision] gives vehicle 1 "GO" with wait 0 and vehicle 2
    "WAIT" with wait [(Time1 + safeGap) - Time2] when [Time1 <= Time2], and
    otherwise vehicle 2 "GO" with wait 0 and vehicle 1 "WAIT" with wait
    [(Time2 + safeGap) - Time1]; on an exact tie vehicle 1 proceeds; and the
    wait can be negative. *)
Theorem C5_ResolveCollision :
  (forall (e : CollisionEvent) (safeGap : R),
      (Time1 e <= Time2 e ->
       ResolveCollision e safeGap =
         (mkScheduleAction (AGV1 e) "GO" 0 e,
          mkScheduleAction (AGV2 e) "WAIT" ((Time1 e + safeGap) - Time2 e) e)) /\
      (~ Time1 e <= Time2 e ->
       ResolveCollision e safeGap =
         (mkScheduleAction (AGV2 e) "GO" 0 e,
          mkScheduleAction (AGV1 e) "WAIT" ((Time2 e + safeGap) - Time1 e) e)) /\
      (Time1 e = Time2 e ->
       SAGV (fst (ResolveCollision e safeGap)) = AGV1 e /\
       Action (fst (ResolveCollision e safeGap)) = "GO"%string)) /\
  (exists (e : CollisionEvent) (safeGap : R),
      0 < safeGap /\ WaitTime (snd (ResolveCollision e safeGap)) < 0).
Proof.
  split.
  - intros e safeGap. unfold ResolveCollision.
    destruct (decide (Time1 e <= Time2 e)) as [Hle | Hgt].
    + repeat split; intros; try reflexivity; contradiction.
    + repeat split; intros; try reflexivity; try contradiction;
        exfalso; apply Hgt; lra.
  - exists (mkCollisionEvent zeroAGV zeroAGV zeroPoint 0 10 10), 1.
    split; [lra |]. unfold ResolveCollision; simpl.
    destruct (decide (0 <= 10)); simpl; lra.
Qed.

(* ================================================================= *)
(** ** segmentDistance *)

Lemma segmentDistance_d_nonneg (s1 s2 : Segment) (c : Point) :
  0 <= Rmin (Rmin (getDistance (SegStart s1) c) (getDistance (SegEnd s1) c))
            (Rmin (getDistance (SegStart s2) c) (getDistance (SegEnd s2) c)).
Proof. repeat apply Rmin_glb; apply getDistance_nonneg. Qed.

(** Once [minD] is 0 no later candidate replaces [best]. *)
Lemma segmentDistance_step_0 (s1 s2 : Segment) (best c : Point) :
  segmentDistance_step s1 s2 (0, best) c = (0, best).
Proof.
  unfold segmentDistance_step.
  pose proof (segmentDistance_d_nonneg s1 s2 c).
  destruct (decide _); [exfalso; lra | reflexivity].
Qed.

(** A candidate that is an end point of either segment is at distance 0
    from that end point, so the loop scores it 0. *)
Lemma segmentDistance_step_endpoint (s1 s2 : Segment) (minD : R) (best c : Point) :
  0 < minD ->
  c = SegStart s1 \/ c = SegEnd s1 \/ c = SegStart s2 \/ c = SegEnd s2 ->
  segmentDistance_step s1 s2 (minD, best) c = (0, c).
Proof.
  intros Hpos Hc. unfold segmentDistance_step.
  set (d := Rmin _ _).
  assert (Hd : d = 0).
  { apply Rle_antisym; [| apply segmentDistance_d_nonneg].
    subst d.
    destruct Hc as [-> | [-> | [-> | ->]]];
      [ eapply Rle_trans; [apply Rmin_l |]; eapply Rle_trans; [apply Rmin_l |]
      | eapply Rle_trans; [apply Rmin_l |]; eapply Rle_trans; [apply Rmin_r |]
      | eapply Rle_trans; [apply Rmin_r |]; eapply Rle_trans; [apply Rmin_l |]
      | eapply Rle_trans; [apply Rmin_r |]; eapply Rle_trans; [apply Rmin_r |] ];
      rewrite getDistance_same; lra. }
  rewrite Hd. destruct (decide _); [reflexivity | exfalso; lra].
Qed.

(** Whenever the first candidate (the projection of [s1.Start] on [s2]) is
    an end point of [s2], [segmentDistance] answers 0. *)
Lemma segmentDistance_first_candidate_endpoint (s1 s2 : Segment) :
  closestPointOnSegment (SegStart s1) s2 = SegStart s2 ->
  segmentDistance s1 s2 = (0, SegStart s2).
Proof.
  intros Hc. unfold segmentDistance. cbv zeta. cbn [fold_left]. rewrite Hc.
  rewrite segmentDistance_step_endpoint; [| apply MaxFloat64_pos | tauto].
  rewrite !segmentDistance_step_0. reflexivity.
Qed.

(** C2 at the failing input: for the parallel segments (0,0)-(1,0) and
    (0,5)-(1,5), five apart, [segmentDistance] returns distance 0 with
    contact point (0,5), where the least end-point-to-projection distance
    of the specification is 5. *)
Theorem C2_segmentDistance_failing_input :
  let s1 := mkSegment (mkPoint 0 0) (mkPoint 1 0) in
  let s2 := mkSegment (mkPoint 0 5) (mkPoint 1 5) in
  segmentDistance s1 s2 = (0, mkPoint 0 5) /\
  segmentDistance_spec s1 s2 = (5, mkPoint 0 5).
Proof.
  intros s1 s2.
  assert (H1 : closestPointOnSegment (mkPoint 0 0) s2 = mkPoint 0 5).
  { unfold closestPointOnSegment; simpl. rdecide; point_eq. }
  assert (H2 : closestPointOnSegment (mkPoint 1 0) s2 = mkPoint 1 5).
  { unfold closestPointOnSegment; simpl. rdecide; point_eq. }
  assert (H3 : closestPointOnSegment (mkPoint 0 5) s1 = mkPoint 0 0).
  { unfold closestPointOnSegment; simpl. rdecide; point_eq. }
  assert (H4 : closestPointOnSegment (mkPoint 1 5) s1 = mkPoint 1 0).
  { unfold closestPointOnSegment; simpl. rdecide; point_eq. }
  split.
  - apply (segmentDistance_first_candidate_endpoint s1 s2). exact H1.
  - unfold segmentDistance_spec. simpl. rewrite H1, H2, H3, H4.
    unfold getDistance; simpl.
    replace (0 - 0) with 0 by ring. replace (1 - 1) with 0 by ring.
    rewrite !Hypot_0_l.
    replace (Rabs (5 - 0)) with 5 by (rewrite Rabs_right; lra).
    replace (Rabs (0 - 5)) with 5
      by (rewrite Rabs_left; lra).
    rdecide. reflexivity.
Qed.

(* ================================================================= *)
(** ** earliestCollision *)

(** The loop of [earliestCollision]: [minTime] only decreases and bounds
    the earlier arrival time of every collision within the tolerance; either
    nothing was taken, or [best] is one of the collisions, within the
    tolerance, and [minTime] is its earlier arrival time. *)
Lemma earliestCollision_loop (tol : R) (all : list Collision) :
  forall (m : R) (b : Collision) (f : bool),
    let '(m', b', f') := fold_left (earliestCollision_step tol) all (m, b, f) in
    (forall c, In c all -> TimeDiff c <= tol -> m' <= Rmin (TimeA c) (TimeB c)) /\
    ((m' = m /\ b' = b /\ f' = f) \/
     (m' < m /\ f' = true /\ In b' all /\ TimeDiff b' <= tol /\
      Rmin (TimeA b') (TimeB b') = m')).
Proof.
  induction all as [| c all IH]; intros m b f; cbn [fold_left].
  - split; [intros ? [] | left; auto].
  - assert (Hstep : earliestCollision_step tol (m, b, f) c =
                    if decide (TimeDiff c <= tol) then
                      if decide (Rmin (TimeA c) (TimeB c) < m)
                      then (Rmin (TimeA c) (TimeB c), c, true) else (m, b, f)
                    else (m, b, f)) by reflexivity.
    rewrite Hstep. clear Hstep.
    destruct (decide (TimeDiff c <= tol)) as [Hq | Hq].
    + destruct (decide (Rmin (TimeA c) (TimeB c) < m)) as [Hlt | Hge].
      * specialize (IH (Rmin (TimeA c) (TimeB c)) c true).
        destruct (fold_left _ all _) as [[m' b'] f'].
        destruct IH as [Hall Hcase]. split.
        -- intros c' [<- | Hin] Hq'; [| auto].
           destruct Hcase as [(-> & _ & _) | (Hm & _)]; lra.
        -- right. destruct Hcase as [(-> & -> & ->) | (Hm & -> & Hin & Hq' & Hk)].
           ++ repeat split; simpl; auto.
           ++ repeat split; simpl; auto. lra.
      * specialize (IH m b f).
        destruct (fold_left _ all _) as [[m' b'] f'].
        destruct IH as [Hall Hcase]. split.
        -- intros c' [<- | Hin] Hq'; [| auto].
           destruct Hcase as [(-> & _ & _) | (Hm & _)]; lra.
        -- destruct Hcase as [? | (Hm & -> & Hin & Hq' & Hk)]; [left; auto |].
           right. repeat split; simpl; auto.
    + specialize (IH m b f).
      destruct (fold_left _ all _) as [[m' b'] f'].
      destruct IH as [Hall Hcase]. split.
      * intros c' [<- | Hin] Hq'; [contradiction | auto].
      * destruct Hcase as [? | (Hm & -> & Hin & Hq' & Hk)]; [left; auto |].
        right. repeat split; simpl; auto.
Qed.

(** What the loop of [earliestCollision] computes, in exact arithmetic: it
    reports a collision exactly when [findAllCollisions] yields one whose
    arrival-time difference is within the tolerance and whose earlier
    arrival time is below the initial [minTime], [math.MaxFloat64]; the
    collision it reports then is one of those within the tolerance and has
    the least [min(TimeA, TimeB)] among them. *)
Lemma earliestCollision_spec :
  forall (pathA pathB : list Point) (vA vB width tol : R),
    let all := findAllCollisions pathA pathB vA vB width in
    let found := fst (earliestCollision pathA pathB vA vB width tol) in
    let best := snd (earliestCollision pathA pathB vA vB width tol) in
    (found = true <->
     exists c, In c all /\ TimeDiff c <= tol /\
               Rmin (TimeA c) (TimeB c) < MaxFloat64) /\
    (found = true ->
     In best all /\ TimeDiff best <= tol /\
     forall c, In c all -> TimeDiff c <= tol ->
               Rmin (TimeA best) (TimeB best) <= Rmin (TimeA c) (TimeB c)).
Proof.
  intros pathA pathB vA vB width tol all found best.
  subst found best. unfold earliestCollision. fold all.
  destruct (length all =? 0)%nat eqn:Hlen.
  - apply Nat.eqb_eq in Hlen. destruct all; [| discriminate]. simpl.
    split; [split |]; try discriminate. intros (c & [] & _).
  - clear Hlen.
    pose proof (earliestCollision_loop tol all MaxFloat64 zeroCollision false) as H.
    destruct (fold_left _ all _) as [[m' b'] f']. simpl.
    destruct H as [Hall Hcase]. split; [split |].
    + intros ->. destruct Hcase as [(_ & _ & Hf) | (Hm & _ & Hin & Hq & Hk)];
        [discriminate |].
      exists b'. repeat split; auto. lra.
    + intros (c & Hin & Hq & Hlt).
      destruct Hcase as [(-> & _ & _) | (_ & -> & _)]; [| reflexivity].
      specialize (Hall c Hin Hq). lra.
    + intros ->. destruct Hcase as [(_ & _ & Hf) | (Hm & _ & Hin & Hq & Hk)];
        [discriminate |].
      repeat split; auto. intros c Hc Hqc. rewrite Hk. auto.
Qed.

(** The paths (0,0)-(x,0) and (x,-x)-(x,0) meet at (x,0), at path distance
    [x] on both. *)
Lemma findAllCollisions_corner (x v : R) :
  0 < x ->
  findAllCollisions [mkPoint 0 0; mkPoint x 0] [mkPoint x (- x); mkPoint x 0]
                    v v 0 =
  [mkCollision (mkPoint x 0) x x (x / v) (x / v) (Rabs (x / v - x / v))].
Proof.
  intros Hx.
  assert (Hint : segmentIntersect (mkSegment (mkPoint 0 0) (mkPoint x 0))
                   (mkSegment (mkPoint x (- x)) (mkPoint x 0)) 0
                 = (true, mkPoint x 0)).
  { unfold segmentIntersect, cross; simpl.
    destruct (decide _) as [Hd | Hd]; [exfalso; nra |].
    replace (((x - 0) * (0 - - x) - (- x - 0) * (x - x)) /
             ((x - 0) * (0 - - x) - (0 - 0) * (x - x))) with 1 by (field; lra).
    replace (((x - 0) * (0 - 0) - (- x - 0) * (x - 0)) /
             ((x - 0) * (0 - - x) - (0 - 0) * (x - x))) with 1 by (field; lra).
    destruct (decide _) as [_ | Hn]; [| exfalso; apply Hn; lra].
    f_equal. apply Point_eq; simpl; ring. }
  assert (HdA : pathDistanceToPoint [mkPoint 0 0; mkPoint x 0] (mkPoint x 0) = x).
  { unfold pathDistanceToPoint; simpl.
    destruct (decide _) as [_ | Hn].
    - unfold getDistance; simpl. replace (0 - 0) with 0 by ring.
      rewrite Hypot_0_r, Rabs_right; lra.
    - exfalso. apply Hn. unfold onSegment, cross; simpl.
      rewrite Rmin_left, Rmax_right by lra.
      rewrite Rmin_left, Rmax_right by lra. repeat split; lra. }
  assert (HdB : pathDistanceToPoint [mkPoint x (- x); mkPoint x 0] (mkPoint x 0) = x).
  { unfold pathDistanceToPoint; simpl.
    destruct (decide _) as [_ | Hn].
    - unfold getDistance; simpl. replace (x - x) with 0 by ring.
      rewrite Hypot_0_l, Rabs_right; lra.
    - exfalso. apply Hn. unfold onSegment, cross; simpl.
      rewrite (Rmin_left x x), (Rmax_right x x) by lra.
      rewrite Rmin_left, Rmax_right by lra. repeat split; lra. }
  unfold findAllCollisions; simpl. unfold at_; simpl.
  rewrite Hint, HdA, HdB. reflexivity.
Qed.

Lemma MaxFloat64_quotient :
  9007199254740991 / / IZR (2 ^ 971) = MaxFloat64.
Proof.
  unfold Rdiv, MaxFloat64. rewrite Rinv_inv, <- mult_IZR.
  apply f_equal. reflexivity.
Qed.

(** The start value of [minTime] hides a collision whose earlier arrival
    time is not below it: the paths (0,0)-(x,0) and (x,-x)-(x,0) with
    x = 2^53 - 1, both driven at speed 2^-971, meet at (x,0) at the same
    time x / 2^-971 = MaxFloat64, so the arrival-time difference is 0, yet
    [earliestCollision] reports nothing. *)
Lemma earliestCollision_sentinel :
  let x := 9007199254740991 in
  let v := / IZR (2 ^ 971) in
  let pathA := [mkPoint 0 0; mkPoint x 0] in
  let pathB := [mkPoint x (- x); mkPoint x 0] in
  (exists c, In c (findAllCollisions pathA pathB v v 0) /\ TimeDiff c <= 0) /\
  fst (earliestCollision pathA pathB v v 0 0) = false.
Proof.
  intros x v pathA pathB. subst pathA pathB.
  assert (Hx : 0 < x) by (subst x; lra).
  assert (Hq : x / v = MaxFloat64) by apply MaxFloat64_quotient.
  unfold earliestCollision.
  rewrite (findAllCollisions_corner x v Hx).
  assert (Hd : Rabs (x / v - x / v) = 0).
  { replace (x / v - x / v) with 0 by ring. apply Rabs_R0. }
  split.
  - eexists. split; [left; reflexivity |]. simpl. rewrite Hd. lra.
  - cbn [length Nat.eqb fold_left]. unfold earliestCollision_step. cbn [TimeDiff TimeA TimeB].
    rewrite Hd, Hq.
    destruct (decide (0 <= 0)) as [_ | Hn]; [| exfalso; lra].
    rewrite Rmin_left by lra.
    destruct (decide (MaxFloat64 < MaxFloat64)) as [Hlt | _]; [exfalso; lra |].
    reflexivity.
Qed.

(* ================================================================= *)
(** ** GenerateSubPath *)

(** The projection loop leaves [segIdx] at its initial value or at one of
    the indices it visited. *)
Lemma GenerateSubPath_loop_idx (pose : Pose) (basePath : list Point)
    (idx : list nat) :
  forall (m : R) (k : nat) (p : Point),
    let k' := snd (fst (fold_left (GenerateSubPath_step pose basePath) idx (m, k, p))) in
    k' = k \/ In k' idx.
Proof.
  induction idx as [| i idx IH]; intros m k p; cbn [fold_left].
  - left. reflexivity.
  - assert (Hstep : GenerateSubPath_step pose basePath (m, k, p) i = (m, k, p) \/
                    exists m' p', GenerateSubPath_step pose basePath (m, k, p) i
                                  = (m', i, p')).
    { unfold GenerateSubPath_step. destruct (decide _); eauto. }
    destruct Hstep as [-> | (m' & p' & ->)].
    + destruct (IH m k p) as [H | H]; [left | right; right]; exact H.
    + destruct (IH m' i p') as [H | H]; right; [left; symmetry | right]; exact H.
Qed.

Lemma GenerateSubPath_frame (agv : AGV) :
  let agv' := fst (GenerateSubPath agv) in
  Id agv' = Id agv /\ Width agv' = Width agv /\ APose agv' = APose agv /\
  Speed agv' = Speed agv /\ Path agv' = Path agv /\ InitDone agv' = true.
Proof.
  unfold GenerateSubPath.
  destruct (negb (InitDone agv) || (length (SubPath agv) <? 2)%nat) eqn:Hreb.
  - destruct (length (Path agv) <? 2)%nat; [simpl; tauto |].
    destruct (fold_left _ _ _) as [[m k] p]. simpl. tauto.
  - apply orb_false_elim in Hreb. destruct Hreb as [Hinit _].
    apply negb_false_iff in Hinit.
    destruct (length (SubPath agv) <? 2)%nat; [simpl; tauto |].
    destruct (fold_left _ _ _) as [[m k] p]. simpl. tauto.
Qed.

(** What [GenerateSubPath] returns and caches, by the size of the basis. *)
Lemma GenerateSubPath_length (agv : AGV) :
  let agv' := fst (GenerateSubPath agv) in
  let sub := snd (GenerateSubPath agv) in
  ((length (basePathOf agv) < 2)%nat ->
   sub = basePathOf agv /\ SubPath agv' = SubPath agv) /\
  ((2 <= length (basePathOf agv))%nat ->
   (2 <= length sub <= length (basePathOf agv))%nat /\ SubPath agv' = sub).
Proof.
  unfold GenerateSubPath, basePathOf.
  set (rebuild := negb (InitDone agv) || (length (SubPath agv) <? 2)%nat).
  set (basePath := if rebuild then Path agv else SubPath agv).
  set (agv0 := if rebuild then set_InitDone true agv else agv).
  assert (Hsub0 : SubPath agv0 = SubPath agv) by (subst agv0; destruct rebuild; reflexivity).
  cbv zeta.
  destruct (length basePath <? 2)%nat eqn:Hn.
  - apply Nat.ltb_lt in Hn. simpl. split; [auto | lia].
  - apply Nat.ltb_ge in Hn. split; [lia | intros _].
    pose proof (GenerateSubPath_loop_idx (APose agv0) basePath
                  (seq 0 (length basePath - 1)) MaxFloat64 0%nat zeroPoint) as Hk.
    destruct (fold_left _ _ _) as [[m k] p]. simpl in Hk. simpl.
    assert (Hlt : (k < length basePath - 1)%nat).
    { destruct Hk as [-> | Hin]; [lia |]. apply in_seq in Hin. lia. }
    rewrite length_map, length_seq. split; [lia | reflexivity].
Qed.

(** When either the vehicle is initialised, or its path has at least 2
    points, or fewer than 2 points are cached, a second call to
    [GenerateSubPath] with the pose unchanged gives a sub-path with at most
    as many points as the first. *)
Lemma GenerateSubPath_monotone (agv : AGV) :
  InitDone agv = true \/ (2 <= length (Path agv))%nat \/
    (length (SubPath agv) < 2)%nat ->
  let agv1 := fst (GenerateSubPath agv) in
  let sub1 := snd (GenerateSubPath agv) in
  let sub2 := snd (GenerateSubPath agv1) in
  APose agv1 = APose agv /\ (length sub2 <= length sub1)%nat.
Proof.
  intros Hok agv1 sub1 sub2.
  pose proof (GenerateSubPath_frame agv) as (_ & _ & Hpose & _ & Hpath & Hinit).
  pose proof (GenerateSubPath_length agv) as [Hshort Hlong].
  pose proof (GenerateSubPath_length agv1) as [Hshort1 Hlong1].
  fold agv1 in Hpose, Hpath, Hinit, Hshort, Hlong. fold sub1 in Hshort, Hlong.
  fold sub2 in Hshort1, Hlong1.
  split; [exact Hpose |].
  destruct (le_lt_dec 2 (length (basePathOf agv))) as [Hge | Hlt].
  - destruct (Hlong Hge) as [Hlen Hcache].
    assert (Hbase1 : basePathOf agv1 = sub1).
    { unfold basePathOf. rewrite Hinit, Hcache. simpl.
      destruct (length sub1 <? 2)%nat eqn:E; [| reflexivity].
      apply Nat.ltb_lt in E. lia. }
    rewrite Hbase1 in Hlong1. destruct (Hlong1 ltac:(lia)) as [? _]. lia.
  - destruct (Hshort Hlt) as [Hsub Hcache].
    assert (Hbase1 : basePathOf agv1 = basePathOf agv).
    { unfold basePathOf in *. rewrite Hinit, Hcache, Hpath. simpl.
      destruct (InitDone agv) eqn:Ei; simpl in *; [reflexivity |].
      destruct (length (SubPath agv) <? 2)%nat eqn:E; [reflexivity |].
      apply Nat.ltb_ge in E. destruct Hok as [? | [? | ?]]; [discriminate | lia | lia]. }
    rewrite Hbase1 in Hshort1. destruct (Hshort1 Hlt) as [-> _]. rewrite Hsub. lia.
Qed.

(** The cache of a vehicle holds points only once the vehicle is
    initialised. *)
Lemma Reachable_cache (agv : AGV) :
  Reachable agv -> InitDone agv = true \/ SubPath agv = [].
Proof.
  induction 1 as [id width pose speed path | agv _ _ | agv dt _ _
                 | agv id width pose speed path _ IH].
  - right. reflexivity.
  - left. apply (GenerateSubPath_frame agv).
  - left. pose proof (GenerateSubPath_frame agv) as (_ & _ & _ & _ & _ & Hinit).
    unfold PredictPosition. destruct (GenerateSubPath agv) as [agv0 newPath].
    cbn [fst] in Hinit. destruct (length newPath <? 2)%nat; [exact Hinit |].
    cbv zeta. destruct (decide _); exact Hinit.
  - exact IH.
Qed.

(** C9: for every vehicle the package's callers can have in hand (declared
    with an empty cache, then taken through any calls of [GenerateSubPath]
    and [PredictPosition] and any updates of its id, width, pose, speed and
    path), calling [GenerateSubPath] twice leaves the pose unchanged between
    the two calls and the second sub-path has at most as many points as the
    first. *)
Theorem C9_GenerateSubPath_monotone :
  forall agv : AGV,
    Reachable agv ->
    let agv1 := fst (GenerateSubPath agv) in
    let sub1 := snd (GenerateSubPath agv) in
    let sub2 := snd (GenerateSubPath agv1) in
    APose agv1 = APose agv /\ (length sub2 <= length sub1)%nat.
Proof.
  intros agv Hreach. apply GenerateSubPath_monotone.
  destruct (Reachable_cache agv Hreach) as [Hinit | Hcache].
  - left. exact Hinit.
  - right; right. rewrite Hcache. simpl. lia.
Qed.

Lemma C9_GenerateSubPath_monotone_witness :
  let agv :=
    mkAGV 1 1 (mkPose 4 0 0) 2 [mkPoint 0 0; mkPoint 10 0]
      (SubPath (fst (GenerateSubPath (exampleA 1))))
      (InitDone (fst (GenerateSubPath (exampleA 1)))) in
  APose (fst (GenerateSubPath agv)) = APose agv /\
  (length (snd (GenerateSubPath (fst (GenerateSubPath agv)))) <=
   length (snd (GenerateSubPath agv)))%nat.
Proof.
  intros agv. apply (C9_GenerateSubPath_monotone agv).
  unfold agv. apply Reachable_update, Reachable_GenerateSubPath.
  unfold exampleA. apply Reachable_new.
Defined.

(** Outside those vehicles the bound can fail: a vehicle written by hand
    with [InitDone] false, no path and two cached points gets the empty path
    from the first call, and the second call rebases on the cache and
    returns two points. *)
Lemma GenerateSubPath_hand_written_cache :
  let agv :=
    mkAGV 1 1 (mkPose 0 0 0) 1 [] [mkPoint 0 0; mkPoint 1 0] false in
  let agv1 := fst (GenerateSubPath agv) in
  APose agv1 = APose agv /\
  (length (snd (GenerateSubPath agv)) < length (snd (GenerateSubPath agv1)))%nat.
Proof.
  intros agv agv1.
  assert (H1 : GenerateSubPath agv = (set_InitDone true agv, [])) by reflexivity.
  subst agv1. rewrite H1. cbn [fst snd]. split; [reflexivity |].
  pose proof (GenerateSubPath_length (set_InitDone true agv)) as [_ Hlong].
  assert (Hb : basePathOf (set_InitDone true agv) = [mkPoint 0 0; mkPoint 1 0])
    by reflexivity.
  rewrite Hb in Hlong. destruct (Hlong ltac:(simpl; lia)) as [Hlen _].
  simpl length at 1. lia.
Qed.

(* ================================================================= *)
(** ** PredictPosition *)




(* ================================================================= *)
(** ** checkPathIntersection *)

(** C7 at the failing input: for pathA = (0,0)-(10,0) and
    pathB = (0,3)-(1,3)-(1,-1), width 1, the candidates are the near-miss
    contact (0,3) that [segmentDistance] reports for the first pair and the
    intersection (1,0) of the second pair; (1,0) is the nearer to pathA's
    first point, and [checkPathIntersection] returns (0,3). *)
Theorem C7_checkPathIntersection_failing_input :
  let pathA := [mkPoint 0 0; mkPoint 10 0] in
  let pathB := [mkPoint 0 3; mkPoint 1 3; mkPoint 1 (-1)] in
  let s1 := mkSegment (mkPoint 0 0) (mkPoint 10 0) in
  segmentIntersect s1 (mkSegment (mkPoint 0 3) (mkPoint 1 3)) 1 = (false, zeroPoint) /\
  segmentDistance s1 (mkSegment (mkPoint 0 3) (mkPoint 1 3)) = (0, mkPoint 0 3) /\
  segmentIntersect s1 (mkSegment (mkPoint 1 3) (mkPoint 1 (-1))) 1 = (true, mkPoint 1 0) /\
  getDistance (at_ pathA 0) (mkPoint 1 0) < getDistance (at_ pathA 0) (mkPoint 0 3) /\
  checkPathIntersection pathA pathB 1 = (true, mkPoint 0 3).
Proof.
  intros pathA pathB s1.
  assert (Hi1 : segmentIntersect s1 (mkSegment (mkPoint 0 3) (mkPoint 1 3)) 1
                = (false, zeroPoint)).
  { unfold segmentIntersect, cross; simpl. rdecide; reflexivity. }
  assert (Hd1 : segmentDistance s1 (mkSegment (mkPoint 0 3) (mkPoint 1 3))
                = (0, mkPoint 0 3)).
  { apply (segmentDistance_first_candidate_endpoint s1
             (mkSegment (mkPoint 0 3) (mkPoint 1 3))).
    unfold closestPointOnSegment; simpl. rdecide; point_eq. }
  assert (Hi2 : segmentIntersect s1 (mkSegment (mkPoint 1 3) (mkPoint 1 (-1))) 1
                = (true, mkPoint 1 0)).
  { unfold segmentIntersect, cross; simpl.
    destruct (decide _) as [Hz | _]; [exfalso; lra |].
    destruct (decide _) as [_ | Hn]; [| exfalso; apply Hn; lra].
    f_equal. point_eq. }
  assert (Hg1 : getDistance (mkPoint 0 0) (mkPoint 1 0) = 1).
  { unfold getDistance; simpl. replace (0 - 0) with 0 by ring.
    rewrite Hypot_0_r, Rabs_right; lra. }
  assert (Hg2 : getDistance (mkPoint 0 0) (mkPoint 0 3) = 3).
  { unfold getDistance; simpl. replace (0 - 0) with 0 by ring.
    rewrite Hypot_0_l, Rabs_right; lra. }
  repeat split; try assumption.
  - change (at_ pathA 0) with (mkPoint 0 0). rewrite Hg1, Hg2. lra.
  - unfold checkPathIntersection. subst pathA pathB.
    cbn [length Nat.sub seq fold_left Nat.add].
    change (at_ [mkPoint 0 0; mkPoint 10 0] 0) with (mkPoint 0 0).
    change (at_ [mkPoint 0 0; mkPoint 10 0] 1) with (mkPoint 10 0).
    change (at_ [mkPoint 0 3; mkPoint 1 3; mkPoint 1 (-1)] 0) with (mkPoint 0 3).
    change (at_ [mkPoint 0 3; mkPoint 1 3; mkPoint 1 (-1)] 1) with (mkPoint 1 3).
    change (at_ [mkPoint 0 3; mkPoint 1 3; mkPoint 1 (-1)] 2) with (mkPoint 1 (-1)).
    fold s1. unfold checkPathIntersection_body.
    rewrite Hi1, Hd1, Hi2.
    change (at_ [mkPoint 0 0; mkPoint 10 0] 0) with (mkPoint 0 0).
    rewrite Hg1.
    pose proof MaxFloat64_big.
    rdecide. reflexivity.
Qed.

(* ================================================================= *)
(** ** The KD-tree *)

Lemma kdLess_strictWeakOrder (axis : Z) : strictWeakOrder (kdLess axis).
Proof.
  unfold strictWeakOrder, kdLess. split.
  - intros a b. destruct (decide (axis = 0%Z));
      rewrite bool_decide_eq_true, bool_decide_eq_false; lra.
  - intros a b c. destruct (decide (axis = 0%Z));
      rewrite !bool_decide_eq_false; lra.
Qed.

Lemma kdLess_false (depth : Z) (a b : AGV) :
  kdLess (Z.rem depth 2) b a = false <-> splitCoord depth a <= splitCoord depth b.
Proof.
  unfold kdLess, splitCoord. destruct (decide (Z.rem depth 2 = 0%Z));
    rewrite bool_decide_eq_false; lra.
Qed.

Lemma StronglySorted_middle {A : Type} (R : A -> A -> Prop) (l1 l2 : list A) (x : A) :
  StronglySorted R (l1 ++ x :: l2) ->
  (forall a, In a l1 -> R a x) /\ (forall b, In b l2 -> R x b).
Proof.
  induction l1 as [| a l1 IH]; simpl; intros Hs.
  - apply StronglySorted_inv in Hs. destruct Hs as [_ Hx].
    split; [intros ? [] | apply List.Forall_forall; exact Hx].
  - apply StronglySorted_inv in Hs. destruct Hs as [Hs Ha].
    destruct (IH Hs) as [H1 H2]. split; [| exact H2].
    intros a' [<- | Hin]; [| auto].
    rewrite List.Forall_forall in Ha. apply Ha. apply in_elt.
Qed.

Lemma distance_ge_splitCoord (depth : Z) (a b : AGV) :
  Rabs (splitCoord depth a - splitCoord depth b) <= distance a b.
Proof.
  unfold splitCoord, distance. destruct (decide _).
  - apply Hypot_ge_l.
  - apply Hypot_ge_r.
Qed.

(** [rangeSearch] only appends to [results]. *)
Lemma rangeSearch_app (node : KDNode) (target : AGV) (r : R) :
  forall results,
    rangeSearch node target r results = results ++ rangeSearch node target r [].
Proof.
  induction node as [| agv lhs IHl rhs IHr depth]; intros results; simpl.
  - rewrite app_nil_r. reflexivity.
  - set (diff := if decide (Z.rem depth 2 = 0%Z) then _ else _).
    destruct (decide (Id agv <> Id target /\ distance agv target <= r));
      destruct (decide (diff <= 0)); destruct (decide (Rabs diff <= r));
      repeat match goal with
             | |- context [rangeSearch lhs target r ?acc] =>
                 lazymatch acc with
                 | [] => fail
                 | _ => rewrite (IHl acc)
                 end
             | |- context [rangeSearch rhs target r ?acc] =>
                 lazymatch acc with
                 | [] => fail
                 | _ => rewrite (IHr acc)
                 end
             end;
      simpl; rewrite <- ?app_assoc; simpl; reflexivity.
Qed.

(** One node of [rangeSearch], started on empty [results]. *)
Lemma rangeSearch_cons (agv : AGV) (lhs rhs : KDNode) (depth : Z)
    (target : AGV) (r : R) :
  rangeSearch (KDCons agv lhs rhs depth) target r [] =
    (if decide (Id agv <> Id target /\ distance agv target <= r)
     then [agv] else []) ++
    (if decide (splitCoord depth target - splitCoord depth agv <= 0) then
       rangeSearch lhs target r [] ++
       (if decide (Rabs (splitCoord depth target - splitCoord depth agv) <= r)
        then rangeSearch rhs target r [] else [])
     else
       rangeSearch rhs target r [] ++
       (if decide (Rabs (splitCoord depth target - splitCoord depth agv) <= r)
        then rangeSearch lhs target r [] else [])).
Proof.
  cbn [rangeSearch]. unfold splitCoord.
  destruct (decide (Z.rem depth 2 = 0%Z));
    (destruct (decide (Id agv <> Id target /\ distance agv target <= r));
     destruct (decide (_ <= 0)); destruct (decide (Rabs _ <= r));
     cbn [app];
     rewrite ?(rangeSearch_app lhs target r (_ :: _)),
             ?(rangeSearch_app rhs target r (_ :: _));
     rewrite ?(rangeSearch_app rhs target r (_ ++ _)),
             ?(rangeSearch_app lhs target r (_ ++ _));
     try rewrite (rangeSearch_app rhs target r (rangeSearch lhs target r []));
     try rewrite (rangeSearch_app lhs target r (rangeSearch rhs target r []));
     rewrite ?app_nil_r; cbn [app]; rewrite <- ?app_assoc; reflexivity).
Qed.

Lemma rangeSearch_sound (target : AGV) (r : R) (node : KDNode) :
  forall v, In v (rangeSearch node target r []) ->
            In v (elements node) /\ Id v <> Id target /\ distance v target <= r.
Proof.
  induction node as [| agv lhs IHl rhs IHr depth]; intros v Hv; [destruct Hv |].
  rewrite rangeSearch_cons in Hv. cbn [elements].
  assert (Hsub : forall l, In v l ->
                   (forall x, In x l -> In x (elements lhs) \/ In x (elements rhs)) ->
                   In v (agv :: elements lhs ++ elements rhs)).
  { intros l Hl Hx. right. apply in_or_app. auto. }
  apply in_app_or in Hv. destruct Hv as [Hv | Hv].
  - destruct (decide _) as [[Hid Hd] | _]; [| destruct Hv].
    destruct Hv as [<- | []]. split; [left; reflexivity | auto].
  - assert (Hcase : In v (rangeSearch lhs target r []) \/
                    In v (rangeSearch rhs target r [])).
    { destruct (decide (_ <= 0)); destruct (decide (Rabs _ <= r));
        apply in_app_or in Hv; destruct Hv as [Hv | Hv];
        try destruct Hv; auto. }
    destruct Hcase as [H | H]; [apply IHl in H | apply IHr in H];
      destruct H as (Hin & Hid & Hd); (split; [| auto]);
      right; apply in_or_app; auto.
Qed.

Lemma rangeSearch_complete (target : AGV) (r : R) (node : KDNode) :
  kdOrdered node ->
  forall v, In v (elements node) -> Id v <> Id target -> distance v target <= r ->
            In v (rangeSearch node target r []).
Proof.
  induction node as [| agv lhs IHl rhs IHr depth]; intros Hord v Hv Hid Hd;
    [destruct Hv |].
  destruct Hord as (Hlo & Hhi & Hol & Hor).
  rewrite rangeSearch_cons. cbn [elements] in Hv. apply in_or_app.
  destruct Hv as [<- | Hv].
  - left. destruct (decide _) as [_ | Hn]; [left; reflexivity | exfalso; tauto].
  - right. apply in_app_or in Hv.
    pose proof (distance_ge_splitCoord depth v target) as Hge.
    destruct Hv as [Hv | Hv].
    + specialize (Hlo v Hv). specialize (IHl Hol v Hv Hid Hd).
      destruct (decide (_ <= 0)) as [Hdiff | Hdiff]; apply in_or_app; [auto |].
      right. destruct (decide (Rabs _ <= r)) as [_ | Hn]; [exact IHl |].
      exfalso. apply Hn. unfold Rabs in *.
      repeat destruct (Rcase_abs _); lra.
    + specialize (Hhi v Hv). specialize (IHr Hor v Hv Hid Hd).
      destruct (decide (_ <= 0)) as [Hdiff | Hdiff]; apply in_or_app; [| auto].
      right. destruct (decide (Rabs _ <= r)) as [_ | Hn]; [exact IHr |].
      exfalso. apply Hn. unfold Rabs in *.
      repeat destruct (Rcase_abs _); lra.
Qed.



Section IndexProperties.

Variable sortSlice : (AGV -> AGV -> bool) -> list AGV -> list AGV.

(** What [sort.Slice] guarantees: the slice is rearranged, and no element
    is [less] than one before it once [less] is a strict weak ordering. *)
Hypothesis sortSlice_perm :
  forall less s, Permutation (sortSlice less s) s.
Hypothesis sortSlice_sorted :
  forall less s, strictWeakOrder less ->
                 StronglySorted (fun a b => less b a = false) (sortSlice less s).

(** The sorted slice around its median. *)
Lemma sortSlice_split (depth : Z) (agvs : list AGV) :
  agvs <> [] ->
  let s := sortSlice (kdLess (Z.rem depth 2)) agvs in
  let median := (length s / 2)%nat in
  let agv := nth median s zeroAGV in
  s = firstn median s ++ agv :: skipn (median + 1) s /\
  (length (firstn median s) < length agvs)%nat /\
  (length (skipn (median + 1) s) < length agvs)%nat /\
  (forall a, In a (firstn median s) -> splitCoord depth a <= splitCoord depth agv) /\
  (forall a, In a (skipn (median + 1) s) -> splitCoord depth agv <= splitCoord depth a).
Proof.
  intros Hne s median agv.
  assert (Hlen : length s = length agvs)
    by (apply Permutation_length, sortSlice_perm).
  assert (Hpos : (0 < length agvs)%nat)
    by (destruct agvs; [contradiction | simpl; lia]).
  assert (Hmed : (median < length s)%nat)
    by (subst median; apply Nat.div_lt; lia).
  assert (Hsplit : s = firstn median s ++ agv :: skipn (median + 1) s).
  { rewrite Nat.add_1_r. symmetry. apply firstn_skipn_middle.
    subst agv. apply nth_error_nth'. exact Hmed. }
  split; [exact Hsplit |].
  split; [rewrite length_firstn; lia |].
  split; [rewrite length_skipn; lia |].
  pose proof (sortSlice_sorted (kdLess (Z.rem depth 2)) agvs
                (kdLess_strictWeakOrder _)) as Hs.
  fold s in Hs. rewrite Hsplit in Hs.
  apply StronglySorted_middle in Hs. destruct Hs as [Hlo Hhi].
  split; intros a Ha; apply kdLess_false; auto.
Qed.

(** Any fuel that covers the length of the slice gives the same tree. *)
Lemma buildKDTree_fuel_enough (fuel1 : nat) :
  forall (fuel2 : nat) (agvs : list AGV) (depth : Z),
    (length agvs <= fuel1)%nat -> (length agvs <= fuel2)%nat ->
    buildKDTree_fuel sortSlice fuel1 agvs depth =
    buildKDTree_fuel sortSlice fuel2 agvs depth.
Proof.
  induction fuel1 as [| fuel1 IH]; intros fuel2 agvs depth H1 H2.
  - destruct agvs; [| simpl in H1; lia]. destruct fuel2; reflexivity.
  - destruct agvs as [| a agvs']; [destruct fuel2; reflexivity |].
    destruct fuel2 as [| fuel2]; [simpl in H2; lia |].
    pose proof (sortSlice_split depth (a :: agvs') ltac:(discriminate))
      as (_ & Hl & Hr & _).
    cbn [buildKDTree_fuel]. cbn [length Nat.eqb].
    rewrite (IH fuel2 (firstn _ _) (depth + 1)%Z) by (simpl in *; lia).
    rewrite (IH fuel2 (skipn _ _) (depth + 1)%Z) by (simpl in *; lia).
    reflexivity.
Qed.

(** [buildKDTree] as the code recurses: nil on the empty slice, otherwise
    sort, take the median, and build both halves one level down. *)
Lemma buildKDTree_unfold (agvs : list AGV) (depth : Z) :
  buildKDTree sortSlice agvs depth =
    if (length agvs =? 0)%nat then (KDNil, agvs)
    else
      let s := sortSlice (kdLess (Z.rem depth 2)) agvs in
      let median := (length s / 2)%nat in
      let agv := nth median s zeroAGV in
      let lhs := buildKDTree sortSlice (firstn median s) (depth + 1) in
      let rhs := buildKDTree sortSlice (skipn (median + 1) s) (depth + 1) in
      (KDCons agv (fst lhs) (fst rhs) depth, snd lhs ++ agv :: snd rhs).
Proof.
  unfold buildKDTree. destruct agvs as [| a agvs']; [reflexivity |].
  pose proof (sortSlice_split depth (a :: agvs') ltac:(discriminate))
    as (_ & Hl & Hr & _).
  cbv zeta in Hl, Hr.
  cbn [length buildKDTree_fuel Nat.eqb]. cbv zeta.
  set (s := sortSlice (kdLess (Z.rem depth 2)) (a :: agvs')) in *.
  set (lo := firstn (length s / 2) s) in *.
  set (hi := skipn (length s / 2 + 1) s) in *.
  cbn [length] in Hl, Hr.
  rewrite (buildKDTree_fuel_enough (length lo) (length agvs') lo (depth + 1)%Z)
    by lia.
  rewrite (buildKDTree_fuel_enough (length hi) (length agvs') hi (depth + 1)%Z)
    by lia.
  destruct (buildKDTree_fuel _ _ lo _).
  destruct (buildKDTree_fuel _ _ hi _). reflexivity.
Qed.

(** The tree holds the vehicles of the slice, keeps the order of a
    KD-tree, and leaves the slice rearranged. *)
Lemma buildKDTree_spec (n : nat) :
  forall (agvs : list AGV) (depth : Z),
    (length agvs <= n)%nat ->
    Permutation (elements (fst (buildKDTree sortSlice agvs depth))) agvs /\
    kdOrdered (fst (buildKDTree sortSlice agvs depth)) /\
    Permutation (snd (buildKDTree sortSlice agvs depth)) agvs.
Proof.
  induction n as [| n IH]; intros agvs depth Hn.
  - destruct agvs; [| simpl in Hn; lia].
    rewrite buildKDTree_unfold. simpl. auto.
  - rewrite buildKDTree_unfold.
    destruct agvs as [| a agvs']; [simpl; auto |].
    cbn [length Nat.eqb]. cbv zeta.
    pose proof (sortSlice_split depth (a :: agvs') ltac:(discriminate))
      as (Hsplit & Hl & Hr & Hlo & Hhi).
    cbv zeta in Hsplit, Hl, Hr, Hlo, Hhi.
    set (s := sortSlice (kdLess (Z.rem depth 2)) (a :: agvs')) in *.
    set (median := (length s / 2)%nat) in *.
    set (agv := nth median s zeroAGV) in *.
    destruct (IH (firstn median s) (depth + 1)%Z ltac:(simpl in *; lia))
      as (Hel & Hol & Hsl).
    destruct (IH (skipn (median + 1) s) (depth + 1)%Z ltac:(simpl in *; lia))
      as (Her & Hor & Hsr).
    cbn [fst snd elements kdOrdered].
    assert (Hs : Permutation s (a :: agvs')) by apply sortSlice_perm.
    split; [| split].
    + rewrite <- Hs. rewrite Hsplit at 3.
      rewrite Hel, Her. apply Permutation_middle.
    + repeat split; try assumption.
      * intros x Hx. apply Hlo. eapply Permutation_in; [exact Hel | exact Hx].
      * intros x Hx. apply Hhi. eapply Permutation_in; [exact Her | exact Hx].
    + rewrite <- Hs. rewrite Hsplit at 3.
      rewrite Hsl, Hsr. reflexivity.
Qed.


End IndexProperties.

(* ================================================================= *)
(** ** The scheduling example, pair by pair *)

Lemma example_segmentIntersect :
  segmentIntersect (mkSegment (mkPoint 0 0) (mkPoint 10 0))
                   (mkSegment (mkPoint 10 0) (mkPoint 0 0)) ((1 + 1) / 2)
  = (true, mkPoint 5 0).
Proof.
  unfold segmentIntersect, cross; simpl.
  destruct (decide _) as [_ | Hn]; [| exfalso; apply Hn; lra].
  destruct (decide _) as [_ | Hn]; [| exfalso; apply Hn; lra].
  destruct (decide _) as [_ | Hn]; [| exfalso; apply Hn; lra].
  rewrite (Rmin_left 0 10), (Rmax_right 0 10), (Rmin_right 10 0),
    (Rmax_left 10 0) by lra.
  rewrite (Rmax_left 0 0), (Rmin_left 10 10) by lra.
  destruct (decide _) as [_ | Hn]; [| exfalso; apply Hn; lra].
  f_equal. point_eq.
Qed.

Lemma example_pathDistance_A :
  pathDistanceToPoint [mkPoint 0 0; mkPoint 10 0] (mkPoint 5 0) = 5.
Proof.
  unfold pathDistanceToPoint; simpl.
  destruct (decide _) as [_ | Hn].
  - unfold getDistance; simpl. replace (0 - 0) with 0 by ring.
    rewrite Hypot_0_r, Rabs_right; lra.
  - exfalso. apply Hn. unfold onSegment, cross; simpl.
    rewrite (Rmin_left 0 10), (Rmax_right 0 10) by lra.
    rewrite (Rmin_left 0 0), (Rmax_left 0 0) by lra. repeat split; lra.
Qed.

Lemma example_pathDistance_B :
  pathDistanceToPoint [mkPoint 10 0; mkPoint 0 0] (mkPoint 5 0) = 5.
Proof.
  unfold pathDistanceToPoint; simpl.
  destruct (decide _) as [_ | Hn].
  - unfold getDistance; simpl. replace (0 - 0) with 0 by ring.
    rewrite Hypot_0_r, Rabs_left; lra.
  - exfalso. apply Hn. unfold onSegment, cross; simpl.
    rewrite (Rmin_right 10 0), (Rmax_left 10 0) by lra.
    rewrite (Rmin_left 0 0), (Rmax_left 0 0) by lra. repeat split; lra.
Qed.

Lemma example_DetectCollisionWith (idA idB : Z) :
  DetectCollisionWith (exampleA idA) (exampleB idB) (1 / 10)
  = Some (exampleEvent idA idB).
Proof.
  unfold DetectCollisionWith, earliestCollision, findAllCollisions.
  cbn [exampleA exampleB Path Speed Width length Nat.sub seq flat_map app].
  change (at_ [mkPoint 0 0; mkPoint 10 0] 0) with (mkPoint 0 0).
  change (at_ [mkPoint 0 0; mkPoint 10 0] (0 + 1)) with (mkPoint 10 0).
  change (at_ [mkPoint 10 0; mkPoint 0 0] 0) with (mkPoint 10 0).
  change (at_ [mkPoint 10 0; mkPoint 0 0] (0 + 1)) with (mkPoint 0 0).
  rewrite example_segmentIntersect, example_pathDistance_A, example_pathDistance_B.
  cbn [app length Nat.eqb fold_left]. unfold earliestCollision_step.
  cbn [TimeDiff TimeA TimeB CPoint].
  replace (Rabs (5 / 2 - 5 / 2)) with 0
    by (replace (5 / 2 - 5 / 2) with 0 by lra; symmetry; apply Rabs_R0).
  rewrite (Rmin_left (5 / 2) (5 / 2)) by lra.
  pose proof MaxFloat64_big.
  destruct (decide (0 <= 1 / 10)) as [_ | Hn]; [| exfalso; lra].
  destruct (decide (5 / 2 < MaxFloat64)) as [_ | Hn]; [| exfalso; lra].
  reflexivity.
Qed.

Lemma example_distance (idA idB : Z) :
  distance (exampleA idA) (exampleB idB) = 10 /\
  distance (exampleB idB) (exampleA idA) = 10.
Proof.
  unfold distance; simpl. replace (0 - 0) with 0 by ring.
  rewrite !Hypot_0_r. split; [rewrite Rabs_left | rewrite Rabs_right]; lra.
Qed.

Lemma example_rangeSearch (idA idB : Z) (radius : R) :
  idA <> idB -> 10 <= radius ->
  rangeSearch (exampleTree idA idB) (exampleA idA) radius [] = [exampleB idB] /\
  rangeSearch (exampleTree idA idB) (exampleB idB) radius [] = [exampleA idA].
Proof.
  intros Hid Hr. destruct (example_distance idA idB) as [Hab Hba].
  unfold exampleTree. rewrite !rangeSearch_cons. cbn [rangeSearch].
  rewrite Hab, Hba.
  unfold splitCoord. change (Z.rem 0 2) with 0%Z. change (Z.rem 1 2) with 1%Z.
  cbn [exampleA exampleB APose PoseX PoseY Id].
  destruct (decide (0%Z = 0%Z)) as [_ | Hn]; [| contradiction].
  destruct (decide (1%Z = 0%Z)) as [Hn | _]; [discriminate |].
  replace (0 - 0) with 0 by ring. replace (10 - 10) with 0 by ring.
  rewrite Rabs_R0. replace (Rabs (0 - 10)) with 10 by (rewrite Rabs_left; lra).
  split.
  - destruct (decide (idB <> idA /\ 10 <= radius)) as [_ | Hn];
      [| exfalso; apply Hn; split; [congruence | lra]].
    destruct (decide (idA <> idA /\ _)) as [[Hn _] | _]; [contradiction |].
    rdecide. reflexivity.
  - destruct (decide (idB <> idB /\ _)) as [[Hn _] | _]; [contradiction |].
    destruct (decide (idA <> idB /\ 10 <= radius)) as [_ | Hn];
      [| exfalso; apply Hn; split; [congruence | lra]].
    rdecide. reflexivity.
Qed.

Lemma sorted_pair (less : AGV -> AGV -> bool) (s : list AGV) (a b : AGV) :
  Permutation s [a; b] ->
  StronglySorted (fun x y => less y x = false) s ->
  less a b = true ->
  s = [a; b].
Proof.
  intros Hp Hs Hab. apply Permutation_sym, Permutation_length_2_inv in Hp.
  destruct Hp as [-> | ->]; [reflexivity |].
  apply StronglySorted_inv in Hs. destruct Hs as [_ Hb].
  apply Forall_inv in Hb. congruence.
Qed.

Section FleetProperties.

Variable sortSlice : (AGV -> AGV -> bool) -> list AGV -> list AGV.
Hypothesis sortSlice_perm :
  forall less s, Permutation (sortSlice less s) s.
Hypothesis sortSlice_sorted :
  forall less s, strictWeakOrder less ->
                 StronglySorted (fun a b => less b a = false) (sortSlice less s).

Lemma sortSlice_nil (less : AGV -> AGV -> bool) : sortSlice less [] = [].
Proof. apply Permutation_nil, Permutation_sym, sortSlice_perm. Qed.

Lemma sortSlice_singleton (less : AGV -> AGV -> bool) (a : AGV) :
  sortSlice less [a] = [a].
Proof. apply Permutation_length_1_inv, Permutation_sym, sortSlice_perm. Qed.

Lemma example_buildKDTree (idA idB : Z) (fleet : list AGV) :
  fleet = [exampleA idA; exampleB idB] \/ fleet = [exampleB idB; exampleA idA] ->
  buildKDTree sortSlice fleet 0 =
    (exampleTree idA idB, [exampleA idA; exampleB idB]).
Proof.
  intros Hfleet.
  assert (Hs : sortSlice (kdLess (Z.rem 0 2)) fleet
               = [exampleA idA; exampleB idB]).
  { apply (sorted_pair (kdLess (Z.rem 0 2))).
    - rewrite sortSlice_perm. destruct Hfleet as [-> | ->];
        [reflexivity | apply perm_swap].
    - apply sortSlice_sorted, kdLess_strictWeakOrder.
    - unfold kdLess. simpl. apply bool_decide_eq_true. lra. }
  rewrite (buildKDTree_unfold sortSlice sortSlice_perm sortSlice_sorted).
  replace (length fleet =? 0)%nat with false
    by (destruct Hfleet as [-> | ->]; reflexivity).
  cbv zeta. rewrite Hs. cbn [length Nat.div Nat.divmod fst nth firstn skipn Nat.add].
  rewrite (buildKDTree_unfold sortSlice sortSlice_perm sortSlice_sorted [exampleA idA]).
  cbn [length Nat.eqb]. cbv zeta. rewrite sortSlice_singleton.
  cbn [length Nat.div Nat.divmod fst nth firstn skipn Nat.add].
  rewrite (buildKDTree_unfold sortSlice sortSlice_perm sortSlice_sorted []).
  cbn [length Nat.eqb fst snd app]. reflexivity.
Qed.

Lemma example_DetectCollisionsWithKDTree (idA idB : Z) (radius : R)
    (fleet : list AGV) :
  idA <> idB -> 10 <= radius ->
  fleet = [exampleA idA; exampleB idB] \/ fleet = [exampleB idB; exampleA idA] ->
  DetectCollisionsWithKDTree sortSlice fleet (1 / 10) radius =
    ([exampleEvent idA idB], [exampleA idA; exampleB idB]).
Proof.
  intros Hid Hr Hfleet. unfold DetectCollisionsWithKDTree.
  rewrite (example_buildKDTree idA idB fleet Hfleet).
  destruct (example_rangeSearch idA idB radius Hid Hr) as [Ha Hb].
  cbn [fold_left]. rewrite Ha, Hb. cbn [fold_left].
  unfold DetectCollisions_body.
  cbn [exampleA exampleB Id].
  fold (exampleA idA) (exampleB idB).
  rewrite example_DetectCollisionWith.
  unfold seenMake, seenGet, seenSet.
  repeat (rewrite ?lookup_empty, ?lookup_insert_eq;
          rewrite ?lookup_insert_ne by congruence;
          cbn [default orb from_option]).
  reflexivity.
Qed.

End FleetProperties.

(* ================================================================= *)
(** ** The insertion sort meets what the index asks of [sort.Slice] *)

Lemma sinkLeft_perm (less : AGV -> AGV -> bool) (x : AGV) (before : list AGV) :
  Permutation (sinkLeft less before x) (x :: before).
Proof.
  induction before as [| y before IH]; simpl; [reflexivity |].
  destruct (less x y); [| reflexivity].
  rewrite IH. apply perm_swap.
Qed.

Lemma insertionSort_perm (less : AGV -> AGV -> bool) (s : list AGV) :
  Permutation (insertionSort less s) s.
Proof.
  unfold insertionSort. rewrite <- Permutation_rev.
  assert (H : forall acc, Permutation (fold_left (sinkLeft less) s acc) (s ++ acc)).
  { induction s as [| x s IH]; intros acc; simpl; [reflexivity |].
    rewrite IH, sinkLeft_perm. symmetry. apply Permutation_middle. }
  rewrite H, app_nil_r. reflexivity.
Qed.

(** Sinking an element into a part sorted downwards keeps it sorted
    downwards. *)
Lemma sinkLeft_sorted (less : AGV -> AGV -> bool) (x : AGV) :
  strictWeakOrder less ->
  forall before,
    StronglySorted (fun a b => less a b = false) before ->
    StronglySorted (fun a b => less a b = false) (sinkLeft less before x).
Proof.
  intros [Hasym Hneg] before. induction before as [| y before IH]; intros Hs; simpl.
  - repeat constructor.
  - apply StronglySorted_inv in Hs. destruct Hs as [Hs Hy].
    destruct (less x y) eqn:Hxy.
    + constructor; [apply IH; exact Hs |].
      apply List.Forall_forall. intros z Hz.
      apply (Permutation_in _ (sinkLeft_perm less x before)) in Hz.
      destruct Hz as [<- | Hz]; [apply Hasym; exact Hxy |].
      rewrite List.Forall_forall in Hy. auto.
    + constructor; [constructor; assumption |].
      constructor; [exact Hxy |].
      apply List.Forall_forall. intros z Hz.
      rewrite List.Forall_forall in Hy. eapply Hneg; [exact Hxy | auto].
Qed.

Lemma StronglySorted_rev {A : Type} (R : A -> A -> Prop) (l : list A) :
  StronglySorted R l -> StronglySorted (fun a b => R b a) (rev l).
Proof.
  induction l as [| a l IH]; intros Hs; simpl; [constructor |].
  apply StronglySorted_inv in Hs. destruct Hs as [Hs Ha].
  specialize (IH Hs).
  assert (Hall : forall x, In x (rev l) -> R a x).
  { intros x Hx. apply in_rev in Hx. rewrite List.Forall_forall in Ha. auto. }
  clear Hs Ha. induction (rev l) as [| b k IHk]; simpl.
  - repeat constructor.
  - apply StronglySorted_inv in IH. destruct IH as [Hk Hb].
    constructor.
    + apply IHk; [exact Hk | intros x Hx; apply Hall; right; exact Hx].
    + apply List.Forall_forall. intros x Hx. apply in_app_or in Hx.
      destruct Hx as [Hx | [<- | []]].
      * rewrite List.Forall_forall in Hb. auto.
      * apply Hall. left. reflexivity.
Qed.

Lemma insertionSort_sorted (less : AGV -> AGV -> bool) (s : list AGV) :
  strictWeakOrder less ->
  StronglySorted (fun a b => less b a = false) (insertionSort less s).
Proof.
  intros Hswo. unfold insertionSort.
  apply (StronglySorted_rev (fun a b => less a b = false)).
  assert (H : forall acc,
             StronglySorted (fun a b => less a b = false) acc ->
             StronglySorted (fun a b => less a b = false)
                            (fold_left (sinkLeft less) s acc)).
  { induction s as [| x s IH]; intros acc Hacc; simpl; [exact Hacc |].
    apply IH. apply sinkLeft_sorted; assumption. }
  apply H. constructor.
Qed.

(* ================================================================= *)
(** ** The theorems of the index at the insertion sort *)



(* ================================================================= *)
(** * Further properties of the geometry kernel *)

Lemma Hypot_le (a b c d : R) :
  a * a + b * b <= c * c + d * d -> Hypot a b <= Hypot c d.
Proof. intros H. unfold Hypot. apply sqrt_le_1_alt. exact H. Qed.

(** The clamped parameter minimises the squared distance
    [s |-> s*s*m - 2*s*k] over [0,1]. *)
Lemma clamp_optimal (m k s : R) :
  0 < m -> 0 <= s <= 1 ->
  let t0 := k / m in
  let t1 := if decide (t0 < 0) then 0 else t0 in
  let t := if decide (t1 > 1) then 1 else t1 in
  0 <= t <= 1 /\ 0 <= (s - t) * ((s + t) * m - 2 * k).
Proof.
  intros Hm Hs t0 t1 t.
  assert (Hk : t0 * m = k) by (subst t0; field; lra).
  clearbody t0. subst t t1.
  destruct (decide (t0 < 0)) as [Hneg | Hnn].
  - destruct (decide (0 > 1)); [lra |]. split; [lra |].
    assert (k < 0) by nra.
    replace ((s - 0) * ((s + 0) * m - 2 * k)) with (s * (s * m - 2 * k)) by ring.
    apply Rmult_le_pos; [lra | nra].
  - destruct (decide (t0 > 1)) as [Hgt | Hle].
    + split; [lra |]. assert (m < k) by nra.
      assert (s * m <= m) by nra.
      replace ((s - 1) * ((s + 1) * m - 2 * k))
        with ((1 - s) * (2 * k - (s + 1) * m)) by ring.
      apply Rmult_le_pos; lra.
    + split; [lra |]. rewrite <- Hk.
      replace ((s - t0) * ((s + t0) * m - 2 * (t0 * m)))
        with (m * ((s - t0) * (s - t0))) by ring.
      apply Rmult_le_pos; [lra | apply Rle_0_sqr].
Qed.

Lemma closestPointOnSegment_spec (p : Point) (seg : Segment) :
  liesOn (closestPointOnSegment p seg) seg /\
  forall q, liesOn q seg ->
            getDistance p (closestPointOnSegment p seg) <= getDistance p q.
Proof.
  unfold closestPointOnSegment.
  set (ax := X (SegStart seg)). set (ay := Y (SegStart seg)).
  set (abx := X (SegEnd seg) - ax). set (aby := Y (SegEnd seg) - ay).
  set (apx := X p - ax). set (apy := Y p - ay).
  cbv zeta.
  destruct (decide (abx * abx + aby * aby = 0)) as [Hz | Hnz].
  - apply sum_squares_0 in Hz. destruct Hz as [Hx Hy]. split.
    + exists 0. fold ax ay abx aby. split; [lra |]. split; ring.
    + intros q (s & _ & Hqx & Hqy). fold ax ay abx aby in Hqx, Hqy.
      apply Hypot_le. rewrite Hqx, Hqy, Hx, Hy. fold ax ay. nra.
  - assert (Hm : 0 < abx * abx + aby * aby) by nra.
    set (t := if decide (_ > 1) then 1 else _).
    split.
    + destruct (clamp_optimal _ (apx * abx + apy * aby) 0 Hm ltac:(lra)) as [Ht _].
      exists t. fold ax ay abx aby. cbn [X Y]. split; [exact Ht |]. split; ring.
    + intros q (s & Hs & Hqx & Hqy). fold ax ay abx aby in Hqx, Hqy.
      destruct (clamp_optimal _ (apx * abx + apy * aby) s Hm Hs) as [_ Hopt].
      fold t in Hopt.
      apply Hypot_le. cbn [X Y]. rewrite Hqx, Hqy.
      replace (ax + abx * t - X p) with (- (apx - t * abx)) by (subst apx; ring).
      replace (ay + aby * t - Y p) with (- (apy - t * aby)) by (subst apy; ring).
      replace (ax + s * abx - X p) with (- (apx - s * abx)) by (subst apx; ring).
      replace (ay + s * aby - Y p) with (- (apy - s * aby)) by (subst apy; ring).
      clearbody t apx apy abx aby. nra.
Qed.

(** X1: the point [closestPointOnSegment] returns is a point of the
    segment, and no point of the segment is nearer to [p]. *)
Theorem X1_closestPointOnSegment_nearest :
  forall (p : Point) (seg : Segment),
    liesOn (closestPointOnSegment p seg) seg /\
    forall q, liesOn q seg ->
              getDistance p (closestPointOnSegment p seg) <= getDistance p q.
Proof.
  intros p seg. destruct (closestPointOnSegment_spec p seg) as [Hon Hnear].
  split; [exact Hon | exact Hnear].
Qed.

Lemma projectPointOnSegment_closest (pose : Pose) (seg : Segment) :
  fst (projectPointOnSegment pose seg) =
    closestPointOnSegment (mkPoint (PoseX pose) (PoseY pose)) seg.
Proof.
  unfold projectPointOnSegment, closestPointOnSegment, dot.
  cbn [X Y]. cbv zeta.
  destruct (decide (_ = 0)) as [Hz | Hnz]; cbn [fst snd]; [reflexivity |].
  apply Point_eq; cbn [X Y]; ring.
Qed.

(** X2, in exact real arithmetic: [projectPointOnSegment] returns the
    point [closestPointOnSegment] returns for the position of the pose, its
    parameter [t] lies in [0,1], and the point is
    [interpolate seg.Start seg.End t]. *)
Theorem X2_projectPointOnSegment_point :
  forall (pose : Pose) (seg : Segment),
    fst (projectPointOnSegment pose seg) =
      closestPointOnSegment (mkPoint (PoseX pose) (PoseY pose)) seg /\
    0 <= snd (projectPointOnSegment pose seg) <= 1 /\
    fst (projectPointOnSegment pose seg) =
      interpolate (SegStart seg) (SegEnd seg) (snd (projectPointOnSegment pose seg)).
Proof.
  intros pose seg.
  split; [| split; [exact (proj1 (projectPointOnSegment_parameter seg pose)) |]].
  all: unfold projectPointOnSegment, closestPointOnSegment, interpolate, dot.
  all: cbn [X Y]; cbv zeta.
  all: destruct (decide (_ = 0)) as [Hz | Hnz]; cbn [fst snd]; try reflexivity.
  all: apply Point_eq; cbn [X Y]; ring.
Qed.

Lemma segmentIntersect_crossing_spec (s1 s2 : Segment) (width : R) :
  cross (X (SegEnd s1) - X (SegStart s1)) (Y (SegEnd s1) - Y (SegStart s1))
        (X (SegEnd s2) - X (SegStart s2)) (Y (SegEnd s2) - Y (SegStart s2)) <> 0 ->
  (fst (segmentIntersect s1 s2 width) = true ->
   liesOn (snd (segmentIntersect s1 s2 width)) s1 /\
   liesOn (snd (segmentIntersect s1 s2 width)) s2) /\
  (fst (segmentIntersect s1 s2 width) = false ->
   segmentIntersect s1 s2 width = (false, zeroPoint)) /\
  (forall p, liesOn p s1 -> liesOn p s2 ->
             segmentIntersect s1 s2 width = (true, p)).
Proof.
  unfold segmentIntersect, cross, liesOn.
  set (x1 := X (SegStart s1)). set (y1 := Y (SegStart s1)).
  set (x2 := X (SegStart s2)). set (y2 := Y (SegStart s2)).
  set (dx1 := X (SegEnd s1) - x1). set (dy1 := Y (SegEnd s1) - y1).
  set (dx2 := X (SegEnd s2) - x2). set (dy2 := Y (SegEnd s2) - y2).
  intros HD. cbv zeta.
  destruct (decide (dx1 * dy2 - dy1 * dx2 = 0)) as [Hz | _]; [contradiction |].
  set (D := dx1 * dy2 - dy1 * dx2) in *.
  set (t := ((x2 - x1) * dy2 - (y2 - y1) * dx2) / D).
  set (u := ((x2 - x1) * dy1 - (y2 - y1) * dx1) / D).
  assert (Ht : t * D = (x2 - x1) * dy2 - (y2 - y1) * dx2) by (subst t; field; exact HD).
  assert (Hu : u * D = (x2 - x1) * dy1 - (y2 - y1) * dx1) by (subst u; field; exact HD).
  split; [| split].
  - destruct (decide (t >= 0 /\ t <= 1 /\ u >= 0 /\ u <= 1)) as [(H1 & H2 & H3 & H4) | _];
      cbn [fst snd]; [intros _ | discriminate].
    split.
    + exists t. cbn [X Y]. split; [lra |]. split; reflexivity.
    + exists u. cbn [X Y]. split; [lra |].
      split; apply (Rmult_eq_reg_r D); try exact HD.
      * replace ((x1 + t * dx1) * D) with (x1 * D + (t * D) * dx1) by ring.
        replace ((x2 + u * dx2) * D) with (x2 * D + (u * D) * dx2) by ring.
        rewrite Ht, Hu. subst D. ring.
      * replace ((y1 + t * dy1) * D) with (y1 * D + (t * D) * dy1) by ring.
        replace ((y2 + u * dy2) * D) with (y2 * D + (u * D) * dy2) by ring.
        rewrite Ht, Hu. subst D. ring.
  - destruct (decide (t >= 0 /\ t <= 1 /\ u >= 0 /\ u <= 1));
      cbn [fst]; [discriminate | reflexivity].
  - intros p (t' & Ht' & Hx1 & Hy1) (u' & Hu' & Hx2 & Hy2).
    assert (Ett : t = t').
    { apply (Rmult_eq_reg_r D); [| exact HD]. rewrite Ht.
      replace (x2 - x1) with (t' * dx1 - u' * dx2) by lra.
      replace (y2 - y1) with (t' * dy1 - u' * dy2) by lra.
      subst D. ring. }
    assert (Euu : u = u').
    { apply (Rmult_eq_reg_r D); [| exact HD]. rewrite Hu.
      replace (x2 - x1) with (t' * dx1 - u' * dx2) by lra.
      replace (y2 - y1) with (t' * dy1 - u' * dy2) by lra.
      subst D. ring. }
    destruct (decide (t >= 0 /\ t <= 1 /\ u >= 0 /\ u <= 1)) as [_ | Hn];
      [| exfalso; apply Hn; lra].
    rewrite Ett. f_equal. apply Point_eq; cbn [X Y]; lra.
Qed.

(** X3, in exact real arithmetic: for two segments that are not parallel,
    [segmentIntersect] reports a point only if that point lies on both
    segments, and whenever the segments have a point in common it reports
    exactly that point, whatever the width. *)
Theorem X3_segmentIntersect_crossing :
  forall (s1 s2 : Segment) (width : R),
    cross (X (SegEnd s1) - X (SegStart s1)) (Y (SegEnd s1) - Y (SegStart s1))
          (X (SegEnd s2) - X (SegStart s2)) (Y (SegEnd s2) - Y (SegStart s2)) <> 0 ->
    (fst (segmentIntersect s1 s2 width) = true ->
     liesOn (snd (segmentIntersect s1 s2 width)) s1 /\
     liesOn (snd (segmentIntersect s1 s2 width)) s2) /\
    (forall p, liesOn p s1 -> liesOn p s2 ->
               segmentIntersect s1 s2 width = (true, p)).
Proof.
  intros s1 s2 width HD.
  destruct (segmentIntersect_crossing_spec s1 s2 width HD) as (Hon & _ & Hmeet).
  split; [exact Hon | exact Hmeet].
Qed.

(** X19, in exact real arithmetic: for two segments that are not parallel,
    [segmentIntersect] gives the same answer whichever of the two comes
    first, and the answer does not depend on the width. *)
Theorem X19_segmentIntersect_symmetric :
  forall (s1 s2 : Segment) (width width' : R),
    cross (X (SegEnd s1) - X (SegStart s1)) (Y (SegEnd s1) - Y (SegStart s1))
          (X (SegEnd s2) - X (SegStart s2)) (Y (SegEnd s2) - Y (SegStart s2)) <> 0 ->
    segmentIntersect s2 s1 width' = segmentIntersect s1 s2 width.
Proof.
  intros s1 s2 width width' HD.
  assert (HD' : cross (X (SegEnd s2) - X (SegStart s2)) (Y (SegEnd s2) - Y (SegStart s2))
                      (X (SegEnd s1) - X (SegStart s1)) (Y (SegEnd s1) - Y (SegStart s1))
                <> 0) by (unfold cross in *; lra).
  destruct (segmentIntersect_crossing_spec s1 s2 width HD) as (Hon & Hoff & Hmeet).
  destruct (segmentIntersect_crossing_spec s2 s1 width' HD') as (Hon' & Hoff' & Hmeet').
  destruct (fst (segmentIntersect s1 s2 width)) eqn:E.
  - destruct (Hon eq_refl) as [H1 H2].
    rewrite (Hmeet' _ H2 H1). rewrite (surjective_pairing (segmentIntersect s1 s2 width)).
    rewrite E. reflexivity.
  - rewrite (Hoff eq_refl).
    destruct (fst (segmentIntersect s2 s1 width')) eqn:E'; [| apply Hoff'; reflexivity].
    exfalso. destruct (Hon' eq_refl) as [H1 H2].
    rewrite (Hmeet _ H2 H1) in E. discriminate.
Qed.

Lemma X19_segmentIntersect_symmetric_witness :
  segmentIntersect (mkSegment (mkPoint 1 3) (mkPoint 1 (-1)))
                   (mkSegment (mkPoint 0 0) (mkPoint 10 0)) 2 =
  segmentIntersect (mkSegment (mkPoint 0 0) (mkPoint 10 0))
                   (mkSegment (mkPoint 1 3) (mkPoint 1 (-1))) 1.
Proof.
  apply (X19_segmentIntersect_symmetric
           (mkSegment (mkPoint 0 0) (mkPoint 10 0))
           (mkSegment (mkPoint 1 3) (mkPoint 1 (-1))) 1 2).
  unfold cross; simpl. lra.
Defined.

Lemma X3_segmentIntersect_crossing_witness :
  let s1 := mkSegment (mkPoint 0 0) (mkPoint 10 0) in
  let s2 := mkSegment (mkPoint 1 3) (mkPoint 1 (-1)) in
  (fst (segmentIntersect s1 s2 1) = true ->
   liesOn (snd (segmentIntersect s1 s2 1)) s1 /\
   liesOn (snd (segmentIntersect s1 s2 1)) s2) /\
  (forall p, liesOn p s1 -> liesOn p s2 -> segmentIntersect s1 s2 1 = (true, p)).
Proof.
  intros s1 s2. apply (X3_segmentIntersect_crossing s1 s2 1).
  unfold cross; simpl. lra.
Defined.

Lemma Rdiv_unit_range (n d : R) : 0 < d -> 0 <= n <= d -> 0 <= n / d <= 1.
Proof.
  intros Hd [Hn0 Hn1]. split.
  - apply Rle_mult_inv_pos; assumption.
  - apply (Rmult_le_reg_r d); [exact Hd |].
    replace (n / d * d) with n by (field; lra). lra.
Qed.

(** The points of a horizontal segment. *)
Lemma liesOn_horizontal (p : Point) (seg : Segment) :
  Y (SegEnd seg) = Y (SegStart seg) ->
  (liesOn p seg <->
   Y p = Y (SegStart seg) /\
   Rmin (X (SegStart seg)) (X (SegEnd seg)) <= X p
     <= Rmax (X (SegStart seg)) (X (SegEnd seg))).
Proof.
  intros Hy. unfold liesOn. rewrite Hy.
  set (a := X (SegStart seg)). set (b := X (SegEnd seg)).
  split.
  - intros (t & Ht & Hpx & Hpy). split; [lra |].
    unfold Rmin, Rmax. destruct (Rle_dec a b); nra.
  - intros (Hpy & Hlo & Hhi).
    destruct (decide (a = b)) as [Hab | Hab].
    + exists 0. rewrite <- Hab in *.
      rewrite Rmin_left, Rmax_left in * by lra. repeat split; lra.
    + unfold Rmin, Rmax in *. destruct (Rle_dec a b).
      * exists ((X p - a) / (b - a)).
        split; [apply Rdiv_unit_range; lra |].
        split; [field; lra | lra].
      * exists ((a - X p) / (a - b)).
        split; [apply Rdiv_unit_range; lra |].
        split; [field; lra | lra].
Qed.

(** X4: for a horizontal segment [s1] of positive length and a horizontal
    segment [s2] (so the two are parallel), with width 0,
    [segmentIntersect] reports a point exactly when the two segments have a
    point in common, and the point it reports lies on both. *)
Theorem X4_segmentIntersect_horizontal :
  forall s1 s2 : Segment,
    Y (SegEnd s1) = Y (SegStart s1) ->
    X (SegEnd s1) <> X (SegStart s1) ->
    Y (SegEnd s2) = Y (SegStart s2) ->
    (fst (segmentIntersect s1 s2 0) = true <->
     exists p, liesOn p s1 /\ liesOn p s2) /\
    (fst (segmentIntersect s1 s2 0) = true ->
     liesOn (snd (segmentIntersect s1 s2 0)) s1 /\
     liesOn (snd (segmentIntersect s1 s2 0)) s2).
Proof.
  intros s1 s2 Hy1 Hx1 Hy2.
  assert (Hcommon : forall p, liesOn p s1 /\ liesOn p s2 <->
            Y p = Y (SegStart s1) /\ Y p = Y (SegStart s2) /\
            Rmax (Rmin (X (SegStart s1)) (X (SegEnd s1)))
                 (Rmin (X (SegStart s2)) (X (SegEnd s2))) <= X p
              <= Rmin (Rmax (X (SegStart s1)) (X (SegEnd s1)))
                      (Rmax (X (SegStart s2)) (X (SegEnd s2)))).
  { intros p. rewrite (liesOn_horizontal p s1 Hy1), (liesOn_horizontal p s2 Hy2).
    split.
    - intros [(H1 & H2 & H3) (H4 & H5 & H6)]. repeat split; try assumption.
      + apply Rmax_lub; assumption.
      + apply Rmin_glb; assumption.
    - intros (H1 & H2 & H3 & H4).
      pose proof (Rmax_l (Rmin (X (SegStart s1)) (X (SegEnd s1)))
                         (Rmin (X (SegStart s2)) (X (SegEnd s2)))).
      pose proof (Rmax_r (Rmin (X (SegStart s1)) (X (SegEnd s1)))
                         (Rmin (X (SegStart s2)) (X (SegEnd s2)))).
      pose proof (Rmin_l (Rmax (X (SegStart s1)) (X (SegEnd s1)))
                         (Rmax (X (SegStart s2)) (X (SegEnd s2)))).
      pose proof (Rmin_r (Rmax (X (SegStart s1)) (X (SegEnd s1)))
                         (Rmax (X (SegStart s2)) (X (SegEnd s2)))).
      repeat split; lra. }
  unfold segmentIntersect, cross. rewrite Hy1, Hy2.
  set (lo := Rmax (Rmin (X (SegStart s1)) (X (SegEnd s1)))
                  (Rmin (X (SegStart s2)) (X (SegEnd s2)))) in *.
  set (hi := Rmin (Rmax (X (SegStart s1)) (X (SegEnd s1)))
                  (Rmax (X (SegStart s2)) (X (SegEnd s2)))) in *.
  cbv zeta.
  destruct (decide (_ = 0)) as [_ | Hn]; [| exfalso; apply Hn; ring].
  destruct (decide (_ = 0)) as [Hcol | Hcol].
  - assert (Heq : Y (SegStart s2) = Y (SegStart s1)) by nra.
    destruct (decide (_ <> 0)) as [_ | Hn]; [| exfalso; apply Hn; lra].
    destruct (decide (lo <= hi + 0 / 2)) as [Hov | Hov]; cbn [fst snd].
    + assert (Hp : liesOn (mkPoint ((lo + hi) / 2) (Y (SegStart s1))) s1 /\
                   liesOn (mkPoint ((lo + hi) / 2) (Y (SegStart s1))) s2).
      { apply Hcommon. cbn [X Y]. repeat split; lra. }
      split; [| intros _; exact Hp].
      split; [intros _; eexists; exact Hp | reflexivity].
    + split; [| discriminate]. split; [discriminate |].
      intros (p & Hp). apply Hcommon in Hp. exfalso. lra.
  - cbn [fst snd]. split; [| discriminate]. split; [discriminate |].
    intros (p & Hp). apply Hcommon in Hp. exfalso. apply Hcol.
    replace (Y (SegStart s2)) with (Y (SegStart s1)) by lra. ring.
Qed.

Lemma X4_segmentIntersect_horizontal_witness :
  let s1 := mkSegment (mkPoint 0 0) (mkPoint 5 0) in
  let s2 := mkSegment (mkPoint 3 0) (mkPoint 8 0) in
  (fst (segmentIntersect s1 s2 0) = true <-> exists p, liesOn p s1 /\ liesOn p s2) /\
  (fst (segmentIntersect s1 s2 0) = true ->
   liesOn (snd (segmentIntersect s1 s2 0)) s1 /\
   liesOn (snd (segmentIntersect s1 s2 0)) s2).
Proof.
  intros s1 s2. apply (X4_segmentIntersect_horizontal s1 s2).
  - reflexivity.
  - simpl. lra.
  - reflexivity.
Defined.

(** X5: a zero-length first segment at [p] is taken for collinear with every
    segment: whenever the y of [p] lies within the y-range of [s2],
    [segmentIntersect] reports [p] itself as the intersection, whatever the
    x-coordinates of [s2] and whatever the width (not negative). *)
Theorem X5_segmentIntersect_zero_length_first :
  forall (p : Point) (s2 : Segment) (width : R),
    0 <= width ->
    Rmin (Y (SegStart s2)) (Y (SegEnd s2)) <= Y p
      <= Rmax (Y (SegStart s2)) (Y (SegEnd s2)) ->
    segmentIntersect (mkSegment p p) s2 width = (true, p).
Proof.
  intros p s2 width Hw [Hlo Hhi]. unfold segmentIntersect, cross.
  cbn [SegStart SegEnd]. cbv zeta.
  destruct (decide (_ = 0)) as [_ | Hn]; [| exfalso; apply Hn; ring].
  destruct (decide (_ = 0)) as [_ | Hn]; [| exfalso; apply Hn; ring].
  destruct (decide (_ <> 0)) as [Hn | _]; [exfalso; apply Hn; ring |].
  rewrite (Rmin_left (Y p) (Y p)), (Rmax_left (Y p) (Y p)) by lra.
  rewrite (Rmax_left (Y p)), (Rmin_left (Y p)) by assumption.
  destruct (decide _) as [_ | Hn]; [| exfalso; apply Hn; lra].
  f_equal. apply Point_eq; cbn [X Y]; lra.
Qed.

Lemma X5_segmentIntersect_zero_length_first_witness :
  segmentIntersect (mkSegment (mkPoint 0 0) (mkPoint 0 0))
                   (mkSegment (mkPoint 100 (-1)) (mkPoint 100 1)) 1
  = (true, mkPoint 0 0).
Proof.
  apply (X5_segmentIntersect_zero_length_first (mkPoint 0 0)
           (mkSegment (mkPoint 100 (-1)) (mkPoint 100 1)) 1).
  - lra.
  - cbn [SegStart SegEnd X Y].
    rewrite Rmin_left, Rmax_right by lra. lra.
Defined.

(** The distance component of the loop of [segmentDistance] is the least
    of the initial [minD] and the scores of the candidates. *)
Lemma segmentDistance_fold_min (s1 s2 : Segment) (cs : list Point) :
  forall (m : R) (b : Point),
    fst (fold_left (segmentDistance_step s1 s2) cs (m, b)) =
    fold_left
      (fun m c =>
         Rmin m (Rmin (Rmin (getDistance (SegStart s1) c) (getDistance (SegEnd s1) c))
                      (Rmin (getDistance (SegStart s2) c) (getDistance (SegEnd s2) c))))
      cs m.
Proof.
  induction cs as [| c cs IH]; intros m b; cbn [fold_left]; [reflexivity |].
  unfold segmentDistance_step at 2.
  set (d := Rmin (Rmin _ _) (Rmin _ _)).
  destruct (decide (d < m)) as [Hlt | Hge]; rewrite IH; f_equal.
  - rewrite Rmin_right by lra. reflexivity.
  - rewrite Rmin_left by lra. reflexivity.
Qed.

(** X6: the distance [segmentDistance] returns does not depend on the
    order of the two segments. *)
Theorem X6_segmentDistance_symmetric :
  forall s1 s2 : Segment,
    fst (segmentDistance s1 s2) = fst (segmentDistance s2 s1).
Proof.
  intros s1 s2. unfold segmentDistance. cbv zeta.
  rewrite !segmentDistance_fold_min. cbn [fold_left].
  set (c1 := closestPointOnSegment (SegStart s1) s2).
  set (c2 := closestPointOnSegment (SegEnd s1) s2).
  set (c3 := closestPointOnSegment (SegStart s2) s1).
  set (c4 := closestPointOnSegment (SegEnd s2) s1).
  assert (Hd : forall c,
             Rmin (Rmin (getDistance (SegStart s2) c) (getDistance (SegEnd s2) c))
                  (Rmin (getDistance (SegStart s1) c) (getDistance (SegEnd s1) c)) =
             Rmin (Rmin (getDistance (SegStart s1) c) (getDistance (SegEnd s1) c))
                  (Rmin (getDistance (SegStart s2) c) (getDistance (SegEnd s2) c)))
    by (intros c; apply Rmin_comm).
  rewrite !Hd.
  set (d1 := Rmin (Rmin _ _) (Rmin _ (getDistance (SegEnd s2) c1))).
  set (d2 := Rmin (Rmin _ _) (Rmin _ (getDistance (SegEnd s2) c2))).
  set (d3 := Rmin (Rmin _ _) (Rmin _ (getDistance (SegEnd s2) c3))).
  set (d4 := Rmin (Rmin _ _) (Rmin _ (getDistance (SegEnd s2) c4))).
  clearbody d1 d2 d3 d4.
  unfold Rmin. repeat destruct (Rle_dec _ _); lra.
Qed.

(* ================================================================= *)
(** * Further properties of the path functions *)

Lemma pathLength_nonneg (path : list Point) : 0 <= pathLength path.
Proof.
  induction path as [| p rest IH]; simpl; [lra |].
  destruct rest as [| q rest']; [lra |].
  pose proof (getDistance_nonneg p q). lra.
Qed.

(** The length of the path up to point [i + 1] is the length up to point
    [i] plus the length of segment [i]. *)
Lemma pathLength_firstn_S (path : list Point) :
  forall i, (S i < length path)%nat ->
    pathLength (firstn (S (S i)) path) =
    pathLength (firstn (S i) path) + getDistance (at_ path i) (at_ path (S i)).
Proof.
  induction path as [| p rest IH]; intros i Hi; [simpl in Hi; lia |].
  destruct rest as [| q rest']; [simpl in Hi; lia |].
  destruct i as [| i'].
  - cbn [firstn pathLength]. unfold at_; simpl. ring.
  - specialize (IH i' ltac:(simpl in *; lia)).
    change (firstn (S (S (S i'))) (p :: q :: rest'))
      with (p :: firstn (S (S i')) (q :: rest')).
    change (firstn (S (S i')) (p :: q :: rest'))
      with (p :: firstn (S i') (q :: rest')).
    change (firstn (S (S i')) (q :: rest')) with (q :: firstn (S i') rest') in *.
    change (firstn (S i') (q :: rest')) with (q :: firstn i' rest') in *.
    change (pathLength (p :: q :: firstn (S i') rest'))
      with (getDistance p q + pathLength (q :: firstn (S i') rest')).
    change (pathLength (p :: q :: firstn i' rest'))
      with (getDistance p q + pathLength (q :: firstn i' rest')).
    rewrite IH.
    change (at_ (p :: q :: rest') (S i')) with (at_ (q :: rest') i').
    change (at_ (p :: q :: rest') (S (S i'))) with (at_ (q :: rest') (S i')).
    ring.
Qed.

(** The loop of [pathDistanceToPoint], entered at segment [k] with the
    length of the path up to point [k] in [total]. *)
Lemma pathDistanceToPoint_loop_spec (path : list Point) (p : Point) :
  forall (n k : nat) (total : R),
    (k + n = length path - 1)%nat ->
    total = pathLength (firstn (S k) path) ->
    let r := pathDistanceToPoint_loop path p (seq k n) total in
    (exists i, (k <= i < k + n)%nat /\
               onSegment p (mkSegment (at_ path i) (at_ path (i + 1))) /\
               (forall j, (k <= j < i)%nat ->
                          ~ onSegment p (mkSegment (at_ path j) (at_ path (j + 1)))) /\
               r = pathLength (firstn (S i) path) + getDistance (at_ path i) p) \/
    ((forall j, (k <= j < k + n)%nat ->
                ~ onSegment p (mkSegment (at_ path j) (at_ path (j + 1)))) /\
     r = pathLength path).
Proof.
  induction n as [| n IH]; intros k total Hk Htotal; cbn [seq pathDistanceToPoint_loop].
  - right. split; [intros j Hj; lia |].
    rewrite Htotal. rewrite firstn_all2 by lia. reflexivity.
  - cbv zeta. cbn [SegStart SegEnd].
    destruct (decide (onSegment p _)) as [Hon | Hoff].
    + left. exists k. split; [lia |]. split; [exact Hon |].
      split; [intros j Hj; lia |]. rewrite Htotal. reflexivity.
    + specialize (IH (S k) (total + getDistance (at_ path k) (at_ path (k + 1)))
                     ltac:(lia)).
      rewrite Nat.add_1_r in IH at 1.
      specialize (IH ltac:(rewrite Htotal; symmetry; apply pathLength_firstn_S; lia)).
      cbv zeta in IH.
      destruct IH as [(i & Hi & Hon & Hfirst & Hr) | (Hnone & Hr)].
      * left. exists i. split; [lia |]. split; [exact Hon |].
        split; [| exact Hr].
        intros j Hj. destruct (Nat.eq_dec j k) as [-> | Hne]; [exact Hoff |].
        apply Hfirst. lia.
      * right. split; [| exact Hr].
        intros j Hj. destruct (Nat.eq_dec j k) as [-> | Hne]; [exact Hoff |].
        apply Hnone. lia.
Qed.

(** X7: [pathDistanceToPoint] stops at the first segment on which the
    point lies and returns the length of the path up to the start of that
    segment plus the distance from there to the point; for a point on no
    segment it returns the whole length of the path; the first point of a
    path of at least two points is at distance 0; the result is never
    negative. *)
Theorem X7_pathDistanceToPoint :
  forall (path : list Point) (p : Point),
    (forall i, (i < length path - 1)%nat ->
               onSegment p (mkSegment (at_ path i) (at_ path (i + 1))) ->
               (forall j, (j < i)%nat ->
                          ~ onSegment p (mkSegment (at_ path j) (at_ path (j + 1)))) ->
               pathDistanceToPoint path p =
                 pathLength (firstn (S i) path) + getDistance (at_ path i) p) /\
    ((forall j, (j < length path - 1)%nat ->
                ~ onSegment p (mkSegment (at_ path j) (at_ path (j + 1)))) ->
     pathDistanceToPoint path p = pathLength path) /\
    ((2 <= length path)%nat -> pathDistanceToPoint path (at_ path 0) = 0) /\
    0 <= pathDistanceToPoint path p.
Proof.
  intros path p.
  assert (Hfirst1 : pathLength (firstn 1 path) = 0)
    by (destruct path; reflexivity).
  assert (Hspec : forall q,
    (exists i, (0 <= i < 0 + (length path - 1))%nat /\
               onSegment q (mkSegment (at_ path i) (at_ path (i + 1))) /\
               (forall j, (0 <= j < i)%nat ->
                          ~ onSegment q (mkSegment (at_ path j) (at_ path (j + 1)))) /\
               pathDistanceToPoint path q =
                 pathLength (firstn (S i) path) + getDistance (at_ path i) q) \/
    ((forall j, (0 <= j < 0 + (length path - 1))%nat ->
                ~ onSegment q (mkSegment (at_ path j) (at_ path (j + 1)))) /\
     pathDistanceToPoint path q = pathLength path)).
  { intros q. apply (pathDistanceToPoint_loop_spec path q (length path - 1) 0 0);
      [lia | symmetry; exact Hfirst1]. }
  split; [| split; [| split]].
  - intros i Hi Hon Hbefore.
    destruct (Hspec p) as [(i' & Hi' & Hon' & Hbefore' & Hr) | (Hnone & _)].
    + assert (i' = i).
      { destruct (Nat.lt_trichotomy i' i) as [Hlt | [Heq | Hgt]]; [| exact Heq |].
        - exfalso. apply (Hbefore i' Hlt). exact Hon'.
        - exfalso. apply (Hbefore' i ltac:(lia)). exact Hon. }
      subst i'. exact Hr.
    + exfalso. apply (Hnone i ltac:(lia)). exact Hon.
  - intros Hnone.
    destruct (Hspec p) as [(i' & Hi' & Hon' & _) | (_ & Hr)]; [| exact Hr].
    exfalso. apply (Hnone i' ltac:(lia)). exact Hon'.
  - intros Hlen.
    assert (Hon : onSegment (at_ path 0) (mkSegment (at_ path 0) (at_ path (0 + 1)))).
    { unfold onSegment, cross. cbn [SegStart SegEnd].
      pose proof (Rmin_l (X (at_ path 0)) (X (at_ path (0 + 1)))).
      pose proof (Rmax_l (X (at_ path 0)) (X (at_ path (0 + 1)))).
      pose proof (Rmin_l (Y (at_ path 0)) (Y (at_ path (0 + 1)))).
      pose proof (Rmax_l (Y (at_ path 0)) (Y (at_ path (0 + 1)))).
      repeat split; first [lra | ring]. }
    destruct (Hspec (at_ path 0)) as [(i' & Hi' & Hon' & Hbefore' & Hr) | (Hnone & _)].
    + destruct i' as [| i'].
      * rewrite Hr, Hfirst1, getDistance_same. ring.
      * exfalso. apply (Hbefore' 0%nat ltac:(lia)). exact Hon.
    + exfalso. apply (Hnone 0%nat ltac:(lia)). exact Hon.
  - destruct (Hspec p) as [(i' & _ & _ & _ & Hr) | (_ & Hr)]; rewrite Hr.
    + pose proof (pathLength_nonneg (firstn (S i') path)).
      pose proof (getDistance_nonneg (at_ path i') p). lra.
    + apply pathLength_nonneg.
Qed.

Lemma flat_map_nil_body {A B : Type} (l : list A) :
  flat_map (fun _ : A => @nil B) l = [].
Proof. induction l; simpl; auto. Qed.

Lemma fold_left_id_body {A B : Type} (l : list B) (st : A) :
  fold_left (fun (st : A) (_ : B) => st) l st = st.
Proof. induction l; simpl; auto. Qed.

Lemma findAllCollisions_short (pathA pathB : list Point) (vA vB width : R) :
  (length pathA < 2)%nat \/ (length pathB < 2)%nat ->
  findAllCollisions pathA pathB vA vB width = [].
Proof.
  intros H. unfold findAllCollisions. destruct H as [H | H].
  - replace (length pathA - 1)%nat with 0%nat by lia. reflexivity.
  - replace (length pathB - 1)%nat with 0%nat by lia. cbn [seq flat_map].
    apply flat_map_nil_body.
Qed.

(** X8: a path of fewer than two points has no segment, so against it
    [findAllCollisions] lists nothing, [earliestCollision] and
    [checkPathIntersection] report nothing (with the zero collision and the
    zero point) and [DetectCollisionWith] finds no event, whatever the other
    path, the speeds, the width and the tolerance. *)
Theorem X8_short_paths_never_collide :
  forall (pathA pathB : list Point) (vA vB width tol : R),
    (length pathA < 2)%nat \/ (length pathB < 2)%nat ->
    findAllCollisions pathA pathB vA vB width = [] /\
    earliestCollision pathA pathB vA vB width tol = (false, zeroCollision) /\
    checkPathIntersection pathA pathB width = (false, zeroPoint) /\
    (forall agv other : AGV,
        Path agv = pathA -> Path other = pathB ->
        DetectCollisionWith agv other tol = None).
Proof.
  intros pathA pathB vA vB width tol H.
  assert (Hearly : forall vA vB width,
             earliestCollision pathA pathB vA vB width tol = (false, zeroCollision)).
  { intros. unfold earliestCollision.
    rewrite (findAllCollisions_short _ _ _ _ _ H). reflexivity. }
  split; [apply findAllCollisions_short; exact H |].
  split; [apply Hearly |]. split.
  - unfold checkPathIntersection. destruct H as [H | H].
    + replace (length pathA - 1)%nat with 0%nat by lia. reflexivity.
    + replace (length pathB - 1)%nat with 0%nat by lia. cbn [seq fold_left].
      rewrite fold_left_id_body. reflexivity.
  - intros agv other <- <-. unfold DetectCollisionWith.
    rewrite Hearly. reflexivity.
Qed.

Lemma X8_short_paths_never_collide_witness :
  findAllCollisions [mkPoint 3 4] [mkPoint 0 0; mkPoint 10 0] 2 2 1 = [] /\
  earliestCollision [mkPoint 3 4] [mkPoint 0 0; mkPoint 10 0] 2 2 1 (1 / 10)
    = (false, zeroCollision) /\
  checkPathIntersection [mkPoint 3 4] [mkPoint 0 0; mkPoint 10 0] 1
    = (false, zeroPoint) /\
  (forall agv other : AGV,
      Path agv = [mkPoint 3 4] -> Path other = [mkPoint 0 0; mkPoint 10 0] ->
      DetectCollisionWith agv other (1 / 10) = None).
Proof.
  apply (X8_short_paths_never_collide [mkPoint 3 4] [mkPoint 0 0; mkPoint 10 0]
           2 2 1 (1 / 10)).
  left. simpl. lia.
Defined.

Lemma checkPathIntersection_body_found (pathA : list Point) (width : R)
    (s1 s2 : Segment) (st : R * Point * bool) :
  snd (checkPathIntersection_body pathA width s1 s2 st) =
  snd st || pairTouches width s1 s2.
Proof.
  destruct st as [[minDist nearest] found].
  unfold checkPathIntersection_body, pairTouches.
  destruct (segmentIntersect s1 s2 width) as [ok inter].
  destruct ok; cbn [fst snd].
  - destruct (decide _); cbn [snd]; rewrite orb_true_r; reflexivity.
  - destruct (segmentDistance s1 s2) as [d pt]. cbn [fst].
    destruct (decide (d <= width / 2)) as [Hd | Hd].
    + rewrite bool_decide_eq_true_2 by exact Hd.
      destruct (decide _); cbn [snd]; rewrite orb_true_r; reflexivity.
    + rewrite bool_decide_eq_false_2 by exact Hd.
      cbn [snd]. rewrite orb_false_r. reflexivity.
Qed.

Lemma fold_left_found {S' T : Type} (f : S' * bool -> T -> S' * bool)
    (h : T -> bool) :
  (forall st x, snd (f st x) = snd st || h x) ->
  forall l st, snd (fold_left f l st) = snd st || existsb h l.
Proof.
  intros Hf l. induction l as [| x l IH]; intros st; cbn [fold_left existsb].
  - rewrite orb_false_r. reflexivity.
  - rewrite IH, Hf, orb_assoc. reflexivity.
Qed.

(** X9: [checkPathIntersection] reports a hit exactly when, for some
    segment of pathA and some segment of pathB, [segmentIntersect] reports
    an intersection or the distance [segmentDistance] returns is at most
    width/2. *)
Theorem X9_checkPathIntersection_found :
  forall (pathA pathB : list Point) (width : R),
    fst (checkPathIntersection pathA pathB width) = true <->
    exists i j,
      (i < length pathA - 1)%nat /\ (j < length pathB - 1)%nat /\
      (fst (segmentIntersect (mkSegment (at_ pathA i) (at_ pathA (i + 1)))
                             (mkSegment (at_ pathB j) (at_ pathB (j + 1))) width) = true \/
       fst (segmentDistance (mkSegment (at_ pathA i) (at_ pathA (i + 1)))
                            (mkSegment (at_ pathB j) (at_ pathB (j + 1)))) <= width / 2).
Proof.
  intros pathA pathB width. unfold checkPathIntersection.
  set (inner := fun (st : R * Point * bool) (i : nat) =>
                  fold_left
                    (fun st j =>
                       checkPathIntersection_body pathA width
                         (mkSegment (at_ pathA i) (at_ pathA (i + 1)))
                         (mkSegment (at_ pathB j) (at_ pathB (j + 1))) st)
                    (seq 0 (length pathB - 1)) st).
  set (hij := fun i j =>
                pairTouches width (mkSegment (at_ pathA i) (at_ pathA (i + 1)))
                            (mkSegment (at_ pathB j) (at_ pathB (j + 1)))).
  assert (Hinner : forall st i,
             snd (inner st i) = snd st || existsb (hij i) (seq 0 (length pathB - 1))).
  { intros st i. subst inner. cbv beta.
    apply (fold_left_found
             (fun st j => checkPathIntersection_body pathA width
                            (mkSegment (at_ pathA i) (at_ pathA (i + 1)))
                            (mkSegment (at_ pathB j) (at_ pathB (j + 1))) st)
             (hij i)).
    intros st' j. apply checkPathIntersection_body_found. }
  pose proof (fold_left_found inner
                (fun i => existsb (hij i) (seq 0 (length pathB - 1))) Hinner
                (seq 0 (length pathA - 1)) (MaxFloat64, zeroPoint, false)) as Hout.
  destruct (fold_left inner _ _) as [[m nearest] found]. cbn [fst snd] in *.
  rewrite Hout. cbn [orb]. rewrite existsb_exists. split.
  - intros (i & Hi & Hex). apply existsb_exists in Hex. destruct Hex as (j & Hj & Hh).
    apply in_seq in Hi. apply in_seq in Hj.
    exists i, j. split; [lia |]. split; [lia |].
    subst hij. cbv beta in Hh. unfold pairTouches in Hh.
    apply orb_true_iff in Hh. destruct Hh as [Hh | Hh]; [left; exact Hh |].
    right. apply bool_decide_eq_true in Hh. exact Hh.
  - intros (i & j & Hi & Hj & Hh).
    exists i. split; [apply in_seq; lia |]. apply existsb_exists.
    exists j. split; [apply in_seq; lia |].
    subst hij. cbv beta. unfold pairTouches. apply orb_true_iff.
    destruct Hh as [Hh | Hh]; [left; exact Hh |].
    right. apply bool_decide_eq_true. exact Hh.
Qed.

(* ================================================================= *)
(** * Further properties of the exact detector and the resolver *)

Lemma findAllCollisions_TimeDiff (pathA pathB : list Point) (vA vB width : R) :
  forall c, In c (findAllCollisions pathA pathB vA vB width) ->
            TimeDiff c = Rabs (TimeA c - TimeB c).
Proof.
  intros c Hc. unfold findAllCollisions in Hc.
  apply in_flat_map in Hc. destruct Hc as (i & _ & Hc).
  apply in_flat_map in Hc. destruct Hc as (j & _ & Hc).
  destruct (segmentIntersect _ _ width) as [ok inter].
  destruct ok; [| destruct Hc].
  destruct Hc as [<- | []]. reflexivity.
Qed.

(** What [earliestCollision] reports is one of the collisions, within the
    tolerance, earlier than [MaxFloat64]. *)
Lemma earliestCollision_found (pathA pathB : list Point) (vA vB width tol : R)
    (best : Collision) :
  earliestCollision pathA pathB vA vB width tol = (true, best) ->
  In best (findAllCollisions pathA pathB vA vB width) /\
  TimeDiff best <= tol /\
  Rmin (TimeA best) (TimeB best) < MaxFloat64.
Proof.
  unfold earliestCollision.
  set (all := findAllCollisions pathA pathB vA vB width).
  destruct (length all =? 0)%nat; [discriminate |].
  pose proof (earliestCollision_loop tol all MaxFloat64 zeroCollision false) as H.
  destruct (fold_left _ all _) as [[m' b'] f'].
  destruct H as [_ [(_ & _ & ->) | (Hm & _ & Hin & Hq & Hk)]]; [discriminate |].
  intros Heq. injection Heq as _ <-. repeat split; auto. lra.
Qed.

(** X10: widening the tolerance never loses a collision: when
    [earliestCollision] reports a collision for [tol] it reports one for
    every [tol' >= tol], and the earlier arrival time of that one is not
    later. *)
Theorem X10_earliestCollision_tolerance :
  forall (pathA pathB : list Point) (vA vB width tol tol' : R),
    tol <= tol' ->
    fst (earliestCollision pathA pathB vA vB width tol) = true ->
    fst (earliestCollision pathA pathB vA vB width tol') = true /\
    Rmin (TimeA (snd (earliestCollision pathA pathB vA vB width tol')))
         (TimeB (snd (earliestCollision pathA pathB vA vB width tol'))) <=
    Rmin (TimeA (snd (earliestCollision pathA pathB vA vB width tol)))
         (TimeB (snd (earliestCollision pathA pathB vA vB width tol))).
Proof.
  intros pathA pathB vA vB width tol tol' Htol Hfound.
  destruct (earliestCollision pathA pathB vA vB width tol) as [f best] eqn:E.
  cbn [fst snd] in *. subst f.
  apply earliestCollision_found in E. destruct E as (Hin & Hq & Hlt).
  unfold earliestCollision.
  set (all := findAllCollisions pathA pathB vA vB width) in *.
  destruct (length all =? 0)%nat eqn:Hlen.
  { apply Nat.eqb_eq in Hlen. destruct all; [destruct Hin | discriminate]. }
  pose proof (earliestCollision_loop tol' all MaxFloat64 zeroCollision false) as H.
  destruct (fold_left _ all _) as [[m' b'] f']. cbn [fst snd].
  destruct H as [Hall Hcase].
  specialize (Hall best Hin ltac:(lra)).
  destruct Hcase as [(-> & _ & _) | (_ & -> & _ & _ & Hk)]; [exfalso; lra |].
  split; [reflexivity |]. rewrite Hk. exact Hall.
Qed.

Lemma example_earliestCollision (tol : R) :
  0 <= tol ->
  earliestCollision [mkPoint 0 0; mkPoint 10 0] [mkPoint 10 0; mkPoint 0 0]
                    2 2 ((1 + 1) / 2) tol
  = (true, mkCollision (mkPoint 5 0) 5 5 (5 / 2) (5 / 2) 0).
Proof.
  intros Htol. unfold earliestCollision, findAllCollisions.
  cbn [length Nat.sub seq flat_map app].
  change (at_ [mkPoint 0 0; mkPoint 10 0] 0) with (mkPoint 0 0).
  change (at_ [mkPoint 0 0; mkPoint 10 0] (0 + 1)) with (mkPoint 10 0).
  change (at_ [mkPoint 10 0; mkPoint 0 0] 0) with (mkPoint 10 0).
  change (at_ [mkPoint 10 0; mkPoint 0 0] (0 + 1)) with (mkPoint 0 0).
  rewrite example_segmentIntersect, example_pathDistance_A, example_pathDistance_B.
  cbn [app length Nat.eqb fold_left]. unfold earliestCollision_step.
  cbn [TimeDiff TimeA TimeB CPoint].
  replace (Rabs (5 / 2 - 5 / 2)) with 0
    by (replace (5 / 2 - 5 / 2) with 0 by lra; symmetry; apply Rabs_R0).
  rewrite (Rmin_left (5 / 2) (5 / 2)) by lra.
  pose proof MaxFloat64_big.
  destruct (decide (0 <= tol)) as [_ | Hn]; [| exfalso; lra].
  destruct (decide (5 / 2 < MaxFloat64)) as [_ | Hn]; [| exfalso; lra].
  reflexivity.
Qed.

Lemma X10_earliestCollision_tolerance_witness :
  let pathA := [mkPoint 0 0; mkPoint 10 0] in
  let pathB := [mkPoint 10 0; mkPoint 0 0] in
  fst (earliestCollision pathA pathB 2 2 ((1 + 1) / 2) 1) = true /\
  Rmin (TimeA (snd (earliestCollision pathA pathB 2 2 ((1 + 1) / 2) 1)))
       (TimeB (snd (earliestCollision pathA pathB 2 2 ((1 + 1) / 2) 1))) <=
  Rmin (TimeA (snd (earliestCollision pathA pathB 2 2 ((1 + 1) / 2) (1 / 10))))
       (TimeB (snd (earliestCollision pathA pathB 2 2 ((1 + 1) / 2) (1 / 10)))).
Proof.
  intros pathA pathB.
  apply (X10_earliestCollision_tolerance pathA pathB 2 2 ((1 + 1) / 2) (1 / 10) 1).
  - lra.
  - subst pathA pathB. rewrite example_earliestCollision by lra. reflexivity.
Defined.

(** What an event of [DetectCollisionWith] records. *)
Lemma DetectCollisionWith_event (agv other : AGV) (tol : R) (e : CollisionEvent) :
  DetectCollisionWith agv other tol = Some e ->
  AGV1 e = agv /\ AGV2 e = other /\
  DeltaT e = Rabs (Time1 e - Time2 e) /\ DeltaT e <= tol /\
  Rmin (Time1 e) (Time2 e) < MaxFloat64.
Proof.
  unfold DetectCollisionWith.
  destruct (earliestCollision _ _ _ _ _ tol) as [ok col] eqn:E.
  destruct ok; [| discriminate].
  apply earliestCollision_found in E. destruct E as (Hin & Hq & Hlt).
  apply findAllCollisions_TimeDiff in Hin.
  intros Heq. injection Heq as <-.
  cbn [AGV1 AGV2 DeltaT Time1 Time2]. repeat split; auto.
Qed.

(** X11: [ResolveCollision] gives one "GO" with wait 0 and one "WAIT", to
    the two vehicles of the event, both carrying the event; in exact real
    arithmetic the wait is [safeGap - |Time1 - Time2|], so the waiting
    vehicle reaches the point exactly [safeGap] after the other, and the
    wait is negative exactly when the arrival times already differ by more
    than [safeGap]. *)
Theorem X11_ResolveCollision_wait :
  forall (e : CollisionEvent) (safeGap : R),
    let go := fst (ResolveCollision e safeGap) in
    let wait := snd (ResolveCollision e safeGap) in
    Action go = "GO"%string /\ WaitTime go = 0 /\ Action wait = "WAIT"%string /\
    SCollision go = e /\ SCollision wait = e /\
    ((SAGV go = AGV1 e /\ SAGV wait = AGV2 e /\
      Time2 e + WaitTime wait = Time1 e + safeGap) \/
     (SAGV go = AGV2 e /\ SAGV wait = AGV1 e /\
      Time1 e + WaitTime wait = Time2 e + safeGap)) /\
    WaitTime wait = safeGap - Rabs (Time1 e - Time2 e) /\
    (WaitTime wait < 0 <-> safeGap < Rabs (Time1 e - Time2 e)).
Proof.
  intros e safeGap go wait. subst go wait. unfold ResolveCollision.
  destruct (decide (Time1 e <= Time2 e)) as [Hle | Hgt]; cbn [fst snd Action WaitTime SCollision SAGV].
  - assert (Habs : Rabs (Time1 e - Time2 e) = Time2 e - Time1 e)
      by (rewrite Rabs_left1; lra).
    rewrite Habs. repeat split; try reflexivity; try lra.
    left. repeat split; lra.
  - assert (Habs : Rabs (Time1 e - Time2 e) = Time1 e - Time2 e)
      by (rewrite Rabs_right; lra).
    rewrite Habs. repeat split; try reflexivity; try lra.
    right. repeat split; lra.
Qed.

(* ================================================================= *)
(** * Further properties of the fleet detector *)

Lemma seenGet_seenMake (seen : gmap Z (gmap Z bool)) (a x y : Z) :
  seenGet (seenMake seen a) x y = seenGet seen x y.
Proof.
  unfold seenMake, seenGet. destruct (seen !! a) eqn:Ha; [reflexivity |].
  destruct (decide (x = a)) as [-> | Hne].
  - rewrite lookup_insert_eq, Ha, lookup_empty. reflexivity.
  - rewrite lookup_insert_ne by congruence. reflexivity.
Qed.

Lemma seenGet_seenSet (seen : gmap Z (gmap Z bool)) (a b x y : Z) :
  seenGet (seenSet seen a b) x y =
  if decide (x = a /\ y = b) then true else seenGet seen x y.
Proof.
  unfold seenSet, seenGet.
  destruct (decide (x = a)) as [-> | Hne].
  - rewrite lookup_insert_eq.
    destruct (decide (y = b)) as [-> | Hne'].
    + rewrite lookup_insert_eq.
      destruct (decide (a = a /\ b = b)) as [_ | Hn]; [reflexivity | tauto].
    + rewrite lookup_insert_ne by congruence.
      destruct (decide (a = a /\ y = b)) as [[_ Hy] | _]; [contradiction |].
      destruct (seen !! a); [reflexivity |]. cbn [default from_option].
      rewrite lookup_empty. reflexivity.
  - rewrite lookup_insert_ne by congruence.
    destruct (decide (x = a /\ y = b)) as [[Hx _] | _]; [contradiction | reflexivity].
Qed.

(** The body of the neighbour loop, by what it does to [results] and to
    the pairs [seen] answers for. *)
Lemma DetectCollisions_body_cases (tol : R) (agv other : AGV)
    (results : list CollisionEvent) (seen : gmap Z (gmap Z bool)) :
  let st' := DetectCollisions_body tol agv (results, seen) other in
  (seenGet seen (Id agv) (Id other) || seenGet seen (Id other) (Id agv) = true /\
   fst st' = results /\
   forall x y, seenGet (snd st') x y = seenGet seen x y) \/
  (seenGet seen (Id agv) (Id other) = false /\
   seenGet seen (Id other) (Id agv) = false /\
   (forall x y, seenGet (snd st') x y =
                if decide (x = Id agv /\ y = Id other) then true
                else seenGet seen x y) /\
   ((exists e, DetectCollisionWith agv other tol = Some e /\
               fst st' = results ++ [e]) \/
    (DetectCollisionWith agv other tol = None /\ fst st' = results))).
Proof.
  cbv zeta. unfold DetectCollisions_body.
  rewrite !seenGet_seenMake.
  destruct (seenGet seen (Id agv) (Id other) || seenGet seen (Id other) (Id agv))
    eqn:Hseen.
  - left. cbn [fst snd]. split; [reflexivity |]. split; [reflexivity |].
    intros x y. rewrite !seenGet_seenMake. reflexivity.
  - right. apply orb_false_elim in Hseen. destruct Hseen as [H1 H2].
    cbn [fst snd]. split; [exact H1 |]. split; [exact H2 |]. split.
    + intros x y. rewrite seenGet_seenSet, !seenGet_seenMake. reflexivity.
    + destruct (DetectCollisionWith agv other tol) as [e |]; [left | right]; eauto.
Qed.

Lemma fold_left_invariant {A B : Type} (f : A -> B -> A) (P : A -> Prop)
    (l : list B) :
  (forall a x, In x l -> P a -> P (f a x)) ->
  forall a, P a -> P (fold_left f l a).
Proof.
  induction l as [| x l IH]; intros Hf a Ha; cbn [fold_left]; [exact Ha |].
  apply IH.
  - intros a' x' Hx'. apply Hf. right. exact Hx'.
  - apply Hf; [left; reflexivity | exact Ha].
Qed.

Lemma ForallOrdPairs_snoc {A : Type} (R : A -> A -> Prop) (l : list A) (y : A) :
  ForallOrdPairs R l -> (forall x, In x l -> R x y) ->
  ForallOrdPairs R (l ++ [y]).
Proof.
  induction 1 as [| a l Ha Hl IH]; intros Hy; cbn [app].
  - constructor; constructor.
  - constructor.
    + apply List.Forall_app. split; [exact Ha |].
      constructor; [apply Hy; left; reflexivity | constructor].
    + apply IH. intros x Hx. apply Hy. right. exact Hx.
Qed.

(** The two loops of [DetectCollisionsWithKDTree] over a slice and a tree:
    every event they collect was found by [DetectCollisionWith] for a
    vehicle of the slice and one of its neighbours in the tree, and no two
    events are about the same unordered pair of ids. *)
Lemma DetectCollisions_loops (root : KDNode) (agvs : list AGV) (tol radius : R) :
  let events :=
    fst (fold_left
           (fun st agv =>
              fold_left (DetectCollisions_body tol agv)
                        (rangeSearch root agv radius []) st)
           agvs ([], ∅)) in
  (forall e, In e events ->
             In (AGV1 e) agvs /\
             In (AGV2 e) (rangeSearch root (AGV1 e) radius []) /\
             DetectCollisionWith (AGV1 e) (AGV2 e) tol = Some e) /\
  ForallOrdPairs (fun e1 e2 => ~ samePair e1 e2) events.
Proof.
  cbv zeta.
  set (Inv := fun st : list CollisionEvent * gmap Z (gmap Z bool) =>
                (forall e, In e (fst st) ->
                           (In (AGV1 e) agvs /\
                            In (AGV2 e) (rangeSearch root (AGV1 e) radius []) /\
                            DetectCollisionWith (AGV1 e) (AGV2 e) tol = Some e) /\
                           seenGet (snd st) (Id (AGV1 e)) (Id (AGV2 e)) = true) /\
                ForallOrdPairs (fun e1 e2 => ~ samePair e1 e2) (fst st)).
  assert (Hinv : Inv (fold_left
                        (fun st agv =>
                           fold_left (DetectCollisions_body tol agv)
                                     (rangeSearch root agv radius []) st)
                        agvs ([], ∅))).
  { apply fold_left_invariant.
    - intros st agv Hagv Hst. apply fold_left_invariant; [| exact Hst].
      clear st Hst. intros [results seen] other Hother [Hev Hpairs].
      cbn [fst snd] in Hev, Hpairs.
      pose proof (DetectCollisions_body_cases tol agv other results seen) as Hcase.
      cbv zeta in Hcase.
      destruct (DetectCollisions_body tol agv (results, seen) other)
        as [results' seen'].
      cbn [fst snd] in Hcase. unfold Inv. cbn [fst snd].
      destruct Hcase as [(_ & -> & Hsame) | (Hab & Hba & Hset & Hres)].
      + split; [| exact Hpairs].
        intros e He. destruct (Hev e He) as [Hprov Hs].
        split; [exact Hprov |]. rewrite Hsame. exact Hs.
      + assert (Hkeep : forall e, In e results ->
                  seenGet seen' (Id (AGV1 e)) (Id (AGV2 e)) = true).
        { intros e He. destruct (Hev e He) as [_ Hs]. rewrite Hset.
          destruct (decide _); [reflexivity | exact Hs]. }
        destruct Hres as [(e & Hdet & ->) | (_ & ->)].
        * pose proof (DetectCollisionWith_event agv other tol e Hdet)
            as (H1 & H2 & _).
          split.
          -- intros e' He'. apply in_app_or in He'.
             destruct He' as [He' | [<- | []]].
             ++ split; [apply (Hev e' He') | apply Hkeep; exact He'].
             ++ rewrite H1, H2. split; [auto |]. rewrite Hset.
                destruct (decide _) as [_ | Hn]; [reflexivity | tauto].
          -- apply ForallOrdPairs_snoc; [exact Hpairs |].
             intros e' He' Hsp. destruct (Hev e' He') as [_ Hs].
             unfold samePair in Hsp. rewrite H1, H2 in Hsp.
             destruct Hsp as [[E1 E2] | [E1 E2]]; rewrite E1, E2 in Hs; congruence.
        * split; [| exact Hpairs].
          intros e He. split; [apply (Hev e He) | apply Hkeep; exact He].
    - unfold Inv. cbn [fst snd]. split; [intros e [] | constructor]. }
  destruct Hinv as [Hev Hpairs]. split; [| exact Hpairs].
  intros e He. apply (Hev e He).
Qed.

Lemma DetectCollisionsWithKDTree_events
    (sortSlice : (AGV -> AGV -> bool) -> list AGV -> list AGV)
    (agvs : list AGV) (tol radius : R) :
  fst (DetectCollisionsWithKDTree sortSlice agvs tol radius) =
  fst (fold_left
         (fun st agv =>
            fold_left (DetectCollisions_body tol agv)
                      (rangeSearch (fst (buildKDTree sortSlice agvs 0)) agv radius [])
                      st)
         (snd (buildKDTree sortSlice agvs 0)) ([], ∅)).
Proof.
  unfold DetectCollisionsWithKDTree.
  destruct (buildKDTree sortSlice agvs 0) as [root agvs']. cbn [fst snd].
  destruct (fold_left _ agvs' _). reflexivity.
Qed.

Lemma fold_left_app_flat_map {A B : Type} (g : A -> list B) (l : list A) :
  forall acc, fold_left (fun acc x => acc ++ g x) l acc = acc ++ flat_map g l.
Proof.
  induction l as [| x l IH]; intros acc; cbn [fold_left flat_map].
  - rewrite app_nil_r. reflexivity.
  - rewrite IH, app_assoc. reflexivity.
Qed.

Lemma fold_left_pointwise {A B : Type} (f g : A -> B -> A) (l : list B) :
  (forall a x, f a x = g a x) ->
  forall a, fold_left f l a = fold_left g l a.
Proof.
  intros H. induction l as [| x l IH]; intros a; cbn [fold_left]; [reflexivity |].
  rewrite H. apply IH.
Qed.

Lemma DetectAndSchedule_actions
    (sortSlice : (AGV -> AGV -> bool) -> list AGV -> list AGV)
    (agvs : list AGV) (tol radius safeGap : R) :
  fst (DetectAndSchedule sortSlice agvs tol radius safeGap) =
  flat_map (fun e => [fst (ResolveCollision e safeGap);
                      snd (ResolveCollision e safeGap)])
           (fst (DetectCollisionsWithKDTree sortSlice agvs tol radius)).
Proof.
  unfold DetectAndSchedule.
  destruct (DetectCollisionsWithKDTree sortSlice agvs tol radius) as [events agvs'].
  cbn [fst snd].
  rewrite <- (app_nil_l (flat_map _ events)).
  rewrite <- fold_left_app_flat_map.
  apply fold_left_pointwise. intros acc e.
  destruct (ResolveCollision e safeGap). reflexivity.
Qed.

(** X12: [DetectAndSchedule] returns, in order, the two actions of
    [ResolveCollision] for each event of [DetectCollisionsWithKDTree], twice
    as many actions as events; in exact real arithmetic every action is a
    "GO" with wait 0 or a "WAIT" whose wait lies between [safeGap - tol] and
    [safeGap], so with a tolerance of at most [safeGap] no wait it issues is
    negative. *)
Theorem X12_DetectAndSchedule_waits :
  forall (sortSlice : (AGV -> AGV -> bool) -> list AGV -> list AGV)
         (agvs : list AGV) (tol radius safeGap : R),
    let actions := fst (DetectAndSchedule sortSlice agvs tol radius safeGap) in
    let events := fst (DetectCollisionsWithKDTree sortSlice agvs tol radius) in
    actions = flat_map (fun e => [fst (ResolveCollision e safeGap);
                                  snd (ResolveCollision e safeGap)]) events /\
    length actions = (2 * length events)%nat /\
    (forall a, In a actions ->
               In (SCollision a) events /\
               ((Action a = "GO"%string /\ WaitTime a = 0) \/
                (Action a = "WAIT"%string /\
                 safeGap - tol <= WaitTime a <= safeGap))) /\
    (tol <= safeGap -> forall a, In a actions -> 0 <= WaitTime a).
Proof.
  intros sortSlice agvs tol radius safeGap actions events.
  assert (Hacts : actions =
                  flat_map (fun e => [fst (ResolveCollision e safeGap);
                                      snd (ResolveCollision e safeGap)]) events)
    by apply DetectAndSchedule_actions.
  assert (Hev : forall e, In e events ->
                          Rabs (Time1 e - Time2 e) <= tol).
  { intros e He. subst events.
    rewrite DetectCollisionsWithKDTree_events in He.
    apply DetectCollisions_loops in He. destruct He as (_ & _ & Hdet).
    apply DetectCollisionWith_event in Hdet.
    destruct Hdet as (_ & _ & Hd & Hle & _). rewrite <- Hd. exact Hle. }
  assert (Hall : forall a, In a actions ->
               In (SCollision a) events /\
               ((Action a = "GO"%string /\ WaitTime a = 0) \/
                (Action a = "WAIT"%string /\
                 safeGap - tol <= WaitTime a <= safeGap))).
  { intros a Ha. rewrite Hacts in Ha. apply in_flat_map in Ha.
    destruct Ha as (e & He & Ha). specialize (Hev e He).
    pose proof (Rabs_pos (Time1 e - Time2 e)) as Hpos.
    unfold ResolveCollision in Ha.
    destruct (decide (Time1 e <= Time2 e)) as [Hle | Hgt];
      cbn [fst snd] in Ha; destruct Ha as [<- | [<- | []]];
      cbn [SCollision Action WaitTime]; (split; [exact He |]);
      try (left; split; reflexivity); right; (split; [reflexivity |]).
    - rewrite Rabs_left1 in Hev, Hpos by lra. lra.
    - rewrite Rabs_right in Hev, Hpos by lra. lra. }
  split; [exact Hacts |]. split; [| split].
  - rewrite Hacts. clear. induction events as [| e events IH]; [reflexivity |].
    cbn [flat_map app length]. rewrite IH. lia.
  - exact Hall.
  - intros Htol a Ha. destruct (Hall a Ha) as [_ [[_ ->] | [_ Hw]]]; lra.
Qed.

Lemma fold_left_progress {A B : Type} (f : A -> B -> A) (Inv : A -> Prop)
    (Q : B -> A -> Prop) (l : list B) :
  (forall a x, In x l -> Inv a -> Inv (f a x) /\ Q x (f a x)) ->
  (forall a y z, In y l -> Inv a -> Q z a -> Q z (f a y)) ->
  forall a, Inv a ->
            Inv (fold_left f l a) /\ forall x, In x l -> Q x (fold_left f l a).
Proof.
  induction l as [| x l IH]; intros Hstep Hstab a Ha; cbn [fold_left].
  - split; [exact Ha | intros x []].
  - destruct (Hstep a x (or_introl eq_refl) Ha) as [Ha' Hq].
    destruct (IH (fun a y Hy => Hstep a y (or_intror Hy))
                 (fun a y z Hy => Hstab a y z (or_intror Hy)) (f a x) Ha')
      as [Hfin Hall].
    split; [exact Hfin |]. intros y [<- | Hy]; [| apply Hall; exact Hy].
    assert (H : Inv (fold_left f l (f a x)) /\ Q x (fold_left f l (f a x))).
    { apply (fold_left_invariant f (fun a => Inv a /\ Q x a)).
      - intros a0 y Hy [Hi Hq0]. split.
        + apply (Hstep a0 y (or_intror Hy) Hi).
        + apply (Hstab a0 y x (or_intror Hy) Hi Hq0).
      - split; assumption. }
    apply H.
Qed.

(** The two loops of [DetectCollisionsWithKDTree]: every vehicle of the
    slice has been paired with each of its neighbours in one direction or
    the other, and each pairing that was examined either gave an event or
    found no collision. *)
Lemma DetectCollisions_loops_cover (root : KDNode) (agvs : list AGV)
    (tol radius : R) :
  let final :=
    fold_left
      (fun st agv =>
         fold_left (DetectCollisions_body tol agv)
                   (rangeSearch root agv radius []) st)
      agvs ([], ∅) in
  (forall x y, seenGet (snd final) x y = true ->
     exists agv other,
       In agv agvs /\ In other (rangeSearch root agv radius []) /\
       Id agv = x /\ Id other = y /\
       ((exists e, In e (fst final) /\ AGV1 e = agv /\ AGV2 e = other) \/
        DetectCollisionWith agv other tol = None)) /\
  (forall agv other,
     In agv agvs -> In other (rangeSearch root agv radius []) ->
     seenGet (snd final) (Id agv) (Id other) ||
     seenGet (snd final) (Id other) (Id agv) = true).
Proof.
  cbv zeta.
  set (Inv := fun st : list CollisionEvent * gmap Z (gmap Z bool) =>
     forall x y, seenGet (snd st) x y = true ->
       exists agv other,
         In agv agvs /\ In other (rangeSearch root agv radius []) /\
         Id agv = x /\ Id other = y /\
         ((exists e, In e (fst st) /\ AGV1 e = agv /\ AGV2 e = other) \/
          DetectCollisionWith agv other tol = None)).
  set (covered := fun (agv other : AGV)
                      (st : list CollisionEvent * gmap Z (gmap Z bool)) =>
     seenGet (snd st) (Id agv) (Id other) ||
     seenGet (snd st) (Id other) (Id agv) = true).
  (* one turn of the inner loop *)
  assert (Hbody : forall agv other st,
             In agv agvs -> In other (rangeSearch root agv radius []) ->
             Inv st ->
             Inv (DetectCollisions_body tol agv st other) /\
             covered agv other (DetectCollisions_body tol agv st other) /\
             forall a b, covered a b st ->
                         covered a b (DetectCollisions_body tol agv st other)).
  { intros agv other [results seen] Hagv Hother Hinv.
    pose proof (DetectCollisions_body_cases tol agv other results seen) as Hcase.
    cbv zeta in Hcase.
    destruct (DetectCollisions_body tol agv (results, seen) other)
      as [results' seen'].
    unfold Inv, covered in *. cbn [fst snd] in *.
    destruct Hcase as [(Hseen & -> & Hsame) | (Hab & Hba & Hset & Hres)].
    - split; [| split].
      + intros x y Hxy. rewrite Hsame in Hxy. apply Hinv. exact Hxy.
      + rewrite !Hsame. exact Hseen.
      + intros a b. rewrite !Hsame. auto.
    - assert (Hmono : forall x y, seenGet seen x y = true -> seenGet seen' x y = true).
      { intros x y Hxy. rewrite Hset. destruct (decide _); [reflexivity | exact Hxy]. }
      assert (Hsub : forall e, In e results -> In e results').
      { intros e He. destruct Hres as [(e' & _ & ->) | (_ & ->)];
          [apply in_or_app; left |]; exact He. }
      split; [| split].
      + intros x y Hxy. rewrite Hset in Hxy.
        destruct (decide (x = Id agv /\ y = Id other)) as [[-> ->] | _].
        * exists agv, other. repeat split; try assumption.
          destruct Hres as [(e & Hdet & ->) | (Hnone & _)]; [left | right; exact Hnone].
          apply DetectCollisionWith_event in Hdet. destruct Hdet as (H1 & H2 & _).
          exists e. split; [apply in_or_app; right; left; reflexivity | auto].
        * destruct (Hinv x y Hxy) as (a & b & Ha & Hb & Hx & Hy & Hev).
          exists a, b. repeat split; try assumption.
          destruct Hev as [(e & He & H1 & H2) | Hnone]; [left | right; exact Hnone].
          exists e. split; [apply Hsub; exact He | auto].
      + rewrite (Hset (Id agv) (Id other)).
        destruct (decide _) as [_ | Hn]; [reflexivity | tauto].
      + intros a b Hc. apply orb_true_iff in Hc. apply orb_true_iff.
        destruct Hc as [Hc | Hc]; [left | right]; apply Hmono; exact Hc. }
  (* the inner loop for one vehicle *)
  assert (Hinner : forall agv st,
             In agv agvs -> Inv st ->
             let st' := fold_left (DetectCollisions_body tol agv)
                                  (rangeSearch root agv radius []) st in
             Inv st' /\
             (forall other, In other (rangeSearch root agv radius []) ->
                            covered agv other st') /\
             forall a b, covered a b st -> covered a b st').
  { intros agv st Hagv Hst. cbv zeta.
    destruct (fold_left_progress (DetectCollisions_body tol agv) Inv
                (fun other st => covered agv other st)
                (rangeSearch root agv radius [])) with (a := st) as [Hi Hc].
    - intros a x Hx Ha. destruct (Hbody agv x a Hagv Hx Ha) as (H1 & H2 & _).
      split; assumption.
    - intros a y z Hy Ha Hq. destruct (Hbody agv y a Hagv Hy Ha) as (_ & _ & H3).
      apply H3. exact Hq.
    - exact Hst.
    - split; [exact Hi |]. split; [exact Hc |].
      intros a b Hab.
      apply (fold_left_invariant (DetectCollisions_body tol agv)
               (fun st => Inv st /\ covered a b st)); [| split; assumption].
      intros a0 x Hx [Hi0 Hc0].
      destruct (Hbody agv x a0 Hagv Hx Hi0) as (H1 & _ & H3). split; auto. }
  destruct (fold_left_progress
              (fun st agv =>
                 fold_left (DetectCollisions_body tol agv)
                           (rangeSearch root agv radius []) st)
              Inv
              (fun agv st => forall other,
                   In other (rangeSearch root agv radius []) -> covered agv other st)
              agvs) with (a := (@nil CollisionEvent, (∅ : gmap Z (gmap Z bool))))
    as [Hfin Hcov].
  - intros a x Hx Ha. destruct (Hinner x a Hx Ha) as (H1 & H2 & _). split; assumption.
  - intros a y z Hy Ha Hq other Hother.
    destruct (Hinner y a Hy Ha) as (_ & _ & H3). apply H3. apply Hq. exact Hother.
  - unfold Inv. cbn [snd]. intros x y Hxy. unfold seenGet in Hxy.
    rewrite lookup_empty in Hxy. discriminate.
  - split; [exact Hfin |]. intros agv other Hagv Hother.
    apply (Hcov agv Hagv other Hother).
Qed.

Lemma distance_sym (a b : AGV) : distance a b = distance b a.
Proof.
  unfold distance, Hypot. f_equal. ring.
Qed.

Lemma NoDup_map_Id_inj (fleet : list AGV) :
  List.NoDup (map Id fleet) ->
  forall a b, In a fleet -> In b fleet -> Id a = Id b -> a = b.
Proof.
  induction fleet as [| v fleet IH]; intros Hnd a b Ha Hb Hid; [destruct Ha |].
  cbn [map] in Hnd. apply List.NoDup_cons_iff in Hnd. destruct Hnd as [Hv Hnd].
  destruct Ha as [<- | Ha]; destruct Hb as [<- | Hb].
  - reflexivity.
  - exfalso. apply Hv. rewrite Hid. apply in_map. exact Hb.
  - exfalso. apply Hv. rewrite <- Hid. apply in_map. exact Ha.
  - apply IH; assumption.
Qed.

Section FleetDetector.

Variable sortSlice : (AGV -> AGV -> bool) -> list AGV -> list AGV.
Hypothesis sortSlice_perm :
  forall less s, Permutation (sortSlice less s) s.
Hypothesis sortSlice_sorted :
  forall less s, strictWeakOrder less ->
                 StronglySorted (fun a b => less b a = false) (sortSlice less s).

(** X13: every event [DetectCollisionsWithKDTree] returns is the event
    [DetectCollisionWith] finds for two vehicles of the fleet with different
    ids that are at most [radius] apart, and no two events are about the
    same unordered pair of ids. *)
Theorem X13_DetectCollisionsWithKDTree_events :
  forall (fleet : list AGV) (tol radius : R),
    let events := fst (DetectCollisionsWithKDTree sortSlice fleet tol radius) in
    (forall e, In e events ->
               In (AGV1 e) fleet /\ In (AGV2 e) fleet /\
               Id (AGV1 e) <> Id (AGV2 e) /\
               distance (AGV1 e) (AGV2 e) <= radius /\
               DetectCollisionWith (AGV1 e) (AGV2 e) tol = Some e) /\
    ForallOrdPairs (fun e1 e2 => ~ samePair e1 e2) events.
Proof.
  intros fleet tol radius events. subst events.
  rewrite DetectCollisionsWithKDTree_events.
  destruct (buildKDTree_spec sortSlice sortSlice_perm sortSlice_sorted
              (length fleet) fleet 0 (Nat.le_refl _)) as (Hel & _ & Hsl).
  destruct (DetectCollisions_loops (fst (buildKDTree sortSlice fleet 0))
              (snd (buildKDTree sortSlice fleet 0)) tol radius) as [Hev Hpairs].
  split; [| exact Hpairs].
  intros e He. destruct (Hev e He) as (H1 & H2 & Hdet).
  apply rangeSearch_sound in H2. destruct H2 as (Hin & Hid & Hd).
  split; [eapply Permutation_in; [exact Hsl | exact H1] |].
  split; [eapply Permutation_in; [exact Hel | exact Hin] |].
  split; [congruence |]. split; [rewrite distance_sym; exact Hd | exact Hdet].
Qed.

(** X14, in exact real arithmetic (no coordinate is NaN) and for any
    [sort.Slice] that permutes and orders the slice: in a fleet with
    pairwise distinct ids no close pair is skipped: for two vehicles at most
    [radius] apart, either an event for the pair is returned, or
    [DetectCollisionWith], asked in one of the two directions, finds no
    collision. *)
Theorem X14_DetectCollisionsWithKDTree_covers :
  forall (fleet : list AGV) (tol radius : R) (a b : AGV),
    List.NoDup (map Id fleet) ->
    In a fleet -> In b fleet -> Id a <> Id b ->
    distance a b <= radius ->
    (exists e, In e (fst (DetectCollisionsWithKDTree sortSlice fleet tol radius)) /\
               ((AGV1 e = a /\ AGV2 e = b) \/ (AGV1 e = b /\ AGV2 e = a))) \/
    DetectCollisionWith a b tol = None \/
    DetectCollisionWith b a tol = None.
Proof.
  intros fleet tol radius a b Hnd Ha Hb Hid Hd.
  rewrite DetectCollisionsWithKDTree_events.
  destruct (buildKDTree_spec sortSlice sortSlice_perm sortSlice_sorted
              (length fleet) fleet 0 (Nat.le_refl _)) as (Hel & Hord & Hsl).
  set (root := fst (buildKDTree sortSlice fleet 0)) in *.
  set (slice := snd (buildKDTree sortSlice fleet 0)) in *.
  destruct (DetectCollisions_loops_cover root slice tol radius) as [Hseen Hcov].
  assert (Hfleet : forall agv other,
             In agv slice -> In other (rangeSearch root agv radius []) ->
             In agv fleet /\ In other fleet).
  { intros agv other H1 H2. apply rangeSearch_sound in H2.
    destruct H2 as (Hin & _ & _). split.
    - eapply Permutation_in; [exact Hsl | exact H1].
    - eapply Permutation_in; [exact Hel | exact Hin]. }
  assert (Ha' : In a slice)
    by (eapply Permutation_in; [apply Permutation_sym; exact Hsl | exact Ha]).
  assert (Hb' : In b (rangeSearch root a radius [])).
  { apply rangeSearch_complete; [exact Hord | | congruence |].
    - eapply Permutation_in; [apply Permutation_sym; exact Hel | exact Hb].
    - rewrite distance_sym. exact Hd. }
  specialize (Hcov a b Ha' Hb'). apply orb_true_iff in Hcov.
  destruct Hcov as [Hc | Hc];
    destruct (Hseen _ _ Hc) as (agv & other & H1 & H2 & Hx & Hy & Hres);
    destruct (Hfleet agv other H1 H2) as [Hf1 Hf2].
  - assert (agv = a) by (apply (NoDup_map_Id_inj fleet Hnd); assumption).
    assert (other = b) by (apply (NoDup_map_Id_inj fleet Hnd); assumption).
    subst agv other.
    destruct Hres as [(e & He & E1 & E2) | Hnone]; [left | right; left; exact Hnone].
    exists e. split; [exact He | left; split; assumption].
  - assert (agv = b) by (apply (NoDup_map_Id_inj fleet Hnd); assumption).
    assert (other = a) by (apply (NoDup_map_Id_inj fleet Hnd); assumption).
    subst agv other.
    destruct Hres as [(e & He & E1 & E2) | Hnone]; [left | right; right; exact Hnone].
    exists e. split; [exact He | right; split; assumption].
Qed.

Lemma buildKDTree_height_lt (h : nat) :
  forall (agvs : list AGV) (depth : Z),
    (length agvs < 2 ^ h)%nat ->
    (height (fst (buildKDTree sortSlice agvs depth)) <= h)%nat.
Proof.
  induction h as [| h IH]; intros agvs depth Hlen;
    rewrite (buildKDTree_unfold sortSlice sortSlice_perm sortSlice_sorted).
  - destruct agvs; [simpl; lia | simpl in Hlen; lia].
  - destruct agvs as [| a agvs']; [simpl; lia |].
    cbn [length Nat.eqb]. cbv zeta. cbn [fst height].
    set (s := sortSlice (kdLess (Z.rem depth 2)) (a :: agvs')) in *.
    assert (Hs : length s = length (a :: agvs'))
      by (apply Permutation_length, sortSlice_perm).
    rewrite Nat.pow_succ_r' in Hlen.
    assert (Hhalf : (length s / 2 < 2 ^ h)%nat)
      by (apply Nat.Div0.div_lt_upper_bound; lia).
    pose proof (Nat.div_mod_eq (length s) 2) as Hdm.
    pose proof (Nat.mod_upper_bound (length s) 2 ltac:(lia)) as Hmod.
    apply le_n_S. apply Nat.max_lub; apply IH.
    + rewrite length_firstn. lia.
    + rewrite length_skipn. lia.
Qed.

(** X15, in exact real arithmetic (no coordinate is NaN) and for any
    [sort.Slice] that permutes and orders the slice: the tree [buildKDTree]
    makes holds the vehicles of the slice, each as often as the slice does,
    keeps on every node's split coordinate the left subtree not above and
    the right subtree not below the node, and has at most [log2 n + 1]
    levels for [n] vehicles. *)
Theorem X15_buildKDTree_tree :
  forall (agvs : list AGV) (depth : Z),
    let root := fst (buildKDTree sortSlice agvs depth) in
    Permutation (elements root) agvs /\
    kdOrdered root /\
    (height root <= S (Nat.log2 (length agvs)))%nat.
Proof.
  intros agvs depth root.
  destruct (buildKDTree_spec sortSlice sortSlice_perm sortSlice_sorted
              (length agvs) agvs depth (Nat.le_refl _)) as (Hel & Hord & _).
  split; [exact Hel |]. split; [exact Hord |].
  apply buildKDTree_height_lt.
  destruct (length agvs) as [| n]; [simpl; lia |].
  apply Nat.log2_spec. lia.
Qed.

End FleetDetector.

Lemma X13_DetectCollisionsWithKDTree_events_witness :
  let fleet := [exampleB 2; exampleA 1] in
  let events := fst (DetectCollisionsWithKDTree insertionSort fleet 1 100) in
  (forall e, In e events ->
             In (AGV1 e) fleet /\ In (AGV2 e) fleet /\
             Id (AGV1 e) <> Id (AGV2 e) /\
             distance (AGV1 e) (AGV2 e) <= 100 /\
             DetectCollisionWith (AGV1 e) (AGV2 e) 1 = Some e) /\
  ForallOrdPairs (fun e1 e2 => ~ samePair e1 e2) events.
Proof.
  intros fleet.
  exact (X13_DetectCollisionsWithKDTree_events insertionSort insertionSort_perm
           insertionSort_sorted fleet 1 100).
Defined.

Lemma X14_DetectCollisionsWithKDTree_covers_witness :
  let fleet := [exampleB 2; exampleA 1] in
  (exists e, In e (fst (DetectCollisionsWithKDTree insertionSort fleet 1 100)) /\
             ((AGV1 e = exampleA 1 /\ AGV2 e = exampleB 2) \/
              (AGV1 e = exampleB 2 /\ AGV2 e = exampleA 1))) \/
  DetectCollisionWith (exampleA 1) (exampleB 2) 1 = None \/
  DetectCollisionWith (exampleB 2) (exampleA 1) 1 = None.
Proof.
  intros fleet.
  apply (X14_DetectCollisionsWithKDTree_covers insertionSort insertionSort_perm
           insertionSort_sorted fleet 1 100 (exampleA 1) (exampleB 2)).
  - simpl. repeat constructor; simpl; intuition lia.
  - right. left. reflexivity.
  - left. reflexivity.
  - simpl. lia.
  - rewrite (proj1 (example_distance 1 2)). lra.
Defined.

Lemma X15_buildKDTree_tree_witness :
  let root := fst (buildKDTree insertionSort [exampleB 2; exampleA 1] 0) in
  Permutation (elements root) [exampleB 2; exampleA 1] /\
  kdOrdered root /\
  (height root <= S (Nat.log2 (length [exampleB 2; exampleA 1])))%nat.
Proof.
  exact (X15_buildKDTree_tree insertionSort insertionSort_perm
           insertionSort_sorted [exampleB 2; exampleA 1] 0).
Defined.

(* ================================================================= *)
(** * Further properties of the path tracker *)

Lemma map_at_seq_skipn (l : list Point) :
  forall k, map (at_ l) (seq k (length l - k)) = skipn k l.
Proof.
  induction l as [| p l IH]; intros k.
  - destruct k; reflexivity.
  - destruct k as [| k].
    + specialize (IH 0%nat). rewrite Nat.sub_0_r in *.
      cbn [length seq map skipn] in *. f_equal.
      rewrite <- seq_shift, map_map. exact IH.
    + cbn [length Nat.sub skipn]. rewrite <- IH.
      rewrite <- seq_shift, map_map. reflexivity.
Qed.

(** The projection loop of [GenerateSubPath]: [minDist] bounds the
    distance to every projection visited; either nothing was taken, or
    [proj] is the projection on segment [segIdx], [minDist] its distance,
    and the segments visited before [segIdx] are strictly farther. *)
Lemma GenerateSubPath_loop_min (pose : Pose) (basePath : list Point)
    (idx : list nat) :
  let proj := fun i =>
    fst (projectPointOnSegment pose
           (mkSegment (at_ basePath i) (at_ basePath (i + 1)))) in
  let d := fun i => getDistance (mkPoint (PoseX pose) (PoseY pose)) (proj i) in
  forall (m : R) (k : nat) (p : Point),
    let '(m', k', p') :=
      fold_left (GenerateSubPath_step pose basePath) idx (m, k, p) in
    (forall i, In i idx -> m' <= d i) /\ m' <= m /\
    ((m', k', p') = (m, k, p) \/
     (m' < m /\ In k' idx /\ p' = proj k' /\ m' = d k')).
Proof.
  intros proj d. induction idx as [| i idx IH]; intros m k p; cbn [fold_left].
  - split; [intros i [] |]. split; [lra | left; reflexivity].
  - assert (Hstep : GenerateSubPath_step pose basePath (m, k, p) i =
                    if decide (d i < m) then (d i, i, proj i) else (m, k, p))
      by reflexivity.
    rewrite Hstep. clear Hstep.
    destruct (decide (d i < m)) as [Hlt | Hge].
    + specialize (IH (d i) i (proj i)).
      destruct (fold_left _ idx _) as [[m' k'] p'].
      destruct IH as (Hall & Hle & Hcase).
      split; [intros j [<- | Hj]; [exact Hle | auto] |]. split; [lra |].
      right. destruct Hcase as [Heq | (Hm & Hin & Hp & Hd)].
      * injection Heq as -> -> ->. repeat split; auto. left. reflexivity.
      * repeat split; auto; [lra | right; exact Hin].
    + specialize (IH m k p).
      destruct (fold_left _ idx _) as [[m' k'] p'].
      destruct IH as (Hall & Hle & Hcase).
      split; [intros j [<- | Hj]; [lra | auto] |]. split; [exact Hle |].
      destruct Hcase as [Heq | (Hm & Hin & Hp & Hd)]; [left; exact Heq |].
      right. repeat split; auto. right. exact Hin.
Qed.

(** The projection loop over the segments [s], [s+1], ...: when something
    was taken, every segment before [segIdx] is strictly farther. *)
Lemma GenerateSubPath_loop_first (pose : Pose) (basePath : list Point) :
  let proj := fun i =>
    fst (projectPointOnSegment pose
           (mkSegment (at_ basePath i) (at_ basePath (i + 1)))) in
  let d := fun i => getDistance (mkPoint (PoseX pose) (PoseY pose)) (proj i) in
  forall (n s : nat) (m : R) (k : nat) (p : Point),
    let '(m', k', p') :=
      fold_left (GenerateSubPath_step pose basePath) (seq s n) (m, k, p) in
    m' < m -> forall i, (s <= i < k')%nat -> m' < d i.
Proof.
  intros proj d. induction n as [| n IH]; intros s m k p; cbn [seq fold_left].
  - intros Hlt. lra.
  - assert (Hstep : GenerateSubPath_step pose basePath (m, k, p) s =
                    if decide (d s < m) then (d s, s, proj s) else (m, k, p))
      by reflexivity.
    rewrite Hstep. clear Hstep.
    destruct (decide (d s < m)) as [Hlt | Hge].
    + specialize (IH (S s) (d s) s (proj s)).
      pose proof (GenerateSubPath_loop_min pose basePath (seq (S s) n)
                    (d s) s (proj s)) as Hmin. cbv zeta in Hmin.
      destruct (fold_left _ (seq (S s) n) _) as [[m' k'] p'].
      destruct Hmin as (_ & _ & Hcase).
      intros _ i Hi. destruct Hcase as [Heq | (Hm & _)].
      * injection Heq as -> -> ->. lia.
      * destruct (Nat.eq_dec i s) as [-> | Hne]; [exact Hm |].
        apply IH; [exact Hm | lia].
    + specialize (IH (S s) m k p).
      pose proof (GenerateSubPath_loop_min pose basePath (seq (S s) n) m k p)
        as Hmin. cbv zeta in Hmin.
      destruct (fold_left _ (seq (S s) n) _) as [[m' k'] p'].
      intros Hlt i Hi.
      destruct (Nat.eq_dec i s) as [-> | Hne]; [lra |].
      apply IH; [exact Hlt | lia].
Qed.

Lemma projectPointOnSegment_spec (pose : Pose) (seg : Segment) :
  liesOn (fst (projectPointOnSegment pose seg)) seg /\
  forall q, liesOn q seg ->
            getDistance (mkPoint (PoseX pose) (PoseY pose))
                        (fst (projectPointOnSegment pose seg))
            <= getDistance (mkPoint (PoseX pose) (PoseY pose)) q.
Proof.
  rewrite projectPointOnSegment_closest. apply closestPointOnSegment_spec.
Qed.

Lemma liesOn_start (seg : Segment) : liesOn (SegStart seg) seg.
Proof. exists 0. split; [lra |]. split; ring. Qed.

(** What [GenerateSubPath] returns on a basis of at least two points that
    starts less than [MaxFloat64] away from the vehicle. *)
Lemma GenerateSubPath_spec (agv : AGV) :
  let base := basePathOf agv in
  let pos := mkPoint (PoseX (APose agv)) (PoseY (APose agv)) in
  let proj := fun i =>
    fst (projectPointOnSegment (APose agv)
           (mkSegment (at_ base i) (at_ base (i + 1)))) in
  (2 <= length base)%nat ->
  getDistance pos (at_ base 0) < MaxFloat64 ->
  exists k,
    (k < length base - 1)%nat /\
    snd (GenerateSubPath agv) = proj k :: skipn (S k) base /\
    getDistance pos (proj k) < MaxFloat64 /\
    (forall i, (i < length base - 1)%nat ->
               getDistance pos (proj k) <= getDistance pos (proj i)) /\
    (forall i, (i < k)%nat -> getDistance pos (proj k) < getDistance pos (proj i)).
Proof.
  intros base pos proj Hlen Hnear.
  unfold GenerateSubPath. fold (basePathOf agv). fold base.
  set (agv0 := if negb (InitDone agv) || (length (SubPath agv) <? 2)%nat
               then set_InitDone true agv else agv).
  assert (Hpose : APose agv0 = APose agv)
    by (subst agv0; destruct (negb _ || _); reflexivity).
  cbv zeta. rewrite Hpose.
  destruct (length base <? 2)%nat eqn:E; [apply Nat.ltb_lt in E; lia |].
  pose proof (GenerateSubPath_loop_min (APose agv) base
                (seq 0 (length base - 1)) MaxFloat64 0%nat zeroPoint) as Hloop.
  pose proof (GenerateSubPath_loop_first (APose agv) base
                (length base - 1) 0 MaxFloat64 0%nat zeroPoint) as Hfirst.
  cbv beta zeta in Hloop, Hfirst.
  destruct (fold_left _ _ _) as [[m' k'] p']. cbn [snd].
  destruct Hloop as (Hall & _ & Hcase).
  assert (H0 : m' <= getDistance pos (proj 0%nat))
    by (apply Hall, in_seq; lia).
  assert (H0' : getDistance pos (proj 0%nat) <= getDistance pos (at_ base 0)).
  { apply (projectPointOnSegment_spec (APose agv)
             (mkSegment (at_ base 0) (at_ base (0 + 1)))).
    apply (liesOn_start (mkSegment (at_ base 0) (at_ base (0 + 1)))). }
  destruct Hcase as [Heq | (Hm & Hin & Hp & Hd)].
  { injection Heq as -> _ _. exfalso. fold pos in H0. lra. }
  apply in_seq in Hin. exists k'. split; [lia |].
  split.
  - rewrite Hp. f_equal. rewrite Nat.add_1_r.
    replace (length base - S k')%nat with (length base - S k')%nat by reflexivity.
    apply map_at_seq_skipn.
  - assert (Hd' : m' = getDistance pos (proj k')) by exact Hd.
    rewrite <- Hd'. split; [lra |]. split.
    + intros i Hi. apply (Hall i), in_seq. lia.
    + intros i Hi. apply (Hfirst Hm i). lia.
Qed.




(** The projection [h] of a pose on a segment, with its parameter [t]: short
    of the end of the segment, moving on towards the end does not bring [h]
    nearer to the pose. *)
Lemma projectPointOnSegment_first_order (pose : Pose) (seg : Segment) :
  let h := fst (projectPointOnSegment pose seg) in
  let vx := X (SegEnd seg) - X (SegStart seg) in
  let vy := Y (SegEnd seg) - Y (SegStart seg) in
  exists t,
    0 <= t <= 1 /\
    X h = X (SegStart seg) + t * vx /\ Y h = Y (SegStart seg) + t * vy /\
    (t < 1 -> (PoseX pose - X h) * vx + (PoseY pose - Y h) * vy <= 0).
Proof.
  intros h vx vy. subst h. unfold projectPointOnSegment, dot. fold vx vy.
  set (wx := PoseX pose - X (SegStart seg)).
  set (wy := PoseY pose - Y (SegStart seg)).
  cbv zeta.
  destruct (decide (vx * vx + vy * vy = 0)) as [Hz | Hnz]; cbn [fst].
  - exists 0. apply sum_squares_0 in Hz. destruct Hz as [Hx Hy].
    split; [lra |]. split; [ring |]. split; [ring |].
    intros _. rewrite Hx, Hy. lra.
  - set (m := vx * vx + vy * vy) in *.
    assert (Hm : 0 < m) by (subst m; nra).
    set (k := wx * vx + wy * vy).
    assert (Hk : k / m * m = k) by (field; lra).
    set (t0 := k / m) in *.
    set (t := if decide ((if decide (t0 < 0) then 0 else t0) > 1) then 1
              else if decide (t0 < 0) then 0 else t0).
    assert (Ht : 0 <= t <= 1 /\ (t < 1 -> k - t * m <= 0)).
    { subst t. clearbody t0 k m.
      destruct (decide (t0 < 0)) as [Hneg | Hnn].
      - destruct (decide (0 > 1)); [lra |]. split; [lra |]. intros _. nra.
      - destruct (decide (t0 > 1)); [split; lra |]. split; [lra |].
        intros _. rewrite <- Hk. lra. }
    exists t. cbn [X Y]. destruct Ht as [Ht01 Hopt].
    split; [exact Ht01 |]. split; [reflexivity |]. split; [reflexivity |].
    intros Hlt. specialize (Hopt Hlt).
    replace ((PoseX pose - (X (SegStart seg) + t * vx)) * vx +
             (PoseY pose - (Y (SegStart seg) + t * vy)) * vy)
      with (k - t * m) by (subst k m wx wy; ring).
    exact Hopt.
Qed.

(** Projecting once more, on what is left of the segment after the
    projection, gives the projection again. *)
Lemma projectPointOnSegment_again (pose : Pose) (seg : Segment) :
  let h := fst (projectPointOnSegment pose seg) in
  fst (projectPointOnSegment pose (mkSegment h (SegEnd seg))) = h.
Proof.
  intros h.
  destruct (projectPointOnSegment_first_order pose seg)
    as (t & Ht & Hx & Hy & Hopt).
  fold h in Hx, Hy, Hopt. cbv zeta in Hx, Hy, Hopt. clearbody h.
  set (vx := X (SegEnd seg) - X (SegStart seg)) in *.
  set (vy := Y (SegEnd seg) - Y (SegStart seg)) in *.
  unfold projectPointOnSegment, dot. cbn [SegStart SegEnd]. cbv zeta.
  assert (Hvx : X (SegEnd seg) - X h = (1 - t) * vx) by (subst vx; lra).
  assert (Hvy : Y (SegEnd seg) - Y h = (1 - t) * vy) by (subst vy; lra).
  set (vx' := X (SegEnd seg) - X h) in *.
  set (vy' := Y (SegEnd seg) - Y h) in *.
  destruct (decide (vx' * vx' + vy' * vy' = 0)) as [Hz | Hnz]; [reflexivity |].
  set (m' := vx' * vx' + vy' * vy') in *.
  assert (Hm' : 0 < m') by (subst m'; nra).
  assert (Hlt : t < 1).
  { destruct (Rlt_dec t 1) as [H | H]; [exact H | exfalso].
    assert (t = 1) by lra. subst t. apply Hnz. subst m'. rewrite Hvx, Hvy. ring. }
  specialize (Hopt Hlt).
  set (k' := (PoseX pose - X h) * vx' + (PoseY pose - Y h) * vy').
  assert (Hk' : k' <= 0).
  { subst k'. rewrite Hvx, Hvy.
    replace ((PoseX pose - X h) * ((1 - t) * vx) + (PoseY pose - Y h) * ((1 - t) * vy))
      with ((1 - t) * ((PoseX pose - X h) * vx + (PoseY pose - Y h) * vy)) by ring.
    clearbody vx vy. nra. }
  assert (Hq : k' / m' * m' = k') by (field; lra).
  set (t0 := k' / m') in *.
  assert (Ht0 : t0 <= 0) by (clearbody t0 k' m'; nra).
  cbn [fst]. clearbody t0.
  destruct (decide (t0 < 0)) as [Hneg | Hnn].
  - destruct (decide (0 > 1)); [lra |]. apply Point_eq; cbn [X Y]; ring.
  - destruct (decide (t0 > 1)); [lra |].
    assert (t0 = 0) by lra. subst t0. apply Point_eq; cbn [X Y]; ring.
Qed.

Lemma GenerateSubPath_state (agv : AGV) :
  (2 <= length (basePathOf agv))%nat ->
  fst (GenerateSubPath agv) =
  mkAGV (Id agv) (Width agv) (APose agv) (Speed agv) (Path agv)
        (snd (GenerateSubPath agv)) true.
Proof.
  intros Hlen. unfold GenerateSubPath, basePathOf in *.
  destruct (negb (InitDone agv) || (length (SubPath agv) <? 2)%nat) eqn:Hreb.
  - destruct (length (Path agv) <? 2)%nat eqn:E; [apply Nat.ltb_lt in E; lia |].
    destruct (fold_left _ _ _) as [[m k] p]. reflexivity.
  - apply orb_false_elim in Hreb. destruct Hreb as [Hinit _].
    apply negb_false_iff in Hinit.
    destruct (length (SubPath agv) <? 2)%nat eqn:E; [apply Nat.ltb_lt in E; lia |].
    destruct (fold_left _ _ _) as [[m k] p]. cbn [fst snd].
    unfold set_SubPath. rewrite Hinit. reflexivity.
Qed.

(** X17, in exact real arithmetic: once [GenerateSubPath] has run on a
    basis of at least two points that starts less than [MaxFloat64] away
    from the vehicle, running it again with the pose unchanged changes
    nothing: it returns the same sub-path and leaves the vehicle as the
    first call left it. *)
Theorem X17_GenerateSubPath_idempotent :
  forall agv : AGV,
    (2 <= length (basePathOf agv))%nat ->
    getDistance (mkPoint (PoseX (APose agv)) (PoseY (APose agv)))
                (at_ (basePathOf agv) 0) < MaxFloat64 ->
    GenerateSubPath (fst (GenerateSubPath agv)) = GenerateSubPath agv.
Proof.
  intros agv Hlen Hnear.
  destruct (GenerateSubPath_spec agv Hlen Hnear) as (k & Hk & Hsub & Hdk & Hmin & _).
  cbv zeta in Hsub, Hdk, Hmin.
  pose proof (GenerateSubPath_state agv Hlen) as Hst.
  destruct (GenerateSubPath_length agv) as [_ Hlong].
  destruct (Hlong Hlen) as [Hlen1 _].
  set (base := basePathOf agv) in *.
  set (pos := mkPoint (PoseX (APose agv)) (PoseY (APose agv))) in *.
  set (sub1 := snd (GenerateSubPath agv)) in *.
  set (agv1 := fst (GenerateSubPath agv)) in *.
  assert (Hpose1 : APose agv1 = APose agv) by (rewrite Hst; reflexivity).
  assert (Hbase1 : basePathOf agv1 = sub1).
  { rewrite Hst. unfold basePathOf. cbn [InitDone SubPath negb orb].
    destruct (length sub1 <? 2)%nat eqn:E; [apply Nat.ltb_lt in E; lia | reflexivity]. }
  assert (Hat0 : at_ sub1 0 =
                 fst (projectPointOnSegment (APose agv)
                        (mkSegment (at_ base k) (at_ base (k + 1)))))
    by (rewrite Hsub; reflexivity).
  assert (HatS : forall j, at_ sub1 (S j) = at_ base (S k + j)).
  { intros j. rewrite Hsub. unfold at_. cbn [nth]. apply nth_skipn. }
  assert (Hlen1' : (2 <= length (basePathOf agv1))%nat) by (rewrite Hbase1; lia).
  assert (Hnear1 : getDistance (mkPoint (PoseX (APose agv1)) (PoseY (APose agv1)))
                               (at_ (basePathOf agv1) 0) < MaxFloat64).
  { rewrite Hbase1, Hpose1, Hat0. exact Hdk. }
  destruct (GenerateSubPath_spec agv1 Hlen1' Hnear1)
    as (k2 & Hk2 & Hsub2 & _ & _ & Hfirst2).
  cbv zeta in Hsub2, Hfirst2.
  rewrite Hbase1 in Hsub2, Hfirst2, Hk2. rewrite Hpose1 in Hsub2, Hfirst2.
  fold pos in Hfirst2.
  assert (Hlensub : length sub1 = (length base - k)%nat).
  { rewrite Hsub. cbn [length]. rewrite length_skipn. lia. }
  (* the first segment of the sub-path gives the head again *)
  assert (Hproj0 : fst (projectPointOnSegment (APose agv)
                          (mkSegment (at_ sub1 0) (at_ sub1 (0 + 1)))) = at_ sub1 0).
  { change (at_ sub1 (0 + 1)) with (at_ sub1 1). rewrite (HatS 0%nat).
    replace (S k + 0)%nat with (k + 1)%nat by lia. rewrite Hat0.
    apply (projectPointOnSegment_again (APose agv)
             (mkSegment (at_ base k) (at_ base (k + 1)))). }
  assert (Hk20 : k2 = 0%nat).
  { destruct k2 as [| j]; [reflexivity | exfalso].
    specialize (Hfirst2 0%nat ltac:(lia)). rewrite Hproj0, Hat0 in Hfirst2.
    rewrite (HatS j) in Hfirst2.
    replace (S j + 1)%nat with (S (S j)) in Hfirst2 by lia.
    rewrite (HatS (S j)) in Hfirst2.
    replace (S k + S j)%nat with (S k + j + 1)%nat in Hfirst2 by lia.
    specialize (Hmin (S k + j)%nat ltac:(lia)). lra. }
  subst k2. rewrite Hproj0 in Hsub2.
  assert (Hsame : snd (GenerateSubPath agv1) = sub1).
  { assert (Hgen : forall l : list Point,
               (2 <= length l)%nat -> at_ l 0 :: skipn 1 l = l)
      by (intros [| ? ?] Hl; [simpl in Hl; lia | reflexivity]).
    rewrite Hsub2. apply Hgen. lia. }
  rewrite (surjective_pairing (GenerateSubPath agv1)).
  rewrite (surjective_pairing (GenerateSubPath agv)).
  fold agv1 sub1. rewrite Hsame. f_equal.
  rewrite (GenerateSubPath_state agv1 Hlen1'), Hsame.
  rewrite Hst. reflexivity.
Qed.

Lemma X17_GenerateSubPath_idempotent_witness :
  GenerateSubPath (fst (GenerateSubPath (exampleA 1))) = GenerateSubPath (exampleA 1).
Proof.
  apply (X17_GenerateSubPath_idempotent (exampleA 1)).
  - simpl. lia.
  - unfold at_; simpl. rewrite getDistance_same. apply MaxFloat64_pos.
Defined.









(* ================================================================= *)
(** * Further properties of the spatial index *)

(** X20: on any tree, ordered or not, [rangeSearch] only appends to
    [results]; every vehicle it appends is stored in the tree, has an id
    other than the target's and lies at most [r] from the target; with a
    negative [r] it appends nothing; and every vehicle found with [r] is
    found with any larger radius as well. *)
Theorem X20_rangeSearch_any_tree :
  forall (node : KDNode) (target : AGV) (r : R) (results : list AGV),
    exists appended : list AGV,
      rangeSearch node target r results = results ++ appended /\
      (forall v, In v appended ->
                 In v (elements node) /\ Id v <> Id target /\ distance v target <= r) /\
      (r < 0 -> appended = []) /\
      (forall r' v, r <= r' -> In v appended ->
                    In v (rangeSearch node target r' [])).
Proof.
  intros node target r results. exists (rangeSearch node target r []).
  split; [apply rangeSearch_app |]. split; [apply rangeSearch_sound |]. split.
  - intros Hneg. destruct (rangeSearch node target r []) as [| v l] eqn:E; [reflexivity |].
    exfalso. destruct (rangeSearch_sound target r node v) as (_ & _ & Hd).
    { rewrite E. left. reflexivity. }
    unfold distance in Hd. pose proof (Hypot_nonneg
      (PoseX (APose v) - PoseX (APose target))
      (PoseY (APose v) - PoseY (APose target))). cbv zeta in Hd. lra.
  - intros r' v Hr. induction node as [| agv lhs IHl rhs IHr depth]; [intros [] |].
    rewrite !rangeSearch_cons. intros Hv.
    apply in_app_or in Hv. apply in_or_app. destruct Hv as [Hv | Hv].
    + left. destruct (decide (Id agv <> Id target /\ distance agv target <= r))
        as [[Hid Hd] | _]; [| destruct Hv].
      destruct (decide (Id agv <> Id target /\ distance agv target <= r'))
        as [_ | Hn]; [exact Hv |].
      exfalso. apply Hn. split; [exact Hid | lra].
    + right.
      destruct (decide (splitCoord depth target - splitCoord depth agv <= 0));
        apply in_app_or in Hv; apply in_or_app;
        (destruct Hv as [Hv | Hv]; [left; auto |]);
        (destruct (decide (Rabs (splitCoord depth target - splitCoord depth agv) <= r))
           as [Hin | _]; [| destruct Hv]);
        (destruct (decide (Rabs (splitCoord depth target - splitCoord depth agv) <= r'))
           as [_ | Hn]; [right; auto | exfalso; apply Hn; lra]).
Qed.

(* ================================================================= *)
(** * Properties of the search radius *)

(** What the loop of [calculateOptimalSearchRadius] leaves in
    [(maxWidth, maxSpeed)]: the largest width and the largest speed seen,
    or the start values where no vehicle exceeds them. *)
Lemma calculateOptimalSearchRadius_loop (agvs : list AGV) :
  forall (w0 s0 : R),
    let st := fold_left calculateOptimalSearchRadius_step agvs (w0, s0) in
    w0 <= fst st /\ s0 <= snd st /\
    (forall a, In a agvs -> Width a <= fst st /\ Speed a <= snd st) /\
    (fst st = w0 \/ exists a, In a agvs /\ Width a = fst st) /\
    (snd st = s0 \/ exists a, In a agvs /\ Speed a = snd st).
Proof.
  induction agvs as [| agv agvs IH]; intros w0 s0.
  - simpl. repeat split; try lra; try (intros a []); left; reflexivity.
  - cbn [fold_left].
    set (w1 := if decide (Width agv > w0) then Width agv else w0).
    set (s1 := if decide (Speed agv > s0) then Speed agv else s0).
    assert (Hstep : calculateOptimalSearchRadius_step (w0, s0) agv = (w1, s1))
      by reflexivity.
    rewrite Hstep. clear Hstep.
    assert (Hw1 : w0 <= w1 /\ Width agv <= w1 /\ (w1 = w0 \/ w1 = Width agv))
      by (subst w1; destruct (decide (Width agv > w0));
          repeat split; try lra; auto).
    assert (Hs1 : s0 <= s1 /\ Speed agv <= s1 /\ (s1 = s0 \/ s1 = Speed agv))
      by (subst s1; destruct (decide (Speed agv > s0));
          repeat split; try lra; auto).
    clearbody w1 s1. specialize (IH w1 s1). cbv zeta in IH |- *.
    destruct (fold_left _ agvs (w1, s1)) as [w s]. cbn [fst snd] in *.
    destruct IH as (Hw & Hs & Hall & Hwc & Hsc).
    destruct Hw1 as (Hw1 & Hw2 & Hw3). destruct Hs1 as (Hs1 & Hs2 & Hs3).
    split; [lra |]. split; [lra |]. split; [| split].
    + intros a [<- | Ha]; [split; lra | apply Hall; exact Ha].
    + destruct Hwc as [-> | (a & Ha & Hwa)].
      * destruct Hw3 as [-> | ->]; [left; reflexivity |].
        right. exists agv. split; [left; reflexivity | reflexivity].
      * right. exists a. split; [right; exact Ha | exact Hwa].
    + destruct Hsc as [-> | (a & Ha & Hsa)].
      * destruct Hs3 as [-> | ->]; [left; reflexivity |].
        right. exists agv. split; [left; reflexivity | reflexivity].
      * right. exists a. split; [right; exact Ha | exact Hsa].
Qed.

Lemma calculateOptimalSearchRadius_loop_perm (agvs agvs' : list AGV) :
  (forall a, In a agvs -> In a agvs') ->
  fst (fold_left calculateOptimalSearchRadius_step agvs (0, 0)) <=
    fst (fold_left calculateOptimalSearchRadius_step agvs' (0, 0)) /\
  snd (fold_left calculateOptimalSearchRadius_step agvs (0, 0)) <=
    snd (fold_left calculateOptimalSearchRadius_step agvs' (0, 0)).
Proof.
  intros Hsub.
  pose proof (calculateOptimalSearchRadius_loop agvs 0 0) as H1.
  pose proof (calculateOptimalSearchRadius_loop agvs' 0 0) as H2.
  cbv zeta in H1, H2.
  destruct (fold_left _ agvs (0, 0)) as [w s].
  destruct (fold_left _ agvs' (0, 0)) as [w' s']. cbn [fst snd] in *.
  destruct H1 as (_ & _ & _ & Hw & Hs). destruct H2 as (Hw' & Hs' & Hall' & _ & _).
  split.
  - destruct Hw as [-> | (a & Ha & <-)]; [exact Hw' | apply Hall', Hsub, Ha].
  - destruct Hs as [-> | (a & Ha & <-)]; [exact Hs' | apply Hall', Hsub, Ha].
Qed.

(** X21: for a time range that is not negative, the radius of
    [calculateOptimalSearchRadius] is at least the collision threshold and,
    for every vehicle of the fleet, at least one and a half times its width
    plus the distance it travels in the time range plus the threshold; for
    any time range the radius does not depend on the order of the fleet. *)
Theorem X21_calculateOptimalSearchRadius :
  forall (agvs : list AGV) (timeRange collisionThreshold : R),
    let radius := calculateOptimalSearchRadius agvs timeRange collisionThreshold in
    (0 <= timeRange ->
     collisionThreshold <= radius /\
     forall a, In a agvs ->
               Width a + Speed a * timeRange + collisionThreshold + Width a * 0.5
               <= radius) /\
    (forall agvs', Permutation agvs agvs' ->
       calculateOptimalSearchRadius agvs' timeRange collisionThreshold = radius).
Proof.
  intros agvs timeRange collisionThreshold radius. subst radius. split.
  - intros Ht. unfold calculateOptimalSearchRadius.
    pose proof (calculateOptimalSearchRadius_loop agvs 0 0) as H. cbv zeta in H.
    destruct (fold_left _ agvs (0, 0)) as [w s]. cbn [fst snd] in H.
    destruct H as (Hw & Hs & Hall & _ & _).
    pose proof (Rmult_le_pos s timeRange Hs Ht) as Hst.
    split; [lra |].
    intros a Ha. destruct (Hall a Ha) as [Hwa Hsa].
    pose proof (Rmult_le_compat_r timeRange (Speed a) s Ht Hsa). lra.
  - intros agvs' Hperm. unfold calculateOptimalSearchRadius.
    destruct (calculateOptimalSearchRadius_loop_perm agvs agvs') as [H1 H2].
    { intros a. apply Permutation_in. exact Hperm. }
    destruct (calculateOptimalSearchRadius_loop_perm agvs' agvs) as [H3 H4].
    { intros a. apply Permutation_in. apply Permutation_sym. exact Hperm. }
    destruct (fold_left _ agvs (0, 0)) as [w s].
    destruct (fold_left _ agvs' (0, 0)) as [w' s']. cbn [fst snd] in *.
    replace w' with w by lra. replace s' with s by lra. reflexivity.
Qed.




(* ================================================================= *)
(** * Properties over binary64 *)

Import Binary64.

#[local] Set Warnings "-inexact-float".
Local Open Scope float_scope.

(** ** Comparisons and arithmetic of binary64

    The primitive operations are specified by [FloatAxioms] as the
    operations of [SpecFloat] on [Prim2SF]. *)

Lemma SFcompare_antisym (x y : spec_float) :
  SFcompare y x = option_map CompOpp (SFcompare x y).
Proof.
  destruct x as [sx | sx | | sx mx ex], y as [sy | sy | | sy my ey];
    try reflexivity; try (destruct sx; reflexivity);
    try (destruct sy; reflexivity); try (destruct sx, sy; reflexivity).
  unfold SFcompare.
  assert (Hm : Pos.compare_cont Eq my mx = CompOpp (Pos.compare_cont Eq mx my))
    by (rewrite (Pos.compare_cont_antisym mx my Eq); reflexivity).
  destruct sx, sy; try reflexivity; cbn [option_map]; f_equal;
    rewrite (Z.compare_antisym ex ey), Hm;
    destruct (ex ?= ey)%Z, (Pos.compare_cont Eq mx my); reflexivity.
Qed.

Lemma is_nan_spec (x : float) :
  is_nan x = true <-> Prim2SF x = S754_nan.
Proof.
  unfold is_nan. rewrite FloatAxioms.eqb_spec. unfold SFeqb.
  destruct (Prim2SF x) as [s | s | | s m e] eqn:E; cbn.
  - split; [discriminate | discriminate].
  - destruct s; split; discriminate.
  - split; reflexivity.
  - destruct s; rewrite Z.compare_refl, Pos.compare_cont_refl; cbn; split; discriminate.
Qed.

Lemma is_nan_false_spec (x : float) :
  is_nan x = false <-> Prim2SF x <> S754_nan.
Proof.
  rewrite <- is_nan_spec. destruct (is_nan x); split; congruence.
Qed.

(** Among numbers, [x <= y] is the negation of [y < x]. *)
Lemma leb_negb_ltb (x y : float) :
  is_nan x = false -> is_nan y = false -> (x <=? y) = negb (y <? x).
Proof.
  intros Hx Hy. rewrite FloatAxioms.leb_spec, FloatAxioms.ltb_spec.
  unfold SFleb, SFltb. rewrite (SFcompare_antisym (Prim2SF x) (Prim2SF y)).
  apply is_nan_false_spec in Hx, Hy.
  destruct (SFcompare (Prim2SF x) (Prim2SF y)) as [[| |] |] eqn:E; try reflexivity.
  exfalso.
  destruct (Prim2SF x) as [sx | sx | | sx mx ex], (Prim2SF y) as [sy | sy | | sy my ey];
    cbn in E; congruence.
Qed.

(** A comparison with NaN is false. *)
Lemma ltb_nan_l (x y : float) : is_nan x = true -> (x <? y) = false.
Proof.
  intros H. apply is_nan_spec in H. rewrite FloatAxioms.ltb_spec, H. reflexivity.
Qed.

Lemma ltb_nan_r (x y : float) : is_nan y = true -> (x <? y) = false.
Proof.
  intros H. apply is_nan_spec in H. rewrite FloatAxioms.ltb_spec, H.
  unfold SFltb. destruct (Prim2SF x); reflexivity.
Qed.

Lemma shr_1_nonneg (mrs : shr_record) :
  (0 <= shr_m mrs)%Z -> (0 <= shr_m (shr_1 mrs))%Z.
Proof.
  destruct mrs as [m r s]. destruct m as [| p | p]; cbn; intros H;
    try destruct p; cbn; lia.
Qed.

Lemma iter_pos_shr_1_nonneg (p : positive) :
  forall mrs, (0 <= shr_m mrs)%Z ->
              (0 <= shr_m (SpecFloat.iter_pos shr_1 p mrs))%Z.
Proof.
  induction p as [p IH | p IH |]; intros mrs H; cbn.
  - apply IH, IH, shr_1_nonneg, H.
  - apply IH, IH, H.
  - apply shr_1_nonneg, H.
Qed.

Lemma shr_fexp_nonneg (m e : Z) (l : location) :
  (0 <= m)%Z -> (0 <= shr_m (fst (shr_fexp prec emax m e l)))%Z.
Proof.
  intros H. unfold shr_fexp, shr.
  assert (H0 : (0 <= shr_m (shr_record_of_loc m l))%Z)
    by (destruct l as [| []]; exact H).
  destruct (fexp prec emax (Zdigits2 m + e) - e)%Z; cbn [fst]; try exact H0.
  apply iter_pos_shr_1_nonneg, H0.
Qed.

(** Rounding a magnitude never gives NaN and keeps the sign. *)
Lemma binary_round_aux_signed (sx : bool) (mx ex : Z) (lx : location) :
  (0 <= mx)%Z -> signed sx (binary_round_aux prec emax sx mx ex lx).
Proof.
  intros H. unfold binary_round_aux.
  pose proof (shr_fexp_nonneg mx ex lx H) as H1.
  destruct (shr_fexp prec emax mx ex lx) as [mrs' e']. cbn [fst] in H1.
  assert (H2 : (0 <= round_nearest_even (shr_m mrs') (loc_of_shr_record mrs'))%Z).
  { unfold round_nearest_even.
    destruct (loc_of_shr_record mrs') as [| []]; try exact H1; try lia.
    destruct (Z.even (shr_m mrs')); lia. }
  pose proof (shr_fexp_nonneg _ e' loc_Exact H2) as H3.
  destruct (shr_fexp prec emax _ e' loc_Exact) as [mrs'' e'']. cbn [fst] in H3.
  destruct (shr_m mrs'') as [| p | p]; [reflexivity | | lia].
  destruct (e'' <=? emax - prec)%Z; reflexivity.
Qed.

Lemma binary_round_signed (sx : bool) (mx : positive) (ex : Z) :
  signed sx (binary_round prec emax sx mx ex).
Proof.
  unfold binary_round. destruct (shl_align _ _ _) as [mz ez].
  apply binary_round_aux_signed. lia.
Qed.

Lemma is_finite_spec (x : float) : is_finite x = true <-> isFinite x.
Proof.
  unfold is_finite, is_infinity, is_nan, isFinite.
  rewrite !FloatAxioms.eqb_spec, abs_spec. unfold SFeqb.
  change (Prim2SF infinity) with (S754_infinity false).
  destruct (Prim2SF x) as [s | s | | s m e]; cbn;
    rewrite ?Z.compare_refl, ?Pos.compare_cont_refl; cbn; try tauto;
    try (destruct s; cbn; tauto); try (split; [discriminate | tauto]);
    destruct s; cbn; split; try discriminate; tauto.
Qed.

Lemma eqb_zero_spec (x : float) : (x =? 0) = true <-> isZero x.
Proof.
  rewrite FloatAxioms.eqb_spec. unfold SFeqb, isZero.
  change (Prim2SF 0) with (S754_zero false).
  destruct (Prim2SF x) as [s | s | | s m e]; cbn.
  - split; [eauto | reflexivity].
  - destruct s; split; try discriminate; intros [? ?]; discriminate.
  - split; try discriminate; intros [? ?]; discriminate.
  - destruct s; split; try discriminate; intros [? ?]; discriminate.
Qed.

Lemma spec_sub_diag (e : Z) : IntDef.Z.sub e e = 0%Z.
Proof. exact (Z.sub_diag e). Qed.

(** [x - x = +0] for a finite [x]. *)
Lemma sub_diag (x : float) : isFinite x -> x - x = 0.
Proof.
  intros H. apply Prim2SF_inj. rewrite sub_spec. unfold isFinite in H.
  change (Prim2SF 0) with (S754_zero false).
  destruct (Prim2SF x) as [s | s | | s m e]; try contradiction.
  - destruct s; reflexivity.
  - unfold SF64sub, SFsub, shl_align.
    rewrite !spec_sub_diag. reflexivity.
Qed.

Lemma mul_zero_l (z y : float) : isZero z -> isFinite y -> isZero (z * y).
Proof.
  intros [s Hz] Hy. unfold isZero, isFinite in *. rewrite mul_spec, Hz.
  destruct (Prim2SF y) as [sy | sy | | sy my ey]; try contradiction; cbn; eauto.
Qed.

Lemma add_zero (a b : float) : isZero a -> isZero b -> isZero (a + b).
Proof.
  intros [sa Ha] [sb Hb]. unfold isZero. rewrite add_spec, Ha, Hb. cbn.
  destruct sa, sb; eauto.
Qed.

(** The square of a finite number is a number that is not negative. *)
Lemma mul_self_signed (a : float) : isFinite a -> signed false (Prim2SF (a * a)).
Proof.
  unfold isFinite. rewrite mul_spec.
  destruct (Prim2SF a) as [s | s | | s m e]; try contradiction; intros _.
  - cbn. destruct s; reflexivity.
  - unfold SF64mul, SFmul.
    replace false with (xorb s s) by (destruct s; reflexivity).
    apply binary_round_aux_signed. lia.
Qed.

Lemma add_signed (a b : float) :
  signed false (Prim2SF a) -> signed false (Prim2SF b) ->
  signed false (Prim2SF (a + b)).
Proof.
  rewrite add_spec.
  destruct (Prim2SF a) as [sa | sa | | sa ma ea], (Prim2SF b) as [sb | sb | | sb mb eb];
    cbn [signed]; try contradiction; intros -> ->; try reflexivity.
  unfold SF64add, SFadd. cbn [cond_Zopp].
  destruct (shl_align ma ea _) as [m1 e1], (shl_align mb eb _) as [m2 e2].
  cbn [fst Z.add binary_normalize]. apply binary_round_signed.
Qed.

Lemma div_zero_l (z s : float) :
  isZero z -> signed false (Prim2SF s) -> ~ isZero s -> isZero (z / s).
Proof.
  intros [sz Hz] Hs Hnz. unfold isZero in *. rewrite div_spec, Hz.
  destruct (Prim2SF s) as [ss | ss | | ss ms es]; cbn in *; try contradiction; eauto.
  exfalso. eauto.
Qed.

Lemma div_eucl_shiftl (m : positive) :
  IntDef.Z.div_eucl (IntDef.Z.shiftl (Zpos m) 53) (Zpos m) = (2 ^ 53, 0)%Z.
Proof.
  change (Z.div_eucl (Z.shiftl (Zpos m) 53) (Zpos m) = (2 ^ 53, 0)%Z).
  rewrite Z.shiftl_mul_pow2 by lia.
  pose proof (Z.div_eucl_eq (Zpos m * 2 ^ 53) (Zpos m) ltac:(lia)) as H.
  pose proof (Z.mod_pos_bound (Zpos m * 2 ^ 53) (Zpos m) ltac:(lia)) as Hb.
  unfold Z.modulo in Hb.
  destruct (Z.div_eucl (Zpos m * 2 ^ 53) (Zpos m)) as [q r].
  assert (q = 2 ^ 53)%Z by nia. subst q. f_equal. lia.
Qed.

(** [s / s = 1] for a finite [s] other than zero. *)
Lemma div_diag (s : float) :
  (exists sg m e, Prim2SF s = S754_finite sg m e) -> s / s = 1.
Proof.
  intros (sg & m & e & Hs). apply Prim2SF_inj. rewrite div_spec, Hs.
  unfold SF64div, SFdiv, SFdiv_core_binary.
  cbn [Zdigits2]. rewrite !spec_sub_diag.
  change (IntDef.Z.min (fexp prec emax 0) 0) with (-53)%Z.
  change (IntDef.Z.sub 0 (-53))%Z with 53%Z. cbv iota.
  rewrite div_eucl_shiftl.
  replace (new_location (Zpos m) 0) with loc_Exact
    by (unfold new_location; destruct (Z.even (Zpos m)); reflexivity).
  replace (xorb sg sg) with false by (destruct sg; reflexivity).
  vm_compute. reflexivity.
Qed.

Lemma isZero_cmp (z : float) :
  isZero z -> (z <? 0) = false /\ (1 <? z) = false /\ (z =? 0) = true.
Proof.
  intros [s Hz]. rewrite !FloatAxioms.ltb_spec, FloatAxioms.eqb_spec, Hz.
  repeat split; reflexivity.
Qed.

(** The two clamps of [projectPointOnSegment] and [closestPointOnSegment]:
    they pass NaN on and take every number into [0,1]. *)
Lemma clamp_unit (t : float) :
  let t1 := if t <? 0 then 0 else t in
  let t2 := if 1 <? t1 then 1 else t1 in
  (is_nan t2 = true <-> is_nan t = true) /\
  (is_nan t = false -> (0 <=? t2) = true /\ (t2 <=? 1) = true).
Proof.
  cbv zeta. destruct (t <? 0) eqn:E0.
  - assert (Hn : is_nan t = false)
      by (destruct (is_nan t) eqn:En; [rewrite ltb_nan_l in E0 by exact En; discriminate | reflexivity]).
    rewrite Hn. change (1 <? 0) with false. cbv iota.
    split; [split; intros H; discriminate | intros _; split; reflexivity].
  - destruct (1 <? t) eqn:E1.
    + assert (Hn : is_nan t = false)
        by (destruct (is_nan t) eqn:En; [rewrite ltb_nan_r in E1 by exact En; discriminate | reflexivity]).
      rewrite Hn. split; [split; intros H; discriminate | intros _; split; reflexivity].
    + split; [reflexivity |]. intros Hn.
      rewrite (leb_negb_ltb 0 t eq_refl Hn), (leb_negb_ltb t 1 Hn eq_refl), E0, E1.
      split; reflexivity.
Qed.

(* ================================================================= *)
(** ** projectPointOnSegment over binary64 *)

(** C8, as binary64 has it: the parameter [t] that [projectPointOnSegment]
    returns lies in [0,1] unless it is NaN, and it is NaN exactly when the
    squared length is not 0 and the quotient [dot / segLen2] is NaN (a NaN
    or infinite coordinate, or an overflow).  A pose at the start of the
    segment, with finite start coordinates and a finite direction, gives
    [t = 0] (as [==] has it: [+0] or [-0]).  A pose at the end of the segment
    gives [t = 0] when the squared length [vx*vx + vy*vy] is 0 as binary64
    computes it (a zero-length segment, or an underflow), and [t = 1] when
    it is finite and not 0. *)
Theorem C8_projection_parameter :
  forall (pose : Pose) (seg : Segment),
    let vx := X (SegEnd seg) - X (SegStart seg) in
    let vy := Y (SegEnd seg) - Y (SegStart seg) in
    let wx := PoseX pose - X (SegStart seg) in
    let wy := PoseY pose - Y (SegStart seg) in
    let segLen2 := vx * vx + vy * vy in
    let t := snd (Binary64.projectPointOnSegment pose seg) in
    (is_nan t = false -> (0 <=? t) = true /\ (t <=? 1) = true) /\
    (is_nan t = true <->
     (segLen2 =? 0) = false /\ is_nan (dot wx wy vx vy / segLen2) = true) /\
    (PoseX pose = X (SegStart seg) -> PoseY pose = Y (SegStart seg) ->
     is_finite (X (SegStart seg)) = true -> is_finite (Y (SegStart seg)) = true ->
     is_finite vx = true -> is_finite vy = true ->
     (t =? 0) = true) /\
    (PoseX pose = X (SegEnd seg) -> PoseY pose = Y (SegEnd seg) ->
     ((segLen2 =? 0) = true -> t = 0) /\
     ((segLen2 =? 0) = false -> is_finite segLen2 = true -> t = 1)).
Proof.
  intros pose seg vx vy wx wy segLen2 t.
  assert (Ht : t = if segLen2 =? 0 then 0
                   else let q := dot wx wy vx vy / segLen2 in
                        let t1 := if q <? 0 then 0 else q in
                        if 1 <? t1 then 1 else t1).
  { subst t. unfold projectPointOnSegment. fold vx vy wx wy. fold segLen2.
    destruct (segLen2 =? 0); reflexivity. }
  split; [| split; [| split]].
  - rewrite Ht. destruct (segLen2 =? 0); [intros _; split; reflexivity |].
    cbv zeta. intros Hn.
    destruct (clamp_unit (dot wx wy vx vy / segLen2)) as [Hnan Hin]. cbv zeta in *.
    apply Hin. destruct (is_nan (dot wx wy vx vy / segLen2)) eqn:E; [| reflexivity].
    rewrite (proj2 Hnan eq_refl) in Hn. discriminate.
  - rewrite Ht. destruct (segLen2 =? 0).
    + split; [discriminate | intros [H _]; discriminate].
    + destruct (clamp_unit (dot wx wy vx vy / segLen2)) as [Hnan _]. cbv zeta in *.
      rewrite Hnan. tauto.
  - intros Hx Hy Hfx Hfy Hvx Hvy.
    apply is_finite_spec in Hfx, Hfy, Hvx, Hvy.
    assert (Hwx : wx = 0) by (subst wx; rewrite Hx; apply sub_diag, Hfx).
    assert (Hwy : wy = 0) by (subst wy; rewrite Hy; apply sub_diag, Hfy).
    assert (Hz0 : isZero 0) by (exists false; reflexivity).
    assert (Hd : isZero (dot wx wy vx vy)).
    { unfold dot. rewrite Hwx, Hwy. apply add_zero; apply mul_zero_l; assumption. }
    assert (Hs : signed false (Prim2SF segLen2))
      by (apply add_signed; apply mul_self_signed; assumption).
    rewrite Ht. destruct (segLen2 =? 0) eqn:E; [reflexivity |].
    assert (Hq : isZero (dot wx wy vx vy / segLen2)).
    { apply div_zero_l; [exact Hd | exact Hs |].
      intros Hc. apply eqb_zero_spec in Hc. congruence. }
    cbv zeta. destruct (isZero_cmp _ Hq) as (-> & -> & ->). reflexivity.
  - intros Hx Hy.
    assert (Hd : dot wx wy vx vy = segLen2)
      by (subst wx wy segLen2 vx vy; rewrite Hx, Hy; reflexivity).
    rewrite Ht, Hd. split; [intros ->; reflexivity |].
    intros E Hf. rewrite E. apply is_finite_spec in Hf. unfold isFinite in Hf.
    destruct (Prim2SF segLen2) as [s | s | | s m e] eqn:Es; try contradiction.
    + exfalso. assert (Hc : isZero segLen2) by (exists s; exact Es).
      apply eqb_zero_spec in Hc. congruence.
    + rewrite (div_diag segLen2) by eauto. reflexivity.
Qed.

(** C8 as stated fails in four ways: the end of the zero-length segment
    (3,4)-(3,4) projects to [t = 0]; so does the end of (0,0)-(1e-200,0),
    whose squared length underflows to 0; the end of (0,0)-(1e200,0), whose
    squared length overflows, gives NaN; and so does a NaN position. *)
Lemma C8_counterexample :
  (snd (Binary64.projectPointOnSegment (mkPose 3 4 0)
          (mkSegment (mkPoint 3 4) (mkPoint 3 4))) = 0 /\
   snd (Binary64.projectPointOnSegment (mkPose 1e-200 0 0)
          (mkSegment (mkPoint 0 0) (mkPoint 1e-200 0))) = 0 /\
   (0 =? 1) = false) /\
  (snd (Binary64.projectPointOnSegment (mkPose 1e200 0 0)
          (mkSegment (mkPoint 0 0) (mkPoint 1e200 0))) = nan /\
   snd (Binary64.projectPointOnSegment (mkPose nan nan 0)
          (mkSegment (mkPoint 0 0) (mkPoint 10 0))) = nan /\
   (0 <=? nan) = false /\ (nan <=? 1) = false).
Proof. repeat split; reflexivity. Qed.


(* ================================================================= *)
(** ** The index over binary64 *)

Section IndexBinary64.

Variable sortSlice : (ptr -> ptr -> bool) -> list ptr -> list ptr.

(** What [sort.Slice] guarantees: the slice is rearranged, and no element
    is [less] than one before it once [less] is a strict weak ordering of
    the elements of the slice. *)
Hypothesis sortSlice_perm :
  forall less s, Permutation (sortSlice less s) s.
Hypothesis sortSlice_sorted :
  forall less s, strictWeakOrderOn less s ->
                 StronglySorted (fun a b => less b a = false) (sortSlice less s).

Lemma sortSlice_one (less : ptr -> ptr -> bool) (a : ptr) :
  sortSlice less [a] = [a].
Proof. apply Permutation_length_1_inv, Permutation_sym, sortSlice_perm. Qed.

(** The sorted slice around its median. *)
Lemma sortSlice_median (less : ptr -> ptr -> bool) (agvs : list ptr) :
  agvs <> [] ->
  let s := sortSlice less agvs in
  let median := (length s / 2)%nat in
  s = firstn median s ++ nth median s 0%nat :: skipn (median + 1) s /\
  (length (firstn median s) < length agvs)%nat /\
  (length (skipn (median + 1) s) < length agvs)%nat.
Proof.
  intros Hne s median.
  assert (Hlen : length s = length agvs)
    by (apply Permutation_length, sortSlice_perm).
  assert (Hpos : (0 < length agvs)%nat)
    by (destruct agvs; [contradiction | simpl; lia]).
  assert (Hmed : (median < length s)%nat)
    by (subst median; apply Nat.div_lt; lia).
  split; [| split; [rewrite length_firstn; lia | rewrite length_skipn; lia]].
  rewrite Nat.add_1_r. symmetry. apply firstn_skipn_middle.
  apply nth_error_nth'. exact Hmed.
Qed.

(** Any fuel that covers the length of the slice gives the same tree. *)
Lemma buildKDTree_fuel_covers (st : Store) (fuel1 : nat) :
  forall (fuel2 : nat) (agvs : list ptr) (depth : Z),
    (length agvs <= fuel1)%nat -> (length agvs <= fuel2)%nat ->
    buildKDTree_fuel sortSlice fuel1 st agvs depth =
    buildKDTree_fuel sortSlice fuel2 st agvs depth.
Proof.
  induction fuel1 as [| fuel1 IH]; intros fuel2 agvs depth H1 H2.
  - destruct agvs; [| simpl in H1; lia]. destruct fuel2; reflexivity.
  - destruct agvs as [| a agvs']; [destruct fuel2; reflexivity |].
    destruct fuel2 as [| fuel2]; [simpl in H2; lia |].
    pose proof (sortSlice_median (kdLess st (Z.rem depth 2)) (a :: agvs')
                  ltac:(discriminate)) as (_ & Hl & Hr).
    cbn [buildKDTree_fuel]. cbn [length Nat.eqb].
    rewrite (IH fuel2 (firstn _ _) (depth + 1)%Z) by (simpl in *; lia).
    rewrite (IH fuel2 (skipn _ _) (depth + 1)%Z) by (simpl in *; lia).
    reflexivity.
Qed.

(** [buildKDTree] as the code recurses: nil on the empty slice, otherwise
    sort, take the median, and build both halves one level down. *)
Lemma buildKDTree_step (st : Store) (agvs : list ptr) (depth : Z) :
  buildKDTree sortSlice st agvs depth =
    if (length agvs =? 0)%nat then (KDNil, agvs)
    else
      let s := sortSlice (kdLess st (Z.rem depth 2)) agvs in
      let median := (length s / 2)%nat in
      let agv := nth median s 0%nat in
      let lhs := buildKDTree sortSlice st (firstn median s) (depth + 1) in
      let rhs := buildKDTree sortSlice st (skipn (median + 1) s) (depth + 1) in
      (KDCons agv (fst lhs) (fst rhs) depth, snd lhs ++ agv :: snd rhs).
Proof.
  unfold buildKDTree. destruct agvs as [| a agvs']; [reflexivity |].
  pose proof (sortSlice_median (kdLess st (Z.rem depth 2)) (a :: agvs')
                ltac:(discriminate)) as (_ & Hl & Hr).
  cbv zeta in Hl, Hr.
  cbn [length buildKDTree_fuel Nat.eqb]. cbv zeta.
  set (s := sortSlice (kdLess st (Z.rem depth 2)) (a :: agvs')) in *.
  set (lo := firstn (length s / 2) s) in *.
  set (hi := skipn (length s / 2 + 1) s) in *.
  cbn [length] in Hl, Hr.
  rewrite (buildKDTree_fuel_covers st (length lo) (length agvs') lo (depth + 1)%Z)
    by lia.
  rewrite (buildKDTree_fuel_covers st (length hi) (length agvs') hi (depth + 1)%Z)
    by lia.
  destruct (buildKDTree_fuel _ _ _ lo _).
  destruct (buildKDTree_fuel _ _ _ hi _). reflexivity.
Qed.

(** The tree refers to the vehicles of the slice, and the slice comes back
    rearranged. *)
Lemma buildKDTree_permutes (st : Store) (n : nat) :
  forall (agvs : list ptr) (depth : Z),
    (length agvs <= n)%nat ->
    Permutation (elements (fst (buildKDTree sortSlice st agvs depth))) agvs /\
    Permutation (snd (buildKDTree sortSlice st agvs depth)) agvs.
Proof.
  induction n as [| n IH]; intros agvs depth Hn.
  - destruct agvs; [| simpl in Hn; lia].
    rewrite buildKDTree_step. simpl. auto.
  - rewrite buildKDTree_step.
    destruct agvs as [| a agvs']; [simpl; auto |].
    cbn [length Nat.eqb]. cbv zeta.
    pose proof (sortSlice_median (kdLess st (Z.rem depth 2)) (a :: agvs')
                  ltac:(discriminate)) as (Hsplit & Hl & Hr).
    cbv zeta in Hsplit, Hl, Hr.
    set (s := sortSlice (kdLess st (Z.rem depth 2)) (a :: agvs')) in *.
    set (median := (length s / 2)%nat) in *.
    set (agv := nth median s 0%nat) in *.
    destruct (IH (firstn median s) (depth + 1)%Z ltac:(simpl in *; lia))
      as (Hel & Hsl).
    destruct (IH (skipn (median + 1) s) (depth + 1)%Z ltac:(simpl in *; lia))
      as (Her & Hsr).
    cbn [fst snd elements].
    assert (Hs : Permutation s (a :: agvs')) by apply sortSlice_perm.
    split.
    + rewrite <- Hs. rewrite Hsplit at 3.
      rewrite Hel, Her. apply Permutation_middle.
    + rewrite <- Hs. rewrite Hsplit at 3.
      rewrite Hsl, Hsr. reflexivity.
Qed.

(** *** The scheduling example *)

Lemma example_sort_binary64 (idA idB : Z) (slice : list ptr) :
  Permutation slice [0%nat; 1%nat] ->
  sortSlice (kdLess (exampleFleet idA idB) 0) slice = [0%nat; 1%nat].
Proof.
  intros Hp.
  assert (Hs : Permutation (sortSlice (kdLess (exampleFleet idA idB) 0) slice)
                           [0%nat; 1%nat])
    by (rewrite sortSlice_perm; exact Hp).
  assert (Hin : forall a, In a slice -> a = 0%nat \/ a = 1%nat).
  { intros a Ha. apply (Permutation_in _ Hp) in Ha.
    destruct Ha as [<- | [<- | []]]; auto. }
  pose proof (sortSlice_sorted (kdLess (exampleFleet idA idB) 0) slice) as Hsorted.
  assert (Hswo : strictWeakOrderOn (kdLess (exampleFleet idA idB) 0) slice).
  { split.
    - intros a b Ha Hb. destruct (Hin a Ha) as [-> | ->], (Hin b Hb) as [-> | ->];
        vm_compute; congruence.
    - intros a b c Ha Hb Hc.
      destruct (Hin a Ha) as [-> | ->], (Hin b Hb) as [-> | ->],
        (Hin c Hc) as [-> | ->]; vm_compute; congruence. }
  specialize (Hsorted Hswo).
  apply Permutation_sym, Permutation_length_2_inv in Hs.
  destruct Hs as [Hs | Hs]; [exact Hs |].
  rewrite Hs in Hsorted. inversion Hsorted as [| ? ? _ Hall]. subst.
  inversion Hall as [| ? ? Hc _]. vm_compute in Hc. discriminate.
Qed.

Lemma example_buildKDTree_binary64 (idA idB : Z) (slice : list ptr) :
  Permutation slice [0%nat; 1%nat] ->
  buildKDTree sortSlice (exampleFleet idA idB) slice 0 =
    (exampleTree, [0%nat; 1%nat]).
Proof.
  intros Hp. unfold buildKDTree.
  rewrite (Permutation_length Hp). cbn [length buildKDTree_fuel].
  rewrite (Permutation_length Hp). cbn [length Nat.eqb].
  change (Z.rem 0 2) with 0%Z. rewrite (example_sort_binary64 idA idB slice Hp).
  cbn [length Nat.div Nat.divmod fst nth firstn skipn Nat.add Nat.eqb].
  change (Z.rem (0 + 1) 2) with 1%Z. rewrite sortSlice_one.
  reflexivity.
Qed.





(** *** The slice after the fleet-level checks *)

Lemma DetectCollisionsWithKDTree_slice (st : Store) (agvs : list ptr)
    (tol radius : float) :
  snd (DetectCollisionsWithKDTree sortSlice st agvs tol radius) =
  snd (buildKDTree sortSlice st agvs 0).
Proof.
  unfold DetectCollisionsWithKDTree.
  destruct (buildKDTree sortSlice st agvs 0) as [root agvs'].
  destruct (fold_left _ agvs' _). reflexivity.
Qed.

(** C10: [buildKDTree] leaves the caller's slice of references rearranged:
    sorted by [sort.Slice] on the axis of the level, with the part before
    the median and the part after it rearranged in turn by the two
    recursive calls.  Every fleet-level check that builds the tree
    ([DetectCollisionsWithKDTree], [DetectAndSchedule],
    [PredictCollisionsForFleet], [predictCollisionsForFleetWithKDTree], and
    [PredictCollisionsForFleetOptimized] when it uses the index) leaves the
    slice as [buildKDTree] leaves it, whether or not its sampling loops end;
    [PredictCollisionsForFleetOptimized] without the index leaves it as it
    was.  The slice left is a permutation of the slice passed in, and for
    some slices not the same sequence. *)
Theorem C10_buildKDTree_sorts_in_place :
  (forall (st : Store) (agvs : list ptr) (depth : Z),
      snd (Binary64.buildKDTree sortSlice st agvs depth) =
        if (length agvs =? 0)%nat then agvs
        else
          let s := sortSlice (kdLess st (Z.rem depth 2)) agvs in
          let median := (length s / 2)%nat in
          snd (Binary64.buildKDTree sortSlice st (firstn median s) (depth + 1))
            ++ nth median s 0%nat
            :: snd (Binary64.buildKDTree sortSlice st (skipn (median + 1) s)
                      (depth + 1))) /\
  (forall (st : Store) (agvs : list ptr) (depth : Z),
      Permutation (snd (Binary64.buildKDTree sortSlice st agvs depth)) agvs) /\
  (forall (st : Store) (agvs : list ptr) (tol radius safeGap : float),
      snd (DetectCollisionsWithKDTree sortSlice st agvs tol radius) =
        snd (Binary64.buildKDTree sortSlice st agvs 0) /\
      snd (DetectAndSchedule sortSlice st agvs tol radius safeGap) =
        snd (Binary64.buildKDTree sortSlice st agvs 0)) /\
  (forall (Atan2 : float -> float -> float) (fuel : nat) (st : Store)
          (agvs : list ptr) (timeRange timeStep collisionThreshold : float),
      snd (PredictCollisionsForFleet Atan2 sortSlice fuel st agvs
             timeRange timeStep collisionThreshold) =
        snd (Binary64.buildKDTree sortSlice st agvs 0) /\
      snd (predictCollisionsForFleetWithKDTree Atan2 sortSlice fuel st agvs
             timeRange timeStep collisionThreshold) =
        snd (Binary64.buildKDTree sortSlice st agvs 0) /\
      snd (PredictCollisionsForFleetOptimized Atan2 sortSlice fuel st agvs
             timeRange timeStep collisionThreshold true) =
        (if (10 <? length agvs)%nat
         then snd (Binary64.buildKDTree sortSlice st agvs 0) else agvs) /\
      snd (PredictCollisionsForFleetOptimized Atan2 sortSlice fuel st agvs
             timeRange timeStep collisionThreshold false) = agvs) /\
  (exists (st : Store) (agvs : list ptr),
      snd (Binary64.buildKDTree sortSlice st agvs 0) <> agvs).
Proof.
  split; [| split; [| split; [| split]]].
  - intros st agvs depth. rewrite buildKDTree_step.
    destruct (length agvs =? 0)%nat; reflexivity.
  - intros st agvs depth.
    apply (buildKDTree_permutes st (length agvs) agvs depth (Nat.le_refl _)).
  - intros st agvs tol radius safeGap.
    split; [apply DetectCollisionsWithKDTree_slice |].
    unfold DetectAndSchedule.
    rewrite <- (DetectCollisionsWithKDTree_slice st agvs tol radius).
    destruct (DetectCollisionsWithKDTree sortSlice st agvs tol radius).
    reflexivity.
  - intros Atan2 fuel st agvs timeRange timeStep collisionThreshold.
    split; [| split; [| split]].
    + unfold PredictCollisionsForFleet.
      destruct (buildKDTree sortSlice st agvs 0) as [root agvs'].
      destruct (fold_left _ agvs' _). reflexivity.
    + unfold predictCollisionsForFleetWithKDTree.
      destruct (buildKDTree sortSlice st agvs 0) as [root agvs']. reflexivity.
    + unfold PredictCollisionsForFleetOptimized. cbn [andb].
      destruct (10 <? length agvs)%nat; [| reflexivity].
      unfold predictCollisionsForFleetWithKDTree.
      destruct (buildKDTree sortSlice st agvs 0) as [root agvs']. reflexivity.
    + reflexivity.
  - exists (exampleFleet 1 2), [1%nat; 0%nat].
    rewrite (example_buildKDTree_binary64 1 2 [1%nat; 0%nat]) by apply perm_swap.
    cbn [snd]. discriminate.
Qed.

End IndexBinary64.


(* ================================================================= *)
(** ** The insertion sort meets what the index asks of [sort.Slice] *)

Lemma sinkLeft_permutes (less : ptr -> ptr -> bool) (x : ptr) (before : list ptr) :
  Permutation (sinkLeft less before x) (x :: before).
Proof.
  induction before as [| y before IH]; simpl; [reflexivity |].
  destruct (less x y); [| reflexivity].
  rewrite IH. apply perm_swap.
Qed.

Lemma fold_sinkLeft_permutes (less : ptr -> ptr -> bool) (s : list ptr) :
  forall acc, Permutation (fold_left (sinkLeft less) s acc) (s ++ acc).
Proof.
  induction s as [| x s IH]; intros acc; simpl; [reflexivity |].
  rewrite IH, sinkLeft_permutes. symmetry. apply Permutation_middle.
Qed.

Lemma insertionSort_permutes (less : ptr -> ptr -> bool) (s : list ptr) :
  Permutation (insertionSort less s) s.
Proof.
  unfold insertionSort. rewrite <- Permutation_rev.
  rewrite fold_sinkLeft_permutes, app_nil_r. reflexivity.
Qed.

(** Sinking an element into a part sorted downwards keeps it sorted
    downwards. *)
Lemma sinkLeft_sorted_on (less : ptr -> ptr -> bool) (s : list ptr) (x : ptr) :
  strictWeakOrderOn less s -> In x s ->
  forall before,
    (forall y, In y before -> In y s) ->
    StronglySorted (fun a b => less a b = false) before ->
    StronglySorted (fun a b => less a b = false) (sinkLeft less before x).
Proof.
  intros [Hasym Hneg] Hx before.
  induction before as [| y before IH]; intros Hin Hs; simpl.
  - repeat constructor.
  - apply StronglySorted_inv in Hs. destruct Hs as [Hs Hy].
    rewrite List.Forall_forall in Hy.
    assert (Hin' : forall z, In z before -> In z s)
      by (intros z Hz; apply Hin; right; exact Hz).
    assert (Hys : In y s) by (apply Hin; left; reflexivity).
    destruct (less x y) eqn:Hxy.
    + constructor; [apply IH; assumption |].
      apply List.Forall_forall. intros z Hz.
      apply (Permutation_in _ (sinkLeft_permutes less x before)) in Hz.
      destruct Hz as [<- | Hz]; [apply Hasym; assumption | auto].
    + constructor; [constructor; [assumption | apply List.Forall_forall; assumption] |].
      constructor; [exact Hxy |].
      apply List.Forall_forall. intros z Hz.
      apply (Hneg x y z); auto.
Qed.

Lemma StronglySorted_reverse {A : Type} (R : A -> A -> Prop) (l : list A) :
  StronglySorted R l -> StronglySorted (fun a b => R b a) (rev l).
Proof.
  induction l as [| a l IH]; intros Hs; simpl; [constructor |].
  apply StronglySorted_inv in Hs. destruct Hs as [Hs Ha].
  specialize (IH Hs).
  assert (Hall : forall x, In x (rev l) -> R a x).
  { intros x Hx. apply in_rev in Hx. rewrite List.Forall_forall in Ha. auto. }
  clear Hs Ha. induction (rev l) as [| b k IHk]; simpl.
  - repeat constructor.
  - apply StronglySorted_inv in IH. destruct IH as [Hk Hb].
    constructor.
    + apply IHk; [exact Hk | intros x Hx; apply Hall; right; exact Hx].
    + apply List.Forall_forall. intros x Hx. apply in_app_or in Hx.
      destruct Hx as [Hx | [<- | []]].
      * rewrite List.Forall_forall in Hb. auto.
      * apply Hall. left. reflexivity.
Qed.

Lemma insertionSort_sorted_on (less : ptr -> ptr -> bool) (s : list ptr) :
  strictWeakOrderOn less s ->
  StronglySorted (fun a b => less b a = false) (insertionSort less s).
Proof.
  intros Hswo. unfold insertionSort.
  apply (StronglySorted_reverse (fun a b => less a b = false)).
  assert (H : forall todo acc,
             (forall y, In y todo -> In y s) ->
             (forall y, In y acc -> In y s) ->
             StronglySorted (fun a b => less a b = false) acc ->
             StronglySorted (fun a b => less a b = false)
                            (fold_left (sinkLeft less) todo acc)).
  { induction todo as [| x todo IH]; intros acc Htodo Hacc Hs; simpl; [exact Hs |].
    apply IH.
    - intros y Hy. apply Htodo. right. exact Hy.
    - intros y Hy. apply (Permutation_in _ (sinkLeft_permutes less x acc)) in Hy.
      destruct Hy as [<- | Hy]; [apply Htodo; left; reflexivity | auto].
    - apply (sinkLeft_sorted_on less s); auto. apply Htodo. left. reflexivity. }
  apply H; [auto | intros y [] | constructor].
Qed.

(* ================================================================= *)
(** ** The theorems of the index at the insertion sort *)



(** NaN positions come from the package itself: for a vehicle standing on
    a waypoint of its path the sub-path starts with a segment of length 0,
    and [PredictPosition(0)] divides 0 by 0 and stores the position
    (NaN, NaN).  (math.Atan2(0, 0) is 0.) *)
Lemma PredictPosition_stores_NaN (Atan2 : float -> float -> float) :
  Atan2 0 0 = 0 ->
  PredictPosition Atan2 waypointAGV 0 =
    (nth 1 nanFleet zeroAGV, mkPose nan nan 0).
Proof. intros H. vm_compute. rewrite H. reflexivity. Qed.


(** C4 at the failing input: on [sentinelPathA] and [sentinelPathB], both
    at 2^-971 m/s, [findAllCollisions] yields one collision, with both
    arrival times [math.MaxFloat64] and time difference 0, within the
    tolerance; [earliestCollision] reports no collision, because
    [earliest < minTime] is false for [minTime] still at its start value
    [math.MaxFloat64]. *)
Theorem C4_earliestCollision_failing_input :
  Binary64.findAllCollisions sentinelPathA sentinelPathB 0x1p-971 0x1p-971 1 =
    [ mkCollision (mkPoint 9007199254740991 0) 9007199254740991 9007199254740991
        MaxFloat64 MaxFloat64 0 ] /\
  (0 <=? 0.1) = true /\
  Binary64.earliestCollision sentinelPathA sentinelPathB 0x1p-971 0x1p-971 1 0.1 =
    (false, zeroCollision).
Proof. repeat split; vm_compute; reflexivity. Qed.

Lemma C10_buildKDTree_sorts_in_place_witness :
  (forall (st : Store) (agvs : list ptr) (depth : Z),
      snd (Binary64.buildKDTree insertionSort st agvs depth) =
        if (length agvs =? 0)%nat then agvs
        else
          let s := insertionSort (kdLess st (Z.rem depth 2)) agvs in
          let median := (length s / 2)%nat in
          snd (Binary64.buildKDTree insertionSort st (firstn median s) (depth + 1))
            ++ nth median s 0%nat
            :: snd (Binary64.buildKDTree insertionSort st (skipn (median + 1) s)
                      (depth + 1))) /\
  (forall (st : Store) (agvs : list ptr) (depth : Z),
      Permutation (snd (Binary64.buildKDTree insertionSort st agvs depth)) agvs) /\
  (forall (st : Store) (agvs : list ptr) (tol radius safeGap : float),
      snd (DetectCollisionsWithKDTree insertionSort st agvs tol radius) =
        snd (Binary64.buildKDTree insertionSort st agvs 0) /\
      snd (DetectAndSchedule insertionSort st agvs tol radius safeGap) =
        snd (Binary64.buildKDTree insertionSort st agvs 0)) /\
  (forall (Atan2 : float -> float -> float) (fuel : nat) (st : Store)
          (agvs : list ptr) (timeRange timeStep collisionThreshold : float),
      snd (PredictCollisionsForFleet Atan2 insertionSort fuel st agvs
             timeRange timeStep collisionThreshold) =
        snd (Binary64.buildKDTree insertionSort st agvs 0) /\
      snd (predictCollisionsForFleetWithKDTree Atan2 insertionSort fuel st agvs
             timeRange timeStep collisionThreshold) =
        snd (Binary64.buildKDTree insertionSort st agvs 0) /\
      snd (PredictCollisionsForFleetOptimized Atan2 insertionSort fuel st agvs
             timeRange timeStep collisionThreshold true) =
        (if (10 <? length agvs)%nat
         then snd (Binary64.buildKDTree insertionSort st agvs 0) else agvs) /\
      snd (PredictCollisionsForFleetOptimized Atan2 insertionSort fuel st agvs
             timeRange timeStep collisionThreshold false) = agvs) /\
  (exists (st : Store) (agvs : list ptr),
      snd (Binary64.buildKDTree insertionSort st agvs 0) <> agvs).
Proof.
  exact (C10_buildKDTree_sorts_in_place insertionSort insertionSort_permutes
           insertionSort_sorted_on).
Defined.

(* ================================================================= *)
(** ** rangeSearch over binary64 *)

Lemma leb_nan_l (x y : float) : is_nan x = true -> (x <=? y) = false.
Proof.
  intros Hx. apply is_nan_spec in Hx. rewrite FloatAxioms.leb_spec, Hx.
  reflexivity.
Qed.

Lemma leb_nan_r (x y : float) : is_nan y = true -> (x <=? y) = false.
Proof.
  intros Hy. apply is_nan_spec in Hy. rewrite FloatAxioms.leb_spec, Hy.
  unfold SFleb, SFcompare. destruct (Prim2SF x); reflexivity.
Qed.

(** What [rangeSearch] appends on any tree: vehicles of the tree that pass
    the test of its first step. *)
Lemma rangeSearch_binary64_appends (st : Store) (target : ptr) (r : float)
    (node : KDNode) :
  forall results : list ptr,
  exists appended : list ptr,
    Binary64.rangeSearch st node target r results = results ++ appended /\
    forall v, In v appended ->
              In v (elements node) /\
              Id (deref st v) <> Id (deref st target) /\
              (distance st v target <=? r) = true.
Proof.
  induction node as [| agv lhs IHl rhs IHr depth]; intros results.
  - exists []. split; [symmetry; apply app_nil_r | intros v []].
  - cbn [Binary64.rangeSearch elements]. cbv zeta.
    set (diff := if (Z.rem depth 2 =? 0)%Z then _ else _).
    assert (Hhere : exists here,
               (if negb (Id (deref st agv) =? Id (deref st target))%Z &&
                   (distance st agv target <=? r)
                then results ++ [agv] else results) = results ++ here /\
               forall v, In v here ->
                         v = agv /\ Id (deref st v) <> Id (deref st target) /\
                         (distance st v target <=? r) = true).
    { destruct (negb _ && _) eqn:E.
      - exists [agv]. split; [reflexivity |].
        intros v [<- | []]. apply andb_true_iff in E. destruct E as [Hid Hd].
        apply negb_true_iff, Z.eqb_neq in Hid. auto.
      - exists []. split; [symmetry; apply app_nil_r | intros v []]. }
    destruct Hhere as (here & -> & Hhere).
    assert (Hboth : forall first second : KDNode,
               (forall res, exists app1,
                     Binary64.rangeSearch st first target r res = res ++ app1 /\
                     forall v, In v app1 ->
                               In v (elements first) /\
                               Id (deref st v) <> Id (deref st target) /\
                               (distance st v target <=? r) = true) ->
               (forall res, exists app2,
                     Binary64.rangeSearch st second target r res = res ++ app2 /\
                     forall v, In v app2 ->
                               In v (elements second) /\
                               Id (deref st v) <> Id (deref st target) /\
                               (distance st v target <=? r) = true) ->
               exists appended,
                 (if Abs diff <=? r
                  then Binary64.rangeSearch st second target r
                         (Binary64.rangeSearch st first target r (results ++ here))
                  else Binary64.rangeSearch st first target r (results ++ here)) =
                   results ++ appended /\
                 forall v, In v appended ->
                           (v = agv \/ In v (elements first) \/ In v (elements second)) /\
                           Id (deref st v) <> Id (deref st target) /\
                           (distance st v target <=? r) = true).
    { intros first second H1 H2.
      destruct (H1 (results ++ here)) as (app1 & -> & Happ1).
      destruct (Abs diff <=? r).
      - destruct (H2 ((results ++ here) ++ app1)) as (app2 & -> & Happ2).
        exists (here ++ app1 ++ app2). split; [rewrite !app_assoc; reflexivity |].
        intros v Hv. apply in_app_or in Hv. destruct Hv as [Hv | Hv].
        + destruct (Hhere v Hv) as (-> & ? & ?). auto.
        + apply in_app_or in Hv. destruct Hv as [Hv | Hv].
          * destruct (Happ1 v Hv) as (? & ? & ?). auto.
          * destruct (Happ2 v Hv) as (? & ? & ?). auto.
      - exists (here ++ app1). split; [rewrite app_assoc; reflexivity |].
        intros v Hv. apply in_app_or in Hv. destruct Hv as [Hv | Hv].
        + destruct (Hhere v Hv) as (-> & ? & ?). auto.
        + destruct (Happ1 v Hv) as (? & ? & ?). auto. }
    destruct (diff <=? 0).
    + destruct (Hboth lhs rhs IHl IHr) as (appended & -> & Happ).
      exists appended. split; [reflexivity |].
      intros v Hv. destruct (Happ v Hv) as (Hin & ? & ?).
      split; [| auto]. cbn [In]. rewrite in_app_iff.
      destruct Hin as [-> | [? | ?]]; auto.
    + destruct (Hboth rhs lhs IHr IHl) as (appended & -> & Happ).
      exists appended. split; [reflexivity |].
      intros v Hv. destruct (Happ v Hv) as (Hin & ? & ?).
      split; [| auto]. cbn [In]. rewrite in_app_iff.
      destruct Hin as [-> | [? | ?]]; auto.
Qed.

(** X22: in binary64 and on any tree, ordered or not, [rangeSearch] only
    appends to [results]; every vehicle it appends is in the tree, has an
    id other than the target's and a distance to the target that compares
    [<=] to [r]; a NaN radius finds nothing. *)
Theorem X22_rangeSearch_binary64_sound :
  forall (st : Store) (node : KDNode) (target : ptr) (r : float)
         (results : list ptr),
  exists appended : list ptr,
    Binary64.rangeSearch st node target r results = results ++ appended /\
    (forall v, In v appended ->
               In v (elements node) /\
               Id (deref st v) <> Id (deref st target) /\
               (distance st v target <=? r) = true) /\
    (is_nan r = true -> appended = []).
Proof.
  intros st node target r results.
  destruct (rangeSearch_binary64_appends st target r node results)
    as (appended & Heq & Happ).
  exists appended. split; [exact Heq |]. split; [exact Happ |].
  intros Hnan. destruct appended as [| v rest]; [reflexivity |].
  destruct (Happ v (or_introl eq_refl)) as (_ & _ & Hd).
  rewrite (leb_nan_r _ _ Hnan) in Hd. discriminate.
Qed.

(* ================================================================= *)
(** ** The rounding of binary64 in the package *)

Lemma add_nan_l (x y : float) : is_nan x = true -> is_nan (x + y) = true.
Proof.
  intros Hx. apply is_nan_spec in Hx. apply is_nan_spec.
  rewrite add_spec, Hx. reflexivity.
Qed.

Lemma sub_nan_l (x y : float) : is_nan x = true -> is_nan (x - y) = true.
Proof.
  intros Hx. apply is_nan_spec in Hx. apply is_nan_spec.
  rewrite sub_spec, Hx. reflexivity.
Qed.

Lemma sub_nan_r (x y : float) : is_nan y = true -> is_nan (x - y) = true.
Proof.
  intros Hy. apply is_nan_spec in Hy. apply is_nan_spec.
  rewrite sub_spec, Hy. destruct (Prim2SF x); reflexivity.
Qed.

(** X23: [ResolveCollision] in binary64.  The sum [Time + safeGap] is
    rounded before the subtraction: for arrival times 2.5 and 2.6 and
    [safeGap = 0.1] the wait is 0, although the times differ by more than
    [safeGap]; for a tie and [safeGap = 1e-17] the wait is 0, not
    [safeGap].  When an arrival time is NaN, vehicle 2 is told "GO" and
    vehicle 1 "WAIT", with a NaN wait. *)
Theorem X23_ResolveCollision_binary64 :
  WaitTime (snd (Binary64.ResolveCollision
                   (mkCollisionEvent 0%nat 1%nat (mkPoint 5 0) 2.5 2.6 0.1) 0.1)) = 0 /\
  (0.1 <? Abs (2.5 - 2.6)) = true /\
  WaitTime (snd (Binary64.ResolveCollision exampleEvent 1e-17)) = 0 /\
  (forall (e : CollisionEvent) (safeGap : float),
      is_nan (Time1 e) = true \/ is_nan (Time2 e) = true ->
      let go := fst (Binary64.ResolveCollision e safeGap) in
      let wait := snd (Binary64.ResolveCollision e safeGap) in
      SAGV go = AGV2 e /\ Action go = "GO"%string /\
      SAGV wait = AGV1 e /\ Action wait = "WAIT"%string /\
      is_nan (WaitTime wait) = true).
Proof.
  split; [reflexivity |]. split; [reflexivity |]. split; [reflexivity |].
  intros e safeGap Hnan go wait. subst go wait. unfold Binary64.ResolveCollision.
  assert (Hle : (Time1 e <=? Time2 e) = false)
    by (destruct Hnan as [H | H]; [apply leb_nan_l | apply leb_nan_r]; exact H).
  rewrite Hle. cbn [fst snd SAGV Action WaitTime].
  repeat split.
  destruct Hnan as [H | H].
  - apply sub_nan_r. exact H.
  - apply sub_nan_l, add_nan_l. exact H.
Qed.

(** X24: [segmentIntersect] in binary64.  The segments (9.9,8.9)-(5.1,7.4)
    and (2.4,2.9)-(5.1,7.4) are not parallel and end in the same point, but
    the parameter [u] comes out above 1 and no intersection is reported, in
    either order; for (3,0)-(9,12) and (10,13)-(6,8) the point reported
    depends on which segment comes first. *)
Theorem X24_segmentIntersect_binary64 :
  let s1 := mkSegment (mkPoint 9.9 8.9) (mkPoint 5.1 7.4) in
  let s2 := mkSegment (mkPoint 2.4 2.9) (mkPoint 5.1 7.4) in
  let s3 := mkSegment (mkPoint 3 0) (mkPoint 9 12) in
  let s4 := mkSegment (mkPoint 10 13) (mkPoint 6 8) in
  SegEnd s1 = SegEnd s2 /\
  (cross (X (SegEnd s1) - X (SegStart s1)) (Y (SegEnd s1) - Y (SegStart s1))
         (X (SegEnd s2) - X (SegStart s2)) (Y (SegEnd s2) - Y (SegStart s2)) =? 0)
    = false /\
  Binary64.segmentIntersect s1 s2 1 = (false, zeroPoint) /\
  Binary64.segmentIntersect s2 s1 1 = (false, zeroPoint) /\
  Binary64.segmentIntersect s3 s4 1 =
    (true, mkPoint 8.6666666666666661 11.333333333333332) /\
  Binary64.segmentIntersect s4 s3 1 =
    (true, mkPoint 8.6666666666666661 11.333333333333334) /\
  (11.333333333333332 =? 11.333333333333334) = false.
Proof. repeat split; vm_compute; reflexivity. Qed.

(** X25: [GenerateSubPath] in binary64.  For a vehicle at (3,-6) on the
    path (14,18)-(-7,10), the first call caches a sub-path that starts at
    the projection of the vehicle; a second call, the pose unchanged,
    projects the vehicle on the cached segment and moves that first point in
    its last digits. *)
Theorem X25_GenerateSubPath_binary64 :
  let agv :=
    mkAGV 1 1 (mkPose 3 (-6) 0) 1 [mkPoint 14 18; mkPoint (-7) 10] [] false in
  let agv1 := fst (Binary64.GenerateSubPath agv) in
  snd (Binary64.GenerateSubPath agv) =
    [mkPoint (-3.5900990099009888) 11.2990099009901; mkPoint (-7) 10] /\
  APose agv1 = APose agv /\
  snd (Binary64.GenerateSubPath agv1) =
    [mkPoint (-3.5900990099009933) 11.299009900990098; mkPoint (-7) 10] /\
  (-3.5900990099009933 =? -3.5900990099009888) = false.
Proof. repeat split; vm_compute; reflexivity. Qed.

(** X26: [PredictPosition] in binary64.  For a vehicle standing on the
    waypoint (10,0) of the path (0,0)-(10,0)-(10,10), the sub-path starts
    with a segment of length 0; [PredictPosition(0)] takes it, divides 0 by
    0, and stores and returns the position (NaN, NaN); projected on a
    segment, that pose gets the parameter NaN. *)
Theorem X26_PredictPosition_binary64_NaN :
  forall Atan2 : float -> float -> float,
    let agv' := fst (Binary64.PredictPosition Atan2 waypointAGV 0) in
    let pose := snd (Binary64.PredictPosition Atan2 waypointAGV 0) in
    snd (Binary64.GenerateSubPath waypointAGV) =
      [mkPoint 10 0; mkPoint 10 0; mkPoint 10 10] /\
    pose = mkPose nan nan (Atan2 0 0) /\
    APose agv' = pose /\
    snd (Binary64.projectPointOnSegment pose
           (mkSegment (mkPoint 10 0) (mkPoint 10 10))) = nan.
Proof.
  intros Atan2. cbv zeta. repeat split; vm_compute; reflexivity.
Qed.

(** X27: a vehicle that stands still.  In binary64 the arrival time
    [sA / vA] of a vehicle of speed 0 is [+Inf] (or NaN when the point is
    its own start), the time difference is [+Inf] or NaN, and
    [earliestCollision] reports no collision for a tolerance of 100 s. *)
Theorem X27_findAllCollisions_binary64_zero_speed :
  let pathA := [mkPoint 0 0; mkPoint 10 0] in
  Binary64.findAllCollisions pathA [mkPoint 5 5; mkPoint 5 (-5)] 0 2 1 =
    [mkCollision (mkPoint 5 0) 5 5 infinity 2.5 infinity] /\
  Binary64.earliestCollision pathA [mkPoint 5 5; mkPoint 5 (-5)] 0 2 1 100 =
    (false, zeroCollision) /\
  Binary64.findAllCollisions pathA [mkPoint 0 5; mkPoint 0 (-5)] 0 2 1 =
    [mkCollision (mkPoint 0 0) 0 5 nan 2.5 nan] /\
  Binary64.earliestCollision pathA [mkPoint 0 5; mkPoint 0 (-5)] 0 2 1 100 =
    (false, zeroCollision).
Proof. repeat split; vm_compute; reflexivity. Qed.

(* ================================================================= *)
(** ** DetectAndSchedule over binary64 *)

Lemma earliestCollision_step_within (tol : float) (all : list Collision) :
  forall (minTime : float) (best : Collision) (found : bool),
    (found = true -> (TimeDiff best <=? tol) = true) ->
    let '(_, best', found') :=
      fold_left (earliestCollision_step tol) all (minTime, best, found) in
    found' = true -> (TimeDiff best' <=? tol) = true.
Proof.
  induction all as [| c all IH]; intros minTime best found Hinv.
  - exact Hinv.
  - cbn [fold_left]. unfold earliestCollision_step at 2.
    destruct (TimeDiff c <=? tol) eqn:Etol; [| apply IH; exact Hinv].
    destruct (Min (TimeA c) (TimeB c) <? minTime); apply IH; auto.
Qed.

(** An event [DetectCollisionWith] finds names the two vehicles asked about
    and has a time difference that compares [<=] to the tolerance. *)
Lemma DetectCollisionWith_binary64_event (st : Store) (agv other : ptr)
    (tol : float) (e : CollisionEvent) :
  Binary64.DetectCollisionWith st agv other tol = Some e ->
  AGV1 e = agv /\ AGV2 e = other /\ (DeltaT e <=? tol) = true.
Proof.
  unfold Binary64.DetectCollisionWith, Binary64.earliestCollision.
  set (all := findAllCollisions _ _ _ _ _).
  destruct (length all =? 0)%nat; [discriminate |].
  pose proof (earliestCollision_step_within tol all MaxFloat64 zeroCollision false
                ltac:(discriminate)) as H.
  destruct (fold_left _ all _) as [[m best] found].
  destruct found; [| discriminate].
  intros Heq. injection Heq as <-. cbn [AGV1 AGV2 DeltaT]. auto.
Qed.

Lemma DetectCollisions_body_binary64_events (st : Store) (tol : float)
    (P : CollisionEvent -> Prop) (agv : ptr) (neighbors : list ptr) :
  (forall other e, Binary64.DetectCollisionWith st agv other tol = Some e -> P e) ->
  forall acc,
    Forall P (fst acc) ->
    Forall P (fst (fold_left (DetectCollisions_body st tol agv) neighbors acc)).
Proof.
  intros HP. induction neighbors as [| other neighbors IH]; intros acc Hacc.
  - exact Hacc.
  - cbn [fold_left]. apply IH.
    destruct acc as [results seen]. unfold DetectCollisions_body.
    destruct (_ || _); [exact Hacc |].
    destruct (Binary64.DetectCollisionWith st agv other tol) as [e |] eqn:E;
      cbn [fst] in *; [| exact Hacc].
    apply Forall_app. split; [exact Hacc |].
    constructor; [eapply HP; exact E | constructor].
Qed.

Lemma DetectCollisionsWithKDTree_binary64_events
    (sortSlice : (ptr -> ptr -> bool) -> list ptr -> list ptr)
    (st : Store) (agvs : list ptr) (tol radius : float) :
  Forall (fun e => Binary64.DetectCollisionWith st (AGV1 e) (AGV2 e) tol = Some e)
         (fst (Binary64.DetectCollisionsWithKDTree sortSlice st agvs tol radius)).
Proof.
  unfold Binary64.DetectCollisionsWithKDTree.
  destruct (Binary64.buildKDTree sortSlice st agvs 0) as [root slice].
  set (P := fun e => Binary64.DetectCollisionWith st (AGV1 e) (AGV2 e) tol = Some e).
  assert (H : forall (l : list ptr) acc,
             Forall P (fst acc) ->
             Forall P (fst (fold_left
                              (fun acc agv =>
                                 fold_left (DetectCollisions_body st tol agv)
                                   (Binary64.rangeSearch st root agv radius []) acc)
                              l acc))).
  { induction l as [| agv l IH]; intros acc Hacc; [exact Hacc |].
    cbn [fold_left]. apply IH.
    apply DetectCollisions_body_binary64_events; [| exact Hacc].
    intros other e He. unfold P.
    destruct (DetectCollisionWith_binary64_event st agv other tol e He) as (-> & -> & _).
    exact He. }
  specialize (H slice ([], ∅) ltac:(constructor)).
  destruct (fold_left _ slice _) as [results seen]. exact H.
Qed.

Lemma ResolveCollision_fold_binary64 (safeGap : float) (events : list CollisionEvent) :
  forall actions : list ScheduleAction,
    fold_left
      (fun actions e =>
         let '(a1, a2) := Binary64.ResolveCollision e safeGap in
         actions ++ [a1; a2])
      events actions =
    actions ++ flat_map (fun e => [fst (Binary64.ResolveCollision e safeGap);
                                   snd (Binary64.ResolveCollision e safeGap)]) events.
Proof.
  induction events as [| e events IH]; intros actions.
  - symmetry. apply app_nil_r.
  - cbn [fold_left flat_map].
    destruct (Binary64.ResolveCollision e safeGap) as [a1 a2] eqn:E.
    rewrite IH. cbn [fst snd]. rewrite <- app_assoc. reflexivity.
Qed.

(** X28: in binary64, [DetectAndSchedule] returns, in order, the two
    actions of [ResolveCollision] for each event of
    [DetectCollisionsWithKDTree], the "GO" first: twice as many actions as
    events.  Every event is the one [DetectCollisionWith] finds for its two
    vehicles, and its time difference compares [<=] to the tolerance (so it
    is not NaN). *)
Theorem X28_DetectAndSchedule_binary64 :
  forall (sortSlice : (ptr -> ptr -> bool) -> list ptr -> list ptr)
         (st : Store) (agvs : list ptr) (tol radius safeGap : float),
    let actions :=
      fst (Binary64.DetectAndSchedule sortSlice st agvs tol radius safeGap) in
    let events :=
      fst (Binary64.DetectCollisionsWithKDTree sortSlice st agvs tol radius) in
    actions = flat_map (fun e => [fst (Binary64.ResolveCollision e safeGap);
                                  snd (Binary64.ResolveCollision e safeGap)]) events /\
    length actions = (2 * length events)%nat /\
    (forall a, In a actions ->
               In (SCollision a) events /\
               (Action a = "GO"%string /\ WaitTime a = 0 \/
                Action a = "WAIT"%string)) /\
    (forall e, In e events ->
               Binary64.DetectCollisionWith st (AGV1 e) (AGV2 e) tol = Some e /\
               (DeltaT e <=? tol) = true /\ is_nan (DeltaT e) = false).
Proof.
  intros sortSlice st agvs tol radius safeGap actions events.
  assert (Hacts : actions =
                  flat_map (fun e => [fst (Binary64.ResolveCollision e safeGap);
                                      snd (Binary64.ResolveCollision e safeGap)]) events).
  { subst actions events. unfold Binary64.DetectAndSchedule.
    destruct (Binary64.DetectCollisionsWithKDTree sortSlice st agvs tol radius)
      as [events slice].
    cbn [fst]. apply (ResolveCollision_fold_binary64 safeGap events []). }
  split; [exact Hacts |]. split; [| split].
  - rewrite Hacts. clear. induction events as [| e events IH]; [reflexivity |].
    cbn [flat_map app length]. rewrite IH. lia.
  - intros a Ha. rewrite Hacts in Ha. apply in_flat_map in Ha.
    destruct Ha as (e & He & Ha). unfold Binary64.ResolveCollision in Ha.
    destruct (Time1 e <=? Time2 e); cbn [fst snd] in Ha;
      destruct Ha as [<- | [<- | []]]; cbn [SCollision Action WaitTime]; auto.
  - intros e He.
    pose proof (DetectCollisionsWithKDTree_binary64_events sortSlice st agvs tol radius)
      as Hall.
    apply (proj1 (List.Forall_forall _ _)) with (x := e) in Hall; [| exact He].
    cbv beta in Hall.
    split; [exact Hall |].
    destruct (DetectCollisionWith_binary64_event st _ _ tol e Hall) as (_ & _ & Hd).
    split; [exact Hd |].
    destruct (is_nan (DeltaT e)) eqn:En; [| reflexivity].
    rewrite (leb_nan_l _ _ En) in Hd. discriminate.
Qed.
